(** * TerraView: country-name resolution, flag palettes and progressive
      enrichment

    A shallow embedding of the JavaScript sources

      - [src/utils/colorUtils.js]          (flag colour extractor)
      - [src/utils/populationFormatter.js] (country name matcher and loader)
      - [src/components/GlobeView.jsx]     (flag lookup, feature colouring
                                            and enrichment)
      - [src/services/CapitalService.js]   (capital cache)

    together with the properties the specification states about them and
    further properties of the code.

    Conventions of the embedding.

    - A JavaScript string is a Rocq [string] whose characters are UTF-16
      code units in the Latin-1 range (0..255), one [ascii] per code unit.
      Every name of the override table fits in that range.  Case mapping,
      [\w], [\s] and [trim] are written out for this range.
    - A JavaScript number is an IEEE 754 binary64 value: a primitive [float].
      Integers that the code manipulates with bit operations are [Z].
    - A value that may be [null]/[undefined] is an [option].
    - Object literals used as tables are read at their own keys; the names
      they inherit from [Object.prototype] are told apart by
      [isPrototypeKey] where a result depends on them.
    - An [async] function is a function on an explicit state; where callers
      can overlap (the reference-set loader, the flag colour extractor,
      the capital service, the flag lookup) every suspension point is a
      state of its own and the host's events drive the steps. *)

From Stdlib Require Import ZArith Lia Bool List String Ascii Strings.Byte.
From Stdlib Require Import Floats.PrimFloat Floats.FloatOps Floats.SpecFloat.
From stdpp Require Import base option list gmap strings.
From Stdlib Require Import Sorting.Sorted.
From Equations Require Import Equations.

Set Warnings "-inexact-float".

Local Open Scope Z_scope.

(** ** JavaScript strings *)

Module JsString.

Definition code (c : ascii) : N := N_of_ascii c.

(** WhiteSpace and LineTerminator code units below 256: TAB, LF, VT, FF,
    CR, SP and NBSP.  This is the set of [\s] and of [trim]. *)
Definition isWhiteSpace (c : ascii) : bool :=
  let n := code c in
  ((9 <=? n) && (n <=? 13) || (n =? 32) || (n =? 160))%N.

Definition isDigit (c : ascii) : bool :=
  let n := code c in ((48 <=? n) && (n <=? 57))%N.

Definition isUpperAZ (c : ascii) : bool :=
  let n := code c in ((65 <=? n) && (n <=? 90))%N.

Definition isLowerAZ (c : ascii) : bool :=
  let n := code c in ((97 <=? n) && (n <=? 122))%N.

(** [\w] is [A-Za-z0-9_]. *)
Definition isWordChar (c : ascii) : bool :=
  isDigit c || isUpperAZ c || isLowerAZ c || (code c =? 95)%N.

(** Latin-1 capital letters with a lower-case partner in the range:
    A-Z and U+00C0..U+00DE except the multiplication sign U+00D7. *)
Definition toLowerCaseChar (c : ascii) : ascii :=
  let n := code c in
  if (isUpperAZ c
      || ((192 <=? n) && (n <=? 222) && negb (n =? 215)))%N
  then ascii_of_N (n + 32) else c.

(** Lower-case letters whose capital stays in the range: a-z and
    U+00E0..U+00FE except the division sign U+00F7.  The capitals of
    U+00B5, U+00DF and U+00FF leave the range and are left out: the
    strings upper-cased here are printed numbers and ISO country codes,
    which are ASCII. *)
Definition toUpperCaseChar (c : ascii) : ascii :=
  let n := code c in
  if (isLowerAZ c
      || ((224 <=? n) && (n <=? 254) && negb (n =? 247)))%N
  then ascii_of_N (n - 32) else c.

Fixpoint map (f : ascii -> ascii) (s : string) : string :=
  match s with
  | EmptyString => EmptyString
  | String c s' => String (f c) (map f s')
  end.

Definition toLowerCase : string -> string := map toLowerCaseChar.
Definition toUpperCase : string -> string := map toUpperCaseChar.

Fixpoint trimStart (s : string) : string :=
  match s with
  | String c s' => if isWhiteSpace c then trimStart s' else s
  | EmptyString => EmptyString
  end.

(** [trimEnd] drops the last maximal run of white space. *)
Fixpoint trimEnd (s : string) : string :=
  match s with
  | EmptyString => EmptyString
  | String c s' =>
      match trimEnd s' with
      | EmptyString => if isWhiteSpace c then EmptyString
                       else String c EmptyString
      | t => String c t
      end
  end.

Definition trim (s : string) : string := trimEnd (trimStart s).

(** [s.replace(c, '')] for a one-character pattern: only the first
    occurrence goes. *)
Fixpoint replaceFirstWithEmpty (c : ascii) (s : string) : string :=
  match s with
  | EmptyString => EmptyString
  | String d s' => if Ascii.eqb c d then s'
                   else String d (replaceFirstWithEmpty c s')
  end.

(** [s.replace(/[^\w\s]/g, '')]. *)
Fixpoint removeNonWordNonSpace (s : string) : string :=
  match s with
  | EmptyString => EmptyString
  | String c s' =>
      if isWordChar c || isWhiteSpace c
      then String c (removeNonWordNonSpace s')
      else removeNonWordNonSpace s'
  end.

(** [s.replace(/\s+/g, ' ')]: every maximal run of white space becomes
    one space.  [inRun] tells that the previous character was white
    space, whose run has already been replaced. *)
Fixpoint collapseFrom (inRun : bool) (s : string) : string :=
  match s with
  | EmptyString => EmptyString
  | String c s' =>
      if isWhiteSpace c
      then if inRun then collapseFrom true s'
           else String " " (collapseFrom true s')
      else String c (collapseFrom false s')
  end.

Definition collapseWhiteSpace : string -> string := collapseFrom false.

Fixpoint startsWith (p s : string) : bool :=
  match p, s with
  | EmptyString, _ => true
  | String a p', String c s' => Ascii.eqb a c && startsWith p' s'
  | String _ _, EmptyString => false
  end.

(** [s.includes(p)]. *)
Fixpoint includes (s p : string) : bool :=
  startsWith p s ||
  match s with
  | EmptyString => false
  | String _ s' => includes s' p
  end.

(** [s.padStart(2, '0')]. *)
Definition padStart2 (s : string) : string :=
  match s with
  | EmptyString => "00"
  | String c EmptyString => String "0" (String c EmptyString)
  | _ => s
  end.

(** A string is falsy exactly when it is empty. *)
Definition truthy (s : string) : bool := negb (String.eqb s "").

End JsString.

(** ** JavaScript numbers *)

Module JsNumber.

Local Open Scope float_scope.

(** The number with the value of an integer (exact below 2^53). *)
Definition ofZ (z : Z) : float :=
  match z with
  | Z0 => 0
  | Zpos _ => of_uint63 (Uint63Axioms.of_Z z)
  | Zneg p => - of_uint63 (Uint63Axioms.of_Z (Zpos p))
  end.

(** [Math.max] and [Math.min] of two arguments: NaN is contagious and
    +0 is larger than -0. *)
Definition Math_max (x y : float) : float :=
  if is_nan x || is_nan y then nan
  else if x <? y then y
  else if y <? x then x
  else if get_sign x then y else x.

Definition Math_min (x y : float) : float :=
  if is_nan x || is_nan y then nan
  else if x <? y then x
  else if y <? x then y
  else if get_sign x then x else y.

(** [Math.floor]: NaN, the infinities, the zeros and the numbers without
    a fraction are returned as they are. *)
Definition Math_floor (x : float) : float :=
  match Prim2SF x with
  | S754_finite s m e =>
      if (0 <=? e)%Z then x
      else
        let q := Z.shiftr (Zpos m) (- e) in
        if Z.eqb (Z.shiftl q (- e)) (Zpos m) then x
        else if s then ofZ (- (q + 1)) else ofZ q
  | _ => x
  end.

Definition Math_sqrt : float -> float := PrimFloat.sqrt.

(** [ToInt32] of an integer-valued number; NaN ([None]) becomes 0. *)
Definition ToInt32 (n : option Z) : Z :=
  match n with
  | None => 0
  | Some z => ((z + 2 ^ 31) mod 2 ^ 32 - 2 ^ 31)%Z
  end.

Definition hexDigit (n : Z) : ascii :=
  if (n <? 10)%Z then ascii_of_N (Z.to_N (48 + n))
  else ascii_of_N (Z.to_N (87 + n)).

Fixpoint hexDigitsOf (fuel : nat) (n : Z) (acc : string) : string :=
  match fuel with
  | O => acc
  | S k =>
      let acc' := String (hexDigit (n mod 16)) acc in
      if (n / 16 =? 0)%Z then acc' else hexDigitsOf k (n / 16) acc'
  end.

(** The hexadecimal numeral of a natural number, lower case. *)
Definition intToHex (n : Z) : string :=
  hexDigitsOf (S (Z.to_nat (Z.log2 n))) n EmptyString.

(** The hexadecimal digits of [k / 2^p], for [0 <= k < 2^p]. *)
Fixpoint fracToHex (fuel : nat) (k p : Z) : string :=
  match fuel with
  | O => EmptyString
  | S f =>
      if (k =? 0)%Z then EmptyString
      else String (hexDigit (Z.shiftr (k * 16) p))
                  (fracToHex f (Z.land (k * 16) (2 ^ p - 1)) p)
  end.

(** [x.toString(16)].  A number with a fraction prints its integer part,
    a point and fraction digits.  ECMAScript leaves the number of
    fraction digits to the engine; the digits printed here are the exact
    expansion of the binary64 value, of which an engine prints at least
    the first, possibly rounding its last digit. *)
Definition toStringRadix16 (x : float) : string :=
  match Prim2SF x with
  | S754_nan => "NaN"%string
  | S754_infinity s => if s then "-Infinity"%string else "Infinity"%string
  | S754_zero _ => "0"%string
  | S754_finite s m e =>
      let sign := if s then "-"%string else EmptyString in
      if (0 <=? e)%Z
      then String.append sign (intToHex (Zpos m * 2 ^ e))
      else
        let p := (- e)%Z in
        let k := Z.land (Zpos m) (2 ^ p - 1) in
        String.append sign
          (String.append (intToHex (Z.shiftr (Zpos m) p))
             (if (k =? 0)%Z then EmptyString
              else String "." (fracToHex (Z.to_nat p) k p)))
  end.

(** A number is an integer when flooring does not change it. *)
Definition isInteger (x : float) : bool := Math_floor x =? x.

End JsNumber.

(** ** Completions: a call returns a value or throws *)

Inductive Completion (A : Type) : Type :=
| Return (v : A)
| Throw (err : string).
Arguments Return {A} v.
Arguments Throw {A} err.

Definition bindC {A B} (c : Completion A) (k : A -> Completion B)
  : Completion B :=
  match c with
  | Return v => k v
  | Throw e => Throw e
  end.

(** [try { body } catch (err) { handler }]. *)
Definition tryCatch {A} (body : Completion A) (handler : string -> Completion A)
  : Completion A :=
  match body with
  | Return v => Return v
  | Throw e => handler e
  end.

(** [a || b] on values that may be absent and are falsy when empty. *)
Definition orElse (a b : option string) : option string :=
  match a with
  | Some s => if JsString.truthy s then a else b
  | None => b
  end.

Definition truthyOpt (a : option string) : bool :=
  match a with
  | Some s => JsString.truthy s
  | None => false
  end.


(** [table[key]] on an object literal, at the keys of its own: the value
    of the first entry with that key, [None] without one.  What the
    literal inherits is told by [isPrototypeKey] below. *)
Fixpoint tableGet (key : string) (t : list (string * string))
  : option string :=
  match t with
  | [] => None
  | (k, v) :: t' => if String.eqb k key then Some v else tableGet key t'
  end.

(** The names that every object literal inherits from [Object.prototype].
    [table[key]] at one of them is the inherited member, a function or an
    object: a truthy value that is no string. *)
Definition objectPrototypeKeys : list string :=
  [ "constructor"; "hasOwnProperty"; "isPrototypeOf"; "propertyIsEnumerable";
    "toLocaleString"; "toString"; "valueOf"; "__proto__";
    "__defineGetter__"; "__defineSetter__"; "__lookupGetter__";
    "__lookupSetter__" ]%string.

Definition isPrototypeKey (key : string) : bool :=
  existsb (String.eqb key) objectPrototypeKeys.

(** A parameter with a default value: the default stands in for
    [undefined]. *)
Definition orDefault {A} (d : A) (x : option A) : A :=
  match x with Some v => v | None => d end.

(** ** The flag colour extractor ([colorUtils.js]) *)

Module ColorUtils.

Import JsString JsNumber.
Local Open Scope float_scope.

Record RGB : Type := mkRGB { r : float; g : float; b : float }.

(** Base colours per continent. *)
Definition CONTINENT_BASE_COLORS : list (string * string) :=
  [ ("Africa", "#F4CE29"); ("Americas", "#32A189"); ("Asia", "#FF6B6B");
    ("Europe", "#8BBED8"); ("Oceania", "#C77442"); ("Antarctic", "#7C94A4");
    ("default", "#B1C4BB") ]%string.

Definition clamp255 (v : float) : float := Math_max 0 (Math_min 255 v).

Definition hexValue (c : ascii) : option Z :=
  let n := Z.of_N (code c) in
  if isDigit c then Some (n - 48)%Z
  else if ((97 <=? n) && (n <=? 102))%Z then Some (n - 87)%Z
  else if ((65 <=? n) && (n <=? 70))%Z then Some (n - 55)%Z
  else None.

(** The value of the longest prefix of hexadecimal digits, and whether
    it has a digit at all. *)
Fixpoint hexPrefix (s : string) (acc : Z) (seen : bool) : option Z :=
  match s with
  | EmptyString => if seen then Some acc else None
  | String c s' =>
      match hexValue c with
      | Some d => hexPrefix s' (acc * 16 + d)%Z true
      | None => if seen then Some acc else None
      end
  end.

Definition strip0x (s : string) : string :=
  match s with
  | String z (String x s') =>
      if Ascii.eqb z "0" && (Ascii.eqb x "x" || Ascii.eqb x "X") then s'
      else s
  | _ => s
  end.

(** [parseInt(s, 16)]: leading white space, a sign and a [0x] prefix are
    skipped, the digits up to the first other character are read; no
    digit gives NaN, which is [None].  At most six characters are read
    here, so the value is an exact integer. *)
Definition parseInt16 (s : string) : option Z :=
  match trimStart s with
  | String c s' =>
      if Ascii.eqb c "-"
      then option_map Z.opp (hexPrefix (strip0x s') 0%Z false)
      else if Ascii.eqb c "+" then hexPrefix (strip0x s') 0%Z false
      else hexPrefix (strip0x (String c s')) 0%Z false
  | EmptyString => None
  end.

(** Convert hex to RGB object: [null] when not six characters long. *)
Definition hexToRgb (hex : string) : option RGB :=
  let clean := trim (replaceFirstWithEmpty "#" hex) in
  if negb (Nat.eqb (String.length clean) 6) then None
  else
    let num := ToInt32 (parseInt16 clean) in
    Some {| r := ofZ (Z.land (Z.shiftr num 16) 255);
            g := ofZ (Z.land (Z.shiftr num 8) 255);
            b := ofZ (Z.land num 255) |}.

Definition toHex (v : float) : string :=
  padStart2 (toStringRadix16 (clamp255 v)).

(** Convert RGB object to hex string. *)
Definition rgbToHex (c : RGB) : string :=
  toUpperCase
    (String "#" (String.append (toHex (r c))
                   (String.append (toHex (g c)) (toHex (b c))))).

(** Lighten by percentage (0-1). *)
Definition lighten (color : string) (amountArg : option float) : string :=
  let amount := orDefault 0.15 amountArg in
  match hexToRgb color with
  | None => color
  | Some rgb =>
      rgbToHex {| r := r rgb + (255 - r rgb) * amount;
                  g := g rgb + (255 - g rgb) * amount;
                  b := b rgb + (255 - b rgb) * amount |}
  end.

(** Darken by percentage (0-1). *)
Definition darken (color : string) (amountArg : option float) : string :=
  let amount := orDefault 0.15 amountArg in
  match hexToRgb color with
  | None => color
  | Some rgb =>
      rgbToHex {| r := r rgb * (1 - amount);
                  g := g rgb * (1 - amount);
                  b := b rgb * (1 - amount) |}
  end.

(** Blend two colors by ratio (0-1).  Both colours are parsed before the
    test; [colorA || colorB] is the first string unless it is empty. *)
Definition mix (colorA colorB : string) (ratioArg : option float) : string :=
  let ratio := orDefault 0.5 ratioArg in
  match hexToRgb colorA, hexToRgb colorB with
  | Some a, Some b' =>
      let t := Math_max 0 (Math_min 1 ratio) in
      rgbToHex {| r := r a * (1 - t) + r b' * t;
                  g := g a * (1 - t) + g b' * t;
                  b := b a * (1 - t) + b b' * t |}
  | _, _ => if truthy colorA then colorA else colorB
  end.

(** The same functions on arguments that may be absent ([null] or
    [undefined]): [hex.replace] on an absent value throws a TypeError,
    and [lighten], [darken] and [mix] call [hexToRgb] on their colours
    before anything else. *)
Definition hexToRgbArg (hex : option string) : Completion (option RGB) :=
  match hex with
  | Some s => Return (hexToRgb s)
  | None =>
      Throw "TypeError: Cannot read properties of undefined (reading 'replace')"
  end.

Definition lightenArg (color : option string) (amountArg : option float)
  : Completion (option string) :=
  let amount := orDefault 0.15 amountArg in
  bindC (hexToRgbArg color) (fun parsed =>
    match parsed with
    | None => Return color
    | Some rgb =>
        Return (Some (rgbToHex {| r := r rgb + (255 - r rgb) * amount;
                                  g := g rgb + (255 - g rgb) * amount;
                                  b := b rgb + (255 - b rgb) * amount |}))
    end).

Definition darkenArg (color : option string) (amountArg : option float)
  : Completion (option string) :=
  let amount := orDefault 0.15 amountArg in
  bindC (hexToRgbArg color) (fun parsed =>
    match parsed with
    | None => Return color
    | Some rgb =>
        Return (Some (rgbToHex {| r := r rgb * (1 - amount);
                                  g := g rgb * (1 - amount);
                                  b := b rgb * (1 - amount) |}))
    end).

Definition mixArg (colorA colorB : option string) (ratioArg : option float)
  : Completion (option string) :=
  let ratio := orDefault 0.5 ratioArg in
  bindC (hexToRgbArg colorA) (fun parsedA =>
  bindC (hexToRgbArg colorB) (fun parsedB =>
    match parsedA, parsedB with
    | Some a, Some b' =>
        let t := Math_max 0 (Math_min 1 ratio) in
        Return (Some (rgbToHex {| r := r a * (1 - t) + r b' * t;
                                  g := g a * (1 - t) + g b' * t;
                                  b := b a * (1 - t) + b b' * t |}))
    | _, _ => Return (orElse colorA colorB)
    end)).

Definition getLuma (c : RGB) : float :=
  0.2126 * r c + 0.7152 * g c + 0.0722 * b c.

Definition getSaturation (c : RGB) : float :=
  let max := Math_max (Math_max (r c) (g c)) (b c) in
  let min := Math_min (Math_min (r c) (g c)) (b c) in
  if max =? 0 then 0 else (max - min) / max.

(** Bucket color into coarse space. *)
Definition quantize (c : RGB) (stepArg : option float) : RGB :=
  let step := orDefault 32 stepArg in
  let q := fun v => Math_floor (v / step) * step + step / 2 in
  {| r := q (r c); g := q (g c); b := q (b c) |}.

Definition colorDistance (a b' : RGB) : float :=
  let dr := r a - r b' in
  let dg := g a - g b' in
  let db := b a - b b' in
  Math_sqrt (dr * dr + dg * dg + db * db).

(** *** Sampling an image *)

(** One RGBA pixel of an [ImageData] buffer: four bytes. *)
Record Pixel : Type :=
  mkPixel { red : byte; green : byte; blue : byte; alpha : byte }.

(** A loaded image: its size, and what the canvas returns once the image
    is drawn at [w] by [h]: the pixel buffer, or the exception that
    drawing or reading raises (a tainted canvas, no 2d context). *)
Record Image : Type :=
  mkImage { width : float; height : float;
            getImageData : float -> float -> Completion (list Pixel) }.

Definition byteNumber (x : byte) : float := ofZ (Z.of_N (Byte.to_N x)).

Definition MAX_PIXELS : float := 20000.

(** The histogram [buckets]: a [Map] in insertion order.  A key
    [`${q.r}|${q.g}|${q.b}`] is kept as the three numbers it spells. *)
Definition rgbEqb (x y : RGB) : bool :=
  (r x =? r y) && (g x =? g y) && (b x =? b y).

Fixpoint bucketsGet (key : RGB) (m : list (RGB * nat)) : option nat :=
  match m with
  | [] => None
  | (k, n) :: m' => if rgbEqb k key then Some n else bucketsGet key m'
  end.

Fixpoint bucketsSet (key : RGB) (n : nat) (m : list (RGB * nat))
  : list (RGB * nat) :=
  match m with
  | [] => [(key, n)]
  | (k, n') :: m' =>
      if rgbEqb k key then (k, n) :: m' else (k, n') :: bucketsSet key n m'
  end.

(** The body of the pixel loop. *)
Definition countPixel (buckets : list (RGB * nat)) (px : Pixel)
  : list (RGB * nat) :=
  let c := {| r := byteNumber (red px); g := byteNumber (green px);
              b := byteNumber (blue px) |} in
  let a := byteNumber (alpha px) in
  if a <? 200 then buckets
  else if getSaturation c <? 0.15 then buckets
  else
    let luma := getLuma c in
    if (luma <? 20) || (235 <? luma) then buckets
    else
      let q := quantize c None in
      bucketsSet q (S (orDefault O (bucketsGet q buckets))) buckets.

(** [sort((a, b) => b[1] - a[1])]: descending by count and stable. *)
Fixpoint insertByCount (x : RGB * nat) (l : list (RGB * nat))
  : list (RGB * nat) :=
  match l with
  | [] => [x]
  | y :: l' =>
      if (snd x <? snd y)%nat then y :: insertByCount x l' else x :: l
  end.

Definition sortByCount (l : list (RGB * nat)) : list (RGB * nat) :=
  fold_right insertByCount [] l.

(** Sample image pixels and rank dominant colors. *)
Definition sampleImageColors (img : Image) : Completion (list RGB) :=
  let ratio :=
    Math_sqrt (Math_min 1 (MAX_PIXELS / (width img * height img))) in
  let w := Math_max 1 (Math_floor (width img * ratio)) in
  let h := Math_max 1 (Math_floor (height img * ratio)) in
  bindC (getImageData img w h) (fun data =>
    let buckets := fold_left countPixel data [] in
    Return (take 6 (List.map fst (sortByCount buckets)))).

(** *** Extraction with its cache *)

Record FlagPaletteResult : Type :=
  mkResult { primary : string; secondary : option string }.

(** The module state: [flagColorCache], and the sources handed to
    [loadImage] so far (latest first). *)
Record Store : Type :=
  mkStore { flagColorCache : gmap string FlagPaletteResult;
            imageRequests : list string }.

Definition emptyStore : Store :=
  {| flagColorCache := ∅; imageRequests := [] |}.

Definition cacheSet (url : string) (res : FlagPaletteResult) (st : Store)
  : Store :=
  {| flagColorCache := <[url := res]> (flagColorCache st);
     imageRequests := imageRequests st |}.

Definition requestImage (url : string) (st : Store) : Store :=
  {| flagColorCache := flagColorCache st;
     imageRequests := url :: imageRequests st |}.

(** The colours chosen from a ranking: [primary] and [secondary]. *)
Definition choosePrimary (colors : list RGB) (fallbackColor : string) : RGB :=
  match colors with
  | c :: _ => c
  | [] => orDefault {| r := 136; g := 136; b := 136 |}
            (hexToRgb fallbackColor)
  end.

Definition chooseSecondary (colors : list RGB) (primaryColor : RGB)
  : option RGB :=
  List.find (fun c => 40 <? colorDistance c primaryColor) colors.

(** What a call of [extractFlagColors] has done when it returns before
    its [await] or reaches it: it has returned a result, or it has asked
    the host for the image and waits for it. *)
Inductive Started : Type :=
| ReturnedAtOnce (result : FlagPaletteResult)
| Awaiting (url fallbackColor : string).

(** The call up to [await loadImage(flagUrl)]: the test of the reference,
    the test of the cache, and the request for the image. *)
Definition extractBegin (flagUrl : option string) (fallbackArg : option string)
    (st : Store) : Started * Store :=
  let fallbackColor := orDefault "#888888"%string fallbackArg in
  match flagUrl with
  | None =>
      (ReturnedAtOnce {| primary := fallbackColor; secondary := None |}, st)
  | Some url =>
      if negb (truthy url)
      then (ReturnedAtOnce {| primary := fallbackColor; secondary := None |},
            st)
      else
        match flagColorCache st !! url with
        | Some cached => (ReturnedAtOnce cached, st)
        | None => (Awaiting url fallbackColor, requestImage url st)
        end
  end.

(** The call from its [await] on.  [loaded] is what the [await] gives,
    the image or the rejection, and [st] is the module state at that
    time: other calls may have run since the call began. *)
Definition extractResume (url fallbackColor : string)
    (loaded : Completion Image) (st : Store)
  : Completion FlagPaletteResult * Store :=
  let attempt :=
    tryCatch
      (bindC loaded (fun img =>
       bindC (sampleImageColors img) (fun colors =>
         let primaryColor := choosePrimary colors fallbackColor in
         let secondaryColor := chooseSecondary colors primaryColor in
         let result :=
           {| primary := rgbToHex primaryColor;
              secondary := option_map rgbToHex secondaryColor |}
         in Return (result, cacheSet url result st))))
      (fun err =>
         let result := {| primary := fallbackColor; secondary := None |} in
         Return (result, cacheSet url result st))
  in
  match attempt with
  | Return (result, st2) => (Return result, st2)
  | Throw err => (Throw err, st)
  end.

(** Main extraction function, for a call during whose [await] no other
    call runs: the call is taken from its start to its end, and
    [loadImage] is the host, what loading a source gives.  Calls that
    overlap are the steps of [extractStep] below. *)
Definition extractFlagColors (loadImage : string -> Completion Image)
    (flagUrl : option string) (fallbackArg : option string) (st : Store)
  : Completion FlagPaletteResult * Store :=
  match extractBegin flagUrl fallbackArg st with
  | (ReturnedAtOnce result, st') => (Return result, st')
  | (Awaiting url fallbackColor, st1) =>
      extractResume url fallbackColor (loadImage url) st1
  end.

(** Calls of [extractFlagColors] that overlap.  A call waits for its
    image or has settled its promise; the module state is shared. *)
Inductive ExtractTask : Type :=
| AwaitingImage (url fallbackColor : string)
| Finished (outcome : Completion FlagPaletteResult).

Record ExtractWorld : Type :=
  mkExtractWorld { store : Store;
                   extractTasks : list ExtractTask }. (* one per call *)

Definition initialExtractWorld : ExtractWorld :=
  {| store := emptyStore; extractTasks := [] |}.

Inductive ExtractEvent : Type :=
| CallExtract (flagUrl : option string) (fallbackArg : option string)
| ImageSettled (task : nat) (loaded : Completion Image).

(** One turn of the event loop: a call runs up to its [await], or the
    image of a waiting call arrives (or fails) and the call runs to its
    end. *)
Definition extractStep (w : ExtractWorld) (e : ExtractEvent) : ExtractWorld :=
  match e with
  | CallExtract flagUrl fallbackArg =>
      match extractBegin flagUrl fallbackArg (store w) with
      | (ReturnedAtOnce result, st) =>
          {| store := st;
             extractTasks := extractTasks w ++ [Finished (Return result)] |}
      | (Awaiting url fallbackColor, st) =>
          {| store := st;
             extractTasks :=
               extractTasks w ++ [AwaitingImage url fallbackColor] |}
      end
  | ImageSettled i loaded =>
      match extractTasks w !! i with
      | Some (AwaitingImage url fallbackColor) =>
          let '(outcome, st) :=
            extractResume url fallbackColor loaded (store w) in
          {| store := st;
             extractTasks := <[i := Finished outcome]> (extractTasks w) |}
      | _ => w
      end
  end.

Definition extractRun (w : ExtractWorld) (events : list ExtractEvent)
  : ExtractWorld :=
  fold_left extractStep events w.

(** *** The display palette *)

Record Flags : Type := mkFlags { svg : option string; png : option string }.

Record CountryRef : Type :=
  mkCountryRef { region : option string; flag : option string;
                 flagUrl : option string; flags : option Flags }.

Record Options : Type :=
  mkOptions { baseColor : option string; fallbackAccent : option string }.

Record Palette : Type :=
  mkPalette { base : string; accent : string; accentLight : string;
              accentDark : string; muted : string;
              paletteSecondary : option string }.

(** What [baseColor] holds: a string, or the member of
    [Object.prototype] that the continent table inherits under the name
    of the region. *)
Inductive BaseColor : Type :=
| ColorString (s : string)
| InheritedMember (key : string).

(** [CONTINENT_BASE_COLORS[country?.region] || CONTINENT_BASE_COLORS.default].
    The table is read at its own keys first and then at the names it
    inherits; an inherited member is truthy. *)
Definition continentBase (country : option CountryRef) : BaseColor :=
  let key := orDefault "undefined"%string (country ≫= region) in
  let default :=
    ColorString
      (orDefault "#B1C4BB"%string (tableGet "default" CONTINENT_BASE_COLORS)) in
  match tableGet key CONTINENT_BASE_COLORS with
  | Some v => if truthy v then ColorString v else default
  | None => if isPrototypeKey key then InheritedMember key else default
  end.

(** Build a full palette for a country.  The palette object is built
    after the extraction has returned; [mix] is the only step of it that
    reads [baseColor]. *)
Definition getCountryPalette (loadImage : string -> Completion Image)
    (country : option CountryRef) (options : Options) (st : Store)
  : Completion Palette * Store :=
  let baseColor :=
    match baseColor options with
    | Some chosen => ColorString chosen
    | None => continentBase country
    end in
  let fallbackAccent := orDefault "#C77442"%string (fallbackAccent options) in
  let url :=
    orElse (orElse (orElse (country ≫= flag) (country ≫= flagUrl))
                   ((country ≫= flags) ≫= svg))
           ((country ≫= flags) ≫= png) in
  match extractFlagColors loadImage url (Some fallbackAccent) st with
  | (Throw err, st') => (Throw err, st')
  | (Return res, st') =>
      let accent := if truthy (primary res) then primary res
                    else fallbackAccent in
      match baseColor with
      | ColorString baseString =>
          (Return {| base := baseString;
                     accent := accent;
                     accentLight := lighten accent (Some 0.18);
                     accentDark := darken accent (Some 0.18);
                     muted := mix baseString accent (Some 0.35);
                     paletteSecondary := secondary res |}, st')
      | InheritedMember _ =>
          (* [mix(baseColor, accent, 0.35)] calls [baseColor.replace] *)
          (Throw "TypeError: hex.replace is not a function"%string, st')
      end
  end.

End ColorUtils.


(** ** The country name matcher ([populationFormatter.js]) *)

Module CountryMatcher.

Import JsString.
Local Open Scope string_scope.

(** Common country name mappings for mismatches.  The character U+00F4
    of two names is the code unit 244. *)
Definition Cote_d_Ivoire : string := String "C" (String "244" "te d'Ivoire").

Definition COUNTRY_NAME_MAP : list (string * string) :=
  [ ("United States", "United States of America");
    ("United States of America", "United States of America");
    ("USA", "United States of America");
    ("US", "United States of America");
    ("Russia", "Russian Federation");
    ("Russian Federation", "Russian Federation");
    ("UK", "United Kingdom");
    ("United Kingdom", "United Kingdom");
    ("Great Britain", "United Kingdom");
    ("South Korea", "Korea, Republic of");
    ("North Korea", "Korea, Democratic People's Republic of");
    ("Czech Republic", "Czechia");
    ("Czechia", "Czechia");
    ("Myanmar", "Myanmar");
    ("Burma", "Myanmar");
    ("Ivory Coast", Cote_d_Ivoire);
    (Cote_d_Ivoire, Cote_d_Ivoire);
    ("East Timor", "Timor-Leste");
    ("Timor-Leste", "Timor-Leste");
    ("Macedonia", "North Macedonia");
    ("North Macedonia", "North Macedonia");
    ("Swaziland", "Eswatini");
    ("Eswatini", "Eswatini") ].

(** Normalize country name for matching. *)
Definition normalizeName (name : option string) : string :=
  match name with
  | None => ""
  | Some s =>
      if negb (truthy s) then ""
      else collapseWhiteSpace
             (removeNonWordNonSpace (trim (toLowerCase s)))
  end.

Record Name : Type := mkName { common : string; official : string }.

(** A record of the reference set.  [altSpellings] is absent unless the
    request asks for the field. *)
Record Country : Type :=
  mkCountry { name : Name; altSpellings : option (list string);
              cca3 : string }.

(** [a.find(p) ; if (m) return m] chained: the first strategy with a
    match decides. *)
Definition orFind (found : option Country) (next : option Country)
  : option Country :=
  match found with Some c => Some c | None => next end.

(** Find matching country in API data. *)
Definition matchCountryName (geoJsonName : string)
    (apiCountries : list Country) : option Country :=
  if negb (truthy geoJsonName) || Nat.eqb (List.length apiCountries) 0
  then None
  else
    (* First, try direct mapping *)
    let directMatch :=
      match tableGet geoJsonName COUNTRY_NAME_MAP with
      | Some mappedName =>
          if truthy mappedName
          then List.find (fun country =>
                 String.eqb (common (name country)) mappedName
                 || String.eqb (official (name country)) mappedName)
                 apiCountries
          else None
      | None => None
      end in
    (* Try exact match (case-insensitive) *)
    let exactMatch :=
      List.find (fun country =>
        String.eqb (toLowerCase (common (name country)))
                   (toLowerCase geoJsonName)
        || String.eqb (toLowerCase (official (name country)))
                      (toLowerCase geoJsonName)) apiCountries in
    (* Try normalized match *)
    let normalizedGeoName := normalizeName (Some geoJsonName) in
    let normalizedMatch :=
      List.find (fun country =>
        let normalizedCommon := normalizeName (Some (common (name country))) in
        let normalizedOfficial :=
          normalizeName (Some (official (name country))) in
        String.eqb normalizedCommon normalizedGeoName
        || String.eqb normalizedOfficial normalizedGeoName) apiCountries in
    (* Try partial match (GeoJSON name contains API name or vice versa) *)
    let partialMatch :=
      List.find (fun country =>
        let commonName := toLowerCase (common (name country)) in
        let officialName := toLowerCase (official (name country)) in
        let geoName := toLowerCase geoJsonName in
        includes commonName geoName || includes geoName commonName
        || includes officialName geoName || includes geoName officialName)
        apiCountries in
    (* Try matching with alternative names *)
    let altNameMatch :=
      List.find (fun country =>
        match altSpellings country with
        | None => false
        | Some alts =>
            existsb (fun alt =>
              String.eqb (normalizeName (Some alt)) normalizedGeoName) alts
        end) apiCountries in
    orFind directMatch
      (orFind exactMatch
         (orFind normalizedMatch (orFind partialMatch altNameMatch))).

End CountryMatcher.


(** ** The reference-set loader ([fetchCountryData]) *)

Module CountryLoader.

Import CountryMatcher.

(** Module state: the cached reference set and the time it was stored. *)
Record Cache : Type :=
  mkCache { allCountriesCache : option (list Country);
            cacheTimestamp : option Z }.

Definition CACHE_DURATION : Z := 1000 * 60 * 30.
Definition maxRetries : nat := 3.

(** [allCountriesCache && cacheTimestamp &&
     (now - cacheTimestamp) < CACHE_DURATION].  An array is truthy even
    when empty; a time stamp is falsy when it is 0. *)
Definition cacheIsFresh (c : Cache) (now : Z) : bool :=
  match allCountriesCache c, cacheTimestamp c with
  | Some _, Some t => negb (t =? 0) && (now - t <? CACHE_DURATION)
  | _, _ => false
  end.

(** How one network request ends: [fetch] rejects, the response is not
    [ok], reading the body fails, or the body is the reference set. *)
Inductive FetchOutcome : Type :=
| NetworkError (message : string)
| HttpError (status statusText : string)
| BodyError (message : string)
| Body (allCountries : list Country).

(** The error an attempt throws, if it does. *)
Definition attemptError (o : FetchOutcome) : option string :=
  match o with
  | NetworkError m => Some m
  | HttpError status statusText =>
      Some (String.append "HTTP "
              (String.append status (String.append ": " statusText)))
  | BodyError m => Some m
  | Body _ => None
  end.

(** A call of the [async] function is suspended while its request is
    under way (the [await]s of [fetch] and of [response.json()], taken
    together) or while its back-off timer runs, or it has settled its
    promise: [Return v] is fulfilment with [v], [Throw e] is rejection. *)
Inductive Task : Type :=
| AwaitingFetch (countryName : string) (attempt : nat)
| AwaitingTimer (countryName : string) (attempt : nat) (lastError : string)
                (delay : Z)
| Settled (outcome : Completion (option Country)).

Record World : Type :=
  mkWorld { cache : Cache;
            fetchCount : nat;      (* network requests issued so far *)
            tasks : list Task }.   (* one entry per call, in call order *)

Definition initialWorld : World :=
  {| cache := {| allCountriesCache := None; cacheTimestamp := None |};
     fetchCount := 0; tasks := [] |}.

(** The outer [catch]: the error is logged and [null] is returned. *)
Definition outerCatch (c : Completion (option Country))
  : Completion (option Country) :=
  tryCatch c (fun error => Return None).

(** The head of the retry loop, entered with the attempt number: another
    request goes out, or the loop is over and [lastError] is thrown into
    the outer [catch]. *)
Definition loopHead (countryName : string) (attempt : nat)
    (lastError : option string) (w : World) : Task * World :=
  if (attempt <? maxRetries)%nat
  then (AwaitingFetch countryName attempt,
        {| cache := cache w; fetchCount := S (fetchCount w);
           tasks := tasks w |})
  else (Settled (outerCatch (Throw (orDefault "undefined"%string lastError))),
        w).

Definition setTask (i : nat) (t : Task) (w : World) : World :=
  {| cache := cache w; fetchCount := fetchCount w;
     tasks := <[i := t]> (tasks w) |}.

Inductive Event : Type :=
| Call (countryName : string) (now : Z)
| FetchSettled (task : nat) (outcome : FetchOutcome) (now : Z)
| TimerFired (task : nat).

(** One turn of the event loop. *)
Definition step (w : World) (e : Event) : World :=
  match e with
  | Call countryName now =>
      if cacheIsFresh (cache w) now
      then
        let matchedCountry :=
          matchCountryName countryName
            (orDefault [] (allCountriesCache (cache w))) in
        {| cache := cache w; fetchCount := fetchCount w;
           tasks := tasks w ++ [Settled (outerCatch (Return matchedCountry))] |}
      else
        let '(t, w') := loopHead countryName 0 None w in
        {| cache := cache w'; fetchCount := fetchCount w';
           tasks := tasks w' ++ [t] |}
  | FetchSettled i outcome now =>
      match tasks w !! i with
      | Some (AwaitingFetch countryName attempt) =>
          match outcome with
          | Body allCountries =>
              let matchedCountry :=
                matchCountryName countryName allCountries in
              setTask i (Settled (outerCatch (Return matchedCountry)))
                {| cache := {| allCountriesCache := Some allCountries;
                               cacheTimestamp := Some now |};
                   fetchCount := fetchCount w; tasks := tasks w |}
          | failure =>
              let lastError := attemptError failure in
              if (attempt <? maxRetries - 1)%nat
              then setTask i
                     (AwaitingTimer countryName attempt
                        (orDefault "undefined"%string lastError)
                        (2 ^ Z.of_nat attempt * 1000)) w
              else
                let '(t, w') :=
                  loopHead countryName (S attempt) lastError w in
                setTask i t w'
          end
      | _ => w
      end
  | TimerFired i =>
      match tasks w !! i with
      | Some (AwaitingTimer countryName attempt lastError _) =>
          let '(t, w') :=
            loopHead countryName (S attempt) (Some lastError) w in
          setTask i t w'
      | _ => w
      end
  end.

Definition run (w : World) (events : list Event) : World :=
  fold_left step events w.

End CountryLoader.


(** ** Feature colouring and enrichment ([GlobeView.jsx]) *)

Module GlobeView.

Import JsString.
Local Open Scope string_scope.
Local Open Scope nat_scope.

Definition COUNTRY_COLORS : list string :=
  [ "#FF6B6B"; "#4ECDC4"; "#45B7D1"; "#FFA07A"; "#98D8C8"; "#F7DC6F";
    "#BB8FCE"; "#85C1E2"; "#F8B88B"; "#52C9BA"; "#3498DB"; "#E74C3C";
    "#1ABC9C"; "#F39C12"; "#9B59B6"; "#E91E63"; "#00BCD4"; "#4CAF50";
    "#FF5722"; "#673AB7"; "#00E676"; "#FF1744"; "#00B0FF"; "#76FF03";
    "#FFB300"; "#00E5FF"; "#FF6E40"; "#AB47BC"; "#26A69A"; "#FFEB3B" ].

(** Earth-toned bases per continent for initial land coloring. *)
Definition CONTINENT_BASE_COLORS : list (string * string) :=
  [ ("Africa", "#79B957"); ("Americas", "#32A189"); ("Asia", "#F4CE29");
    ("Europe", "#8BBED8"); ("Oceania", "#C77442"); ("Antarctic", "#7C94A4");
    ("default", "#B1C4BB") ].

Definition getCountryColor (index : nat) : option string :=
  COUNTRY_COLORS !! (index mod List.length COUNTRY_COLORS).

(** The properties of a boundary feature that the code reads. *)
Record Properties : Type :=
  mkProperties { CONTINENT : option string; continent : option string;
                 REGION_UN : option string; region_un : option string;
                 REGION : option string; region : option string;
                 ISO_A3 : option string; ADM0_A3 : option string;
                 iso_a3 : option string }.

Record Feature : Type :=
  mkFeature { id : option string; properties : Properties;
              color : option string; baseColor : option string }.

Definition setColor (c : option string) (f : Feature) : Feature :=
  {| id := id f; properties := properties f; color := c;
     baseColor := baseColor f |}.

(** [CONTINENT_BASE_COLORS[continent] || CONTINENT_BASE_COLORS.default],
    with the table read at its own keys.  A continent that is the name
    of a member of [Object.prototype] is not covered: there the code
    reads the inherited member, see [isPrototypeKey]. *)
Definition getBaseColorForFeature (props : Properties) : option string :=
  let continent :=
    orElse (orElse (orElse (orElse (orElse (CONTINENT props)
      (continent props)) (REGION_UN props)) (region_un props))
      (REGION props)) (region props) in
  orElse (tableGet (orDefault "undefined" continent) CONTINENT_BASE_COLORS)
         (tableGet "default" CONTINENT_BASE_COLORS).

(** The body of [countries.features.forEach((feature, index) => ...)]. *)
Definition initFeature (index : nat) (feature : Feature) : Feature :=
  let baseColor :=
    orElse (getBaseColorForFeature (properties feature))
           (getCountryColor index) in
  {| id := id feature; properties := properties feature;
     color := baseColor; baseColor := baseColor |}.

Definition initFeatures (features : list Feature) : list Feature :=
  imap initFeature features.

(** An entry of the flag lookup, keyed by upper-cased ISO3 code. *)
Record Lookup : Type :=
  mkLookup { lookupRegion : option string;
             lookupFlags : option ColorUtils.Flags }.

Definition concurrency : nat := 6.

Section Enrichment.

Variable flagMap : gmap string Lookup.

(** What the awaited [getCountryPalette(countryObj, options)] of the
    feature at a position settles to: a palette, or an exception. *)
Variable getCountryPalette :
  nat -> ColorUtils.CountryRef -> ColorUtils.Options
  -> Completion ColorUtils.Palette.

Definition iso3Of (feature : Feature) : option string :=
  orElse (orElse (orElse (id feature) (ISO_A3 (properties feature)))
                 (ADM0_A3 (properties feature)))
         (iso_a3 (properties feature)).

Definition countryObjOf (lookup : Lookup) : ColorUtils.CountryRef :=
  {| ColorUtils.region := lookupRegion lookup;
     ColorUtils.flag := None; ColorUtils.flagUrl := None;
     ColorUtils.flags := lookupFlags lookup |}.

Definition optionsOf (feature : Feature) : ColorUtils.Options :=
  {| ColorUtils.baseColor := baseColor feature;
     ColorUtils.fallbackAccent := None |}.

(** The unit of work of one feature: the callback of [slice.map]. *)
Definition enrichFeature (i : nat) (feature : Feature) : Feature :=
  let iso3 := iso3Of feature in
  if negb (truthyOpt iso3) then feature
  else
    match flagMap !! toUpperCase (orDefault "" iso3) with
    | None => feature
    | Some lookup =>
        match getCountryPalette i (countryObjOf lookup)
                (optionsOf feature) with
        | Return palette =>
            setColor (orElse (Some (ColorUtils.accent palette))
                             (baseColor feature)) feature
        | Throw err => setColor (baseColor feature) feature
        end
    end.

(** The unit of the feature at position [i] settles: the feature
    object, shared with the array, gets its colour. *)
Definition settle (features : list Feature) (i : nat) : list Feature :=
  match features !! i with
  | Some feature => <[i := enrichFeature i feature]> features
  | None => features
  end.

(** [await Promise.all(slice.map(...))] for the slice [start, end).
    Each unit writes the one feature it owns, so the order in which
    the units settle is not observable; they are taken in index
    order. *)
Definition processSlice (features : list Feature) (start stop : nat)
  : list Feature :=
  fold_left settle (seq start (stop - start)) features.

(** The state of the enrichment: the feature array, the [index] of the
    next slice and the colour sets published so far. *)
Record Run : Type :=
  mkRun { features : list Feature; index : nat;
          published : list (list (option string)) }.

(** One call of [processNext], up to the test that schedules the
    next. *)
Definition processBatch (st : Run) : Run :=
  let start := index st in
  let stop := Nat.min (List.length (features st)) (start + concurrency) in
  let features' := processSlice (features st) start stop in
  {| features := features'; index := stop;
     published := published st ++ [List.map color features'] |}.

Definition remaining (st : Run) : nat :=
  List.length (features st) - index st.

(** [processNext]: a batch, then [setTimeout(processNext, 0)] while
    features remain. *)
Equations processNext (st : Run) : Run by wf (remaining st) lt :=
  processNext st
    with lt_dec (index (processBatch st))
                (List.length (features (processBatch st))) := {
    | left more => processNext (processBatch st)
    | right finished => processBatch st
  }.
Next Obligation.
  revert more. unfold remaining, processBatch, processSlice, concurrency.
  simpl.
  assert (Hlen : forall l fs,
             List.length (fold_left settle l fs) = List.length fs).
  { induction l as [|i l IH]; intros fs; simpl; [done|].
    rewrite IH. unfold settle.
    destruct (fs !! i); [apply length_insert | done]. }
  rewrite Hlen. lia.
Qed.

Definition enrich (features : list Feature) : Run :=
  processNext {| features := features; index := 0; published := [] |}.

End Enrichment.

End GlobeView.

(** ** The capital service ([CapitalService.js]) *)

Module CapitalService.

Import JsString.
Local Open Scope string_scope.

(** A record of the capitals request: the fields the service reads.  An
    entry of [capital] may be [null]. *)
Record CapitalRecord : Type :=
  mkCapitalRecord { cca2 : option string;
                    capital : option (list (option string)) }.

(** [a.join(sep)]. *)
Fixpoint join (sep : string) (l : list string) : string :=
  match l with
  | [] => ""
  | [x] => x
  | x :: l' => String.append x (String.append sep (join sep l'))
  end.

(** [capitalArray.filter(cap => cap && cap.trim())]: the entries kept are
    strings, which is how they are listed. *)
Fixpoint validCapitals (capitalArray : list (option string)) : list string :=
  match capitalArray with
  | [] => []
  | Some cap :: rest =>
      if truthy cap && truthy (trim cap) then cap :: validCapitals rest
      else validCapitals rest
  | None :: rest => validCapitals rest
  end.

(** Normalize capital data from API response. *)
Definition normalizeCapital (capitalArray : option (list (option string)))
  : string :=
  match capitalArray with
  | None => "N/A"
  | Some arr =>
      if Nat.eqb (List.length arr) 0 then "N/A"
      else
        let valid := validCapitals arr in
        if Nat.eqb (List.length valid) 0 then "N/A"
        else join ", " valid
  end.

(** How the one request of a load ends. *)
Inductive LoadOutcome : Type :=
| LoadFailure (message : string)
| LoadBody (countries : list CapitalRecord).

(** The promise of a load: pending, or settled. *)
Inductive LoadState : Type :=
| Pending
| Fulfilled
| Rejected (error : string).

(** What a call of [loadCapitalData] hands to its caller: the cache at
    once, or the promise of a load. *)
Inductive Handle : Type :=
| FromCache
| FromLoad (load : nat).

Record State : Type :=
  mkState { capitalCache : gmap string string;
            isLoaded : bool;
            loadPromise : option nat;
            loads : list LoadState;   (* one promise per load started *)
            fetchCount : nat;         (* network requests issued so far *)
            handles : list Handle }.  (* one entry per call, in call order *)

Definition initialState : State :=
  {| capitalCache := ∅; isLoaded := false; loadPromise := None;
     loads := []; fetchCount := 0; handles := [] |}.

(** The body of [countries.forEach(country => ...)]. *)
Definition cacheCountry (cache : gmap string string) (country : CapitalRecord)
  : gmap string string :=
  match cca2 country with
  | Some code =>
      if truthy code
      then <[toUpperCase code := normalizeCapital (capital country)]> cache
      else cache
  | None => cache
  end.

Definition populate (countries : list CapitalRecord)
    (cache : gmap string string) : gmap string string :=
  fold_left cacheCountry countries cache.

Inductive Event : Type :=
| CallLoad
| FetchSettled (load : nat) (outcome : LoadOutcome).

(** One turn of the event loop: a call of [loadCapitalData], or the end
    of the request of a load. *)
Definition step (st : State) (e : Event) : State :=
  match e with
  | CallLoad =>
      if isLoaded st
      then {| capitalCache := capitalCache st; isLoaded := isLoaded st;
              loadPromise := loadPromise st; loads := loads st;
              fetchCount := fetchCount st;
              handles := handles st ++ [FromCache] |}
      else
        match loadPromise st with
        | Some p =>
            {| capitalCache := capitalCache st; isLoaded := isLoaded st;
               loadPromise := loadPromise st; loads := loads st;
               fetchCount := fetchCount st;
               handles := handles st ++ [FromLoad p] |}
        | None =>
            let p := List.length (loads st) in
            {| capitalCache := capitalCache st; isLoaded := isLoaded st;
               loadPromise := Some p; loads := loads st ++ [Pending];
               fetchCount := S (fetchCount st);
               handles := handles st ++ [FromLoad p] |}
        end
  | FetchSettled p outcome =>
      match loads st !! p with
      | Some Pending =>
          match outcome with
          | LoadBody countries =>
              {| capitalCache := populate countries (capitalCache st);
                 isLoaded := true;
                 loadPromise := loadPromise st;
                 loads := <[p := Fulfilled]> (loads st);
                 fetchCount := fetchCount st; handles := handles st |}
          | LoadFailure message =>
              (* Don't mark as loaded so it can retry later *)
              {| capitalCache := capitalCache st; isLoaded := isLoaded st;
                 loadPromise := None;
                 loads := <[p := Rejected message]> (loads st);
                 fetchCount := fetchCount st; handles := handles st |}
          end
      | _ => st
      end
  end.

Definition run (st : State) (events : list Event) : State :=
  fold_left step events st.

(** Get capital for a specific country. *)
Definition getCapital (st : State) (cca2Code : option string) : string :=
  match cca2Code with
  | None => "Unknown"
  | Some c =>
      if negb (truthy c) then "Unknown"
      else
        match capitalCache st !! toUpperCase c with
        | Some capitalName => capitalName
        | None => "Unknown"
        end
  end.

Definition isCapitalDataLoaded (st : State) : bool := isLoaded st.

(** [getCapitalCacheStats]: [isLoaded], [cacheSize], [hasPendingLoad]. *)
Definition getCapitalCacheStats (st : State) : bool * nat * bool :=
  (isLoaded st, size (capitalCache st),
   match loadPromise st with Some _ => true | None => false end).

End CapitalService.

(** ** The flag lookup of the globe ([loadFlagLookup] in [GlobeView.jsx]) *)

Module FlagLookup.

Import JsString GlobeView.

(** A record of the flags request. *)
Record FlagRecord : Type :=
  mkFlagRecord { cca3 : option string; recordRegion : option string;
                 recordFlags : option ColorUtils.Flags }.

(** The body of [data.forEach(entry => ...)]. *)
Definition setEntry (map : gmap string Lookup) (entry : FlagRecord)
  : gmap string Lookup :=
  match cca3 entry with
  | Some code =>
      if truthy code
      then <[toUpperCase code :=
               {| lookupRegion := recordRegion entry;
                  lookupFlags := recordFlags entry |}]> map
      else map
  | None => map
  end.

Definition buildMap (data : list FlagRecord) : gmap string Lookup :=
  fold_left setEntry data ∅.

Inductive FlagOutcome : Type :=
| FlagFailure (message : string)
| FlagBody (data : list FlagRecord).

(** A call is waiting for its request or has returned a map. *)
Inductive FlagTask : Type :=
| AwaitingFlags
| Returned (map : gmap string Lookup).

Record FlagWorld : Type :=
  mkFlagWorld { flagLookupCache : option (gmap string Lookup);
                flagFetchCount : nat;
                flagTasks : list FlagTask }.

Definition initialFlagWorld : FlagWorld :=
  {| flagLookupCache := None; flagFetchCount := 0; flagTasks := [] |}.

Inductive FlagEvent : Type :=
| CallFlags
| FlagsSettled (task : nat) (outcome : FlagOutcome).

(** One turn of the event loop.  A failure is caught and an empty map is
    cached in place of the lookup. *)
Definition flagStep (w : FlagWorld) (e : FlagEvent) : FlagWorld :=
  match e with
  | CallFlags =>
      match flagLookupCache w with
      | Some map =>
          {| flagLookupCache := flagLookupCache w;
             flagFetchCount := flagFetchCount w;
             flagTasks := flagTasks w ++ [Returned map] |}
      | None =>
          {| flagLookupCache := None;
             flagFetchCount := S (flagFetchCount w);
             flagTasks := flagTasks w ++ [AwaitingFlags] |}
      end
  | FlagsSettled i outcome =>
      match flagTasks w !! i with
      | Some AwaitingFlags =>
          let map :=
            match outcome with
            | FlagBody data => buildMap data
            | FlagFailure _ => ∅
            end in
          {| flagLookupCache := Some map;
             flagFetchCount := flagFetchCount w;
             flagTasks := <[i := Returned map]> (flagTasks w) |}
      | _ => w
      end
  end.

Definition flagRun (w : FlagWorld) (events : list FlagEvent) : FlagWorld :=
  fold_left flagStep events w.

End FlagLookup.

(** * Properties *)

(** ** Colour strings that do not parse *)

Section UnparsableColors.

Import JsString ColorUtils.

Lemma lighten_unparsable color amount :
  hexToRgb color = None -> lighten color amount = color.
Proof. intros H. unfold lighten. by rewrite H. Qed.

Lemma darken_unparsable color amount :
  hexToRgb color = None -> darken color amount = color.
Proof. intros H. unfold darken. by rewrite H. Qed.

Lemma mix_unparsable colorA colorB ratio :
  hexToRgb colorA = None \/ hexToRgb colorB = None ->
  mix colorA colorB ratio = if truthy colorA then colorA else colorB.
Proof.
  intros [H|H]; unfold mix; rewrite H; [done|].
  by destruct (hexToRgb colorA).
Qed.

(** On strings the functions with arguments that may be absent are the
    functions on strings. *)
Lemma lightenArg_string color amount :
  lightenArg (Some color) amount = Return (Some (lighten color amount)).
Proof.
  unfold lightenArg, lighten. cbn [hexToRgbArg bindC].
  by destruct (hexToRgb color).
Qed.

Lemma darkenArg_string color amount :
  darkenArg (Some color) amount = Return (Some (darken color amount)).
Proof.
  unfold darkenArg, darken. cbn [hexToRgbArg bindC].
  by destruct (hexToRgb color).
Qed.

Lemma mixArg_strings colorA colorB ratio :
  mixArg (Some colorA) (Some colorB) ratio
  = Return (Some (mix colorA colorB ratio)).
Proof.
  unfold mixArg, mix. cbn [hexToRgbArg bindC orElse].
  destruct (hexToRgb colorA), (hexToRgb colorB); try done;
    by destruct (truthy colorA).
Qed.

(** C10 (as the code has it): when [hexToRgb] gives [null] for a colour
    string, [lighten] and [darken] return that string unchanged and do
    not throw, and [mix] with that string on either side returns
    [colorA || colorB] and does not throw: its first argument, or the
    second when the first is the empty string. *)
Theorem unparsable_color_is_returned
    (color other : string) (amount : option float)
    (H : hexToRgb color = None) :
  lighten color amount = color
  /\ darken color amount = color
  /\ mix color other amount = (if truthy color then color else other)
  /\ mix other color amount = (if truthy other then other else color)
  /\ lightenArg (Some color) amount = Return (Some color)
  /\ darkenArg (Some color) amount = Return (Some color)
  /\ mixArg (Some color) (Some other) amount
     = Return (Some (if truthy color then color else other))
  /\ mixArg (Some other) (Some color) amount
     = Return (Some (if truthy other then other else color)).
Proof.
  rewrite lightenArg_string, darkenArg_string, !mixArg_strings.
  rewrite (lighten_unparsable _ _ H), (darken_unparsable _ _ H).
  rewrite (mix_unparsable color other amount) by (by left).
  rewrite (mix_unparsable other color amount) by (by right).
  repeat split.
Qed.

Lemma unparsable_color_is_returned_witness :
  hexToRgb "red" = None
  /\ lighten "red" (Some 0.18%float) = "red"%string
  /\ darken "red" None = "red"%string
  /\ mix "red" "#112233" None = "red"%string
  /\ mix "#112233" "red" None = "#112233"%string
  /\ mix "" "#112233" None = "#112233"%string.
Proof.
  split; [reflexivity|].
  destruct (unparsable_color_is_returned "red" "#112233" (Some 0.18%float)
              eq_refl) as (Hl & _).
  destruct (unparsable_color_is_returned "red" "#112233" None eq_refl)
    as (_ & Hd & Hm1 & Hm2 & _).
  destruct (unparsable_color_is_returned "" "#112233" None eq_refl)
    as (_ & _ & Hm3 & _).
  repeat split; assumption.
Defined.

(** C10 (as the claim has it) fails for an absent first argument: [mix]
    parses [colorA] before it tests anything, [hex.replace] throws on
    [undefined], and the second colour is not returned.  [lighten] and
    [darken] throw on an absent colour in the same way. *)
Lemma mix_absent_first_argument_throws :
  (exists err, mixArg None (Some "#112233"%string) None = Throw err)
  /\ mixArg None (Some "#112233"%string) None
     <> Return (Some "#112233"%string)
  /\ (exists err, lightenArg None None = Throw err)
  /\ (exists err, darkenArg None None = Throw err).
Proof.
  split; [by eexists|]. split; [discriminate|]. split; by eexists.
Qed.

End UnparsableColors.

(** ** Hex colour strings round-trip *)

Section HexRoundTrip.

Import JsString JsNumber ColorUtils.

Definition isHexDigit (c : ascii) : bool :=
  match hexValue c with Some _ => true | None => false end.

Fixpoint allHexDigits (s : string) : bool :=
  match s with
  | EmptyString => true
  | String c s' => isHexDigit c && allHexDigits s'
  end.

Definition sixHexDigits (s : string) : bool :=
  Nat.eqb (String.length s) 6 && allHexDigits s.

(** A well-formed hex colour string: six hexadecimal digits, with or
    without the leading [#]. *)
Definition wellFormedHex (s : string) : bool :=
  match s with
  | String c digits =>
      if Ascii.eqb "#" c then sixHexDigits digits else sixHexDigits s
  | EmptyString => false
  end.

(** The upper-case six-digit form of a well-formed string. *)
Definition upperCaseForm (s : string) : string :=
  match s with
  | String c digits =>
      if Ascii.eqb "#" c then String "#" (toUpperCase digits)
      else String "#" (toUpperCase s)
  | EmptyString => EmptyString
  end.

Ltac each_ascii c :=
  destruct c as [[] [] [] [] [] [] [] []].

Lemma hexValue_range c v : hexValue c = Some v -> 0 <= v < 16.
Proof.
  intros H. each_ascii c; vm_compute in H; try discriminate;
    injection H as <-; lia.
Qed.

Lemma hexValue_not_space c v : hexValue c = Some v -> isWhiteSpace c = false.
Proof.
  intros H. each_ascii c; vm_compute in H; try discriminate; reflexivity.
Qed.

Lemma hexValue_not_hash c v : hexValue c = Some v -> Ascii.eqb "#" c = false.
Proof.
  intros H. each_ascii c; vm_compute in H; try discriminate; reflexivity.
Qed.

Lemma hexValue_upper c v :
  hexValue c = Some v -> toUpperCaseChar (hexDigit v) = toUpperCaseChar c.
Proof.
  intros H. each_ascii c; vm_compute in H; try discriminate;
    injection H as <-; reflexivity.
Qed.

Lemma hexValue_not_sign c v :
  hexValue c = Some v ->
  Ascii.eqb c "-" = false /\ Ascii.eqb c "+" = false
  /\ Ascii.eqb c "x" = false /\ Ascii.eqb c "X" = false.
Proof.
  intros H. each_ascii c; vm_compute in H; try discriminate;
    repeat split; reflexivity.
Qed.

(** Every integer channel prints as its two hexadecimal digits. *)
Definition channelPrints (n : Z) : bool :=
  String.eqb (toHex (ofZ n))
    (String (hexDigit (n / 16)) (String (hexDigit (n mod 16)) EmptyString)).

Lemma channelPrints_all :
  forallb channelPrints (List.map Z.of_nat (seq 0 256)) = true.
Proof. vm_compute. reflexivity. Qed.

Lemma toHex_byte n :
  0 <= n < 256 ->
  toHex (ofZ n)
  = String (hexDigit (n / 16)) (String (hexDigit (n mod 16)) EmptyString).
Proof.
  intros Hn. apply String.eqb_eq.
  pose proof channelPrints_all as Hall.
  rewrite forallb_forall in Hall. apply Hall.
  apply in_map_iff. exists (Z.to_nat n). split; [lia|].
  apply in_seq. lia.
Qed.

Lemma trimEnd_hexDigits s : allHexDigits s = true -> trimEnd s = s.
Proof.
  induction s as [|c s IH]; [done|].
  cbn [allHexDigits trimEnd].
  intros [Hc Hs]%andb_prop. rewrite (IH Hs).
  unfold isHexDigit in Hc. destruct (hexValue c) as [v|] eqn:Hv; [|done].
  rewrite (hexValue_not_space _ _ Hv). by destruct s.
Qed.

Lemma replaceFirst_hexDigits s :
  allHexDigits s = true -> replaceFirstWithEmpty "#" s = s.
Proof.
  induction s as [|c s IH]; [done|].
  cbn [allHexDigits replaceFirstWithEmpty].
  intros [Hc Hs]%andb_prop. rewrite (IH Hs).
  unfold isHexDigit in Hc. destruct (hexValue c) as [v|] eqn:Hv; [|done].
  by rewrite (hexValue_not_hash _ _ Hv).
Qed.

Lemma isHexDigit_value c : isHexDigit c = true -> exists v, hexValue c = Some v.
Proof. unfold isHexDigit. destruct (hexValue c); [eauto|done]. Qed.

Lemma toHex_pair hi lo :
  0 <= hi < 16 -> 0 <= lo < 16 ->
  toHex (ofZ (hi * 16 + lo))
  = String (hexDigit hi) (String (hexDigit lo) EmptyString).
Proof.
  intros Hhi Hlo. rewrite toHex_byte by lia.
  replace ((hi * 16 + lo) / 16) with hi by (Z.div_mod_to_equations; lia).
  replace ((hi * 16 + lo) mod 16) with lo by (Z.div_mod_to_equations; lia).
  reflexivity.
Qed.

(** Six hexadecimal digits parse to the three channels they spell, and
    those print as the digits in upper case. *)
Lemma sixHexDigits_round_trip digits :
  sixHexDigits digits = true ->
  exists c, hexToRgb digits = Some c
            /\ rgbToHex c = String "#" (toUpperCase digits).
Proof.
  intros [Hlen Hall]%andb_prop. apply Nat.eqb_eq in Hlen.
  assert (Htrim : trim (replaceFirstWithEmpty "#" digits) = digits).
  { rewrite replaceFirst_hexDigits by done. unfold trim.
    destruct digits as [|c s]; [done|].
    pose proof Hall as Hall'. cbn [allHexDigits] in Hall'.
    apply andb_prop in Hall' as [Hc _].
    apply isHexDigit_value in Hc as [v Hv]. cbn [trimStart].
    rewrite (hexValue_not_space _ _ Hv). by apply trimEnd_hexDigits. }
  revert Htrim.
  destruct digits as [|c1 [|c2 [|c3 [|c4 [|c5 [|c6 [|c7 rest]]]]]]];
    try discriminate Hlen. clear Hlen. intros Htrim.
  cbn [allHexDigits] in Hall.
  apply andb_prop in Hall as [[v1 H1]%isHexDigit_value Hall].
  apply andb_prop in Hall as [[v2 H2]%isHexDigit_value Hall].
  apply andb_prop in Hall as [[v3 H3]%isHexDigit_value Hall].
  apply andb_prop in Hall as [[v4 H4]%isHexDigit_value Hall].
  apply andb_prop in Hall as [[v5 H5]%isHexDigit_value Hall].
  apply andb_prop in Hall as [[v6 H6]%isHexDigit_value _].
  pose proof (hexValue_range _ _ H1). pose proof (hexValue_range _ _ H2).
  pose proof (hexValue_range _ _ H3). pose proof (hexValue_range _ _ H4).
  pose proof (hexValue_range _ _ H5). pose proof (hexValue_range _ _ H6).
  destruct (hexValue_not_sign _ _ H1) as (Hm & Hp & _ & _).
  destruct (hexValue_not_sign _ _ H2) as (_ & _ & Hx & HX).
  pose proof (hexValue_not_space _ _ H1) as Hsp.
  set (num := ((((v1 * 16 + v2) * 16 + v3) * 16 + v4) * 16 + v5) * 16 + v6).
  assert (Hparse : parseInt16 (String c1 (String c2 (String c3 (String c4
                     (String c5 (String c6 EmptyString))))))
                   = Some num).
  { unfold parseInt16. cbn [trimStart]. rewrite Hsp, Hm, Hp.
    unfold strip0x. rewrite Hx, HX, andb_false_r.
    cbn [hexPrefix]. rewrite H1. cbn [hexPrefix]. rewrite H2.
    cbn [hexPrefix]. rewrite H3. cbn [hexPrefix]. rewrite H4.
    cbn [hexPrefix]. rewrite H5. cbn [hexPrefix]. rewrite H6.
    cbn [hexPrefix]. reflexivity. }
  unfold hexToRgb. rewrite Htrim, Hparse.
  cbn [String.length Nat.eqb negb].
  assert (Hnum : 0 <= num < 2 ^ 24) by (unfold num; lia).
  assert (Hint : ToInt32 (Some num) = num).
  { unfold ToInt32. rewrite Z.mod_small; lia. }
  rewrite Hint. eexists. split; [reflexivity|].
  unfold rgbToHex. cbn [r g b].
  change 255 with (Z.ones 8). rewrite !Z.land_ones, !Z.shiftr_div_pow2 by lia.
  replace ((num / 2 ^ 16) mod 2 ^ 8) with (v1 * 16 + v2)
    by (unfold num; change (2 ^ 16) with 65536; change (2 ^ 8) with 256;
        Z.div_mod_to_equations; lia).
  replace ((num / 2 ^ 8) mod 2 ^ 8) with (v3 * 16 + v4)
    by (unfold num; change (2 ^ 8) with 256; Z.div_mod_to_equations; lia).
  replace (num mod 2 ^ 8) with (v5 * 16 + v6)
    by (unfold num; change (2 ^ 8) with 256; Z.div_mod_to_equations; lia).
  rewrite !toHex_pair by assumption.
  unfold toUpperCase. cbv [String.append]. cbn [JsString.map].
  rewrite (hexValue_upper _ _ H1), (hexValue_upper _ _ H2),
    (hexValue_upper _ _ H3), (hexValue_upper _ _ H4),
    (hexValue_upper _ _ H5), (hexValue_upper _ _ H6).
  reflexivity.
Qed.

(** C9: for every well-formed hex colour string [s] (six hexadecimal
    digits, with or without the leading [#]), [hexToRgb] succeeds and
    [rgbToHex] of its result is the upper-case six-digit form of [s]. *)
Theorem hexToRgb_rgbToHex_round_trip (s : string)
    (H : wellFormedHex s = true) :
  exists c, hexToRgb s = Some c /\ rgbToHex c = upperCaseForm s.
Proof.
  unfold wellFormedHex in H. unfold upperCaseForm.
  destruct s as [|c digits]; [done|].
  destruct (Ascii.eqb "#" c) eqn:Hc.
  - apply Ascii.eqb_eq in Hc as <-.
    destruct (sixHexDigits_round_trip digits H) as (rgb & Hparse & Hprint).
    exists rgb. split; [|done].
    revert Hparse. unfold hexToRgb. simpl replaceFirstWithEmpty.
    apply andb_prop in H as [_ Hall].
    by rewrite (replaceFirst_hexDigits _ Hall).
  - destruct (sixHexDigits_round_trip _ H) as (rgb & Hparse & Hprint).
    by exists rgb.
Qed.

Lemma hexToRgb_rgbToHex_round_trip_witness :
  (exists c, hexToRgb "#c77442" = Some c /\ rgbToHex c = "#C77442"%string)
  /\ (exists c, hexToRgb "8bBEd8" = Some c /\ rgbToHex c = "#8BBED8"%string).
Proof.
  split.
  - exact (hexToRgb_rgbToHex_round_trip "#c77442" eq_refl).
  - exact (hexToRgb_rgbToHex_round_trip "8bBEd8" eq_refl).
Defined.

End HexRoundTrip.

(** ** Derived colours are not rounded *)

Section DerivedColors.

Import JsString JsNumber ColorUtils.
Local Open Scope string_scope.

(** A country record without a flag, as the palette builder receives it. *)
Definition countryWithoutFlag : CountryRef :=
  {| region := Some "Asia"; flag := None; flagUrl := None; flags := None |}.

Definition noOptions : Options :=
  {| baseColor := None; fallbackAccent := None |}.

(** C7 (the code departs from the claim): the channels that [lighten],
    [darken] and [mix] hand to [rgbToHex] are clamped to [0,255] but are
    not rounded, and a channel with a fraction prints with a point and
    fraction digits.  Lightening the default accent [#C77442] by 0.18
    gives the red channel 209.08: inside [0,255], not an integer, and the
    printed colour is not a six-digit hex string.  The same holds for
    [darken] and [mix], and so for [accentLight], [accentDark] and
    [muted] of the palette built for a country without a flag. *)
Theorem derived_colors_keep_fractions :
  (let red := clamp255 (199 + (255 - 199) * 0.18)%float in
   (0 <=? red)%float = true /\ (red <=? 255)%float = true
   /\ isInteger red = false
   /\ Nat.ltb 2 (String.length (toHex red)) = true)
  /\ wellFormedHex (lighten "#C77442" (Some 0.18%float)) = false
  /\ wellFormedHex (darken "#C77442" (Some 0.18%float)) = false
  /\ wellFormedHex (mix "#B1C4BB" "#C77442" (Some 0.35%float)) = false
  /\ forall loadImage st,
       exists p,
         getCountryPalette loadImage (Some countryWithoutFlag) noOptions st
         = (Return p, st)
         /\ accent p = "#C77442"
         /\ wellFormedHex (accentLight p) = false
         /\ wellFormedHex (accentDark p) = false
         /\ wellFormedHex (muted p) = false.
Proof.
  split; [vm_compute; repeat split; reflexivity|].
  do 3 (split; [vm_compute; reflexivity|]).
  intros loadImage st. eexists. split; [reflexivity|].
  vm_compute. repeat split; reflexivity.
Qed.

End DerivedColors.

(** ** Name normalisation *)

Section Normalisation.

Import JsString CountryMatcher.
Local Open Scope string_scope.

(** C8 (the code departs from the claim): [normalizeName] trims before it
    removes the characters that are neither word characters nor white
    space, so white space that stood next to a removed character at either
    end stays, as one space.  The result is then not trimmed. *)
Theorem normalizeName_result_not_trimmed :
  normalizeName (Some "Foo !") = "foo "
  /\ normalizeName (Some "- Congo") = " congo"
  /\ trim (normalizeName (Some "Foo !")) <> normalizeName (Some "Foo !").
Proof. vm_compute. repeat split; try reflexivity. discriminate. Qed.

(** The other parts of the description hold: absent and empty input give
    the empty string, and the steps are the four of the source. *)
Lemma normalizeName_absent :
  normalizeName None = "" /\ normalizeName (Some "") = "".
Proof. split; reflexivity. Qed.

Lemma normalizeName_steps s :
  truthy s = true ->
  normalizeName (Some s)
  = collapseWhiteSpace (removeNonWordNonSpace (trim (toLowerCase s))).
Proof. intros H. unfold normalizeName. by rewrite H. Qed.

End Normalisation.

(** ** The direct-override strategy *)

Section Override.

Import JsString CountryMatcher.
Local Open Scope string_scope.

(** The test of the direct-mapping [find]. *)
Definition namedAs (mappedName : string) (country : Country) : bool :=
  String.eqb (common (name country)) mappedName
  || String.eqb (official (name country)) mappedName.

(** Keys and values of the override table are non-empty strings. *)
Lemma COUNTRY_NAME_MAP_truthy q m :
  tableGet q COUNTRY_NAME_MAP = Some m -> truthy q = true /\ truthy m = true.
Proof.
  unfold COUNTRY_NAME_MAP. cbn [tableGet].
  repeat match goal with
  | |- context [String.eqb ?k q] =>
      let E := fresh "E" in
      destruct (String.eqb k q) eqn:E;
      [ apply String.eqb_eq in E; subst q; intros [= <-];
        split; reflexivity | clear E ]
  end.
  discriminate.
Qed.

Lemma find_some_nonempty {A} (p : A -> bool) l x :
  List.find p l = Some x -> Nat.eqb (List.length l) 0 = false.
Proof. by destruct l. Qed.

(** C2: for every key [q] of the override table, mapped to [m], and every
    reference set that holds a record whose common or official name is
    [m], [matchCountryName q] returns such a record: the first one in the
    order of the set, found by the direct-override strategy, whatever the
    later strategies would find. *)
Theorem override_key_resolves (q m : string) (apiCountries : list Country)
    (Hkey : tableGet q COUNTRY_NAME_MAP = Some m)
    (Hrecord : exists c, In c apiCountries
                         /\ (common (name c) = m \/ official (name c) = m)) :
  exists c, matchCountryName q apiCountries = Some c
            /\ List.find (namedAs m) apiCountries = Some c
            /\ In c apiCountries
            /\ (common (name c) = m \/ official (name c) = m).
Proof.
  destruct Hrecord as (c0 & Hin & Hname).
  assert (Hp : namedAs m c0 = true).
  { unfold namedAs. apply orb_true_iff.
    destruct Hname as [<-|<-]; [left|right]; apply String.eqb_refl. }
  destruct (List.find (namedAs m) apiCountries) as [c|] eqn:Hfind.
  2: { exfalso. pose proof (find_none _ _ Hfind _ Hin) as Hn. congruence. }
  exists c. destruct (find_some _ _ Hfind) as [Hc Hpc].
  destruct (COUNTRY_NAME_MAP_truthy _ _ Hkey) as [Hq Hm].
  repeat split; try done.
  - unfold matchCountryName.
    rewrite Hq, (find_some_nonempty _ _ _ Hfind), Hkey, Hm.
    cbn [negb orb]. fold (namedAs m). by rewrite Hfind.
  - unfold namedAs in Hpc. apply orb_true_iff in Hpc.
    destruct Hpc as [H|H]; apply String.eqb_eq in H; auto.
Qed.

Definition unitedStates : Country :=
  {| name := {| common := "United States";
                official := "United States of America" |};
     altSpellings := None; cca3 := "USA" |}.

Definition czechia : Country :=
  {| name := {| common := "Czechia"; official := "Czech Republic" |};
     altSpellings := None; cca3 := "CZE" |}.

Definition modernCzechia : Country :=
  {| name := {| common := "Czechia"; official := "Czechia" |};
     altSpellings := None; cca3 := "CZE" |}.

Lemma override_key_resolves_witness :
  (exists c, matchCountryName "USA" [czechia; unitedStates] = Some c
             /\ List.find (namedAs "United States of America")
                  [czechia; unitedStates] = Some c
             /\ In c [czechia; unitedStates]
             /\ (common (name c) = "United States of America"
                 \/ official (name c) = "United States of America"))
  /\ (exists c, matchCountryName "Czech Republic"
                  [unitedStates; modernCzechia] = Some c
             /\ List.find (namedAs "Czechia")
                  [unitedStates; modernCzechia] = Some c
             /\ In c [unitedStates; modernCzechia]
             /\ (common (name c) = "Czechia" \/ official (name c) = "Czechia")).
Proof.
  split.
  - apply (override_key_resolves "USA" "United States of America"
             [czechia; unitedStates] eq_refl).
    exists unitedStates. split; [right; left; reflexivity|].
    right; reflexivity.
  - apply (override_key_resolves "Czech Republic" "Czechia"
             [unitedStates; modernCzechia] eq_refl).
    exists modernCzechia. split; [right; left; reflexivity|].
    left; reflexivity.
Defined.

(** With the override table out of the way the later strategies do not
    find the record for these queries: the override is what resolves
    them. *)
Lemma later_strategies_miss :
  let withoutOverride q cs :=
    let lower := toLowerCase q in
    let normalized := normalizeName (Some q) in
    List.find (fun c =>
      String.eqb (toLowerCase (common (name c))) lower
      || String.eqb (toLowerCase (official (name c))) lower
      || String.eqb (normalizeName (Some (common (name c)))) normalized
      || String.eqb (normalizeName (Some (official (name c)))) normalized
      || includes (toLowerCase (common (name c))) lower
      || includes lower (toLowerCase (common (name c)))
      || includes (toLowerCase (official (name c))) lower
      || includes lower (toLowerCase (official (name c)))) cs in
  withoutOverride "USA" [czechia; unitedStates] = None
  /\ withoutOverride "Czech Republic" [unitedStates; modernCzechia] = None.
Proof. vm_compute. split; reflexivity. Qed.

End Override.

(** ** The reference-set loader under overlapping calls and failure *)

Section Loader.

Import CountryMatcher CountryLoader.
Local Open Scope string_scope.
Local Open Scope list_scope.
Local Open Scope nat_scope.

Definition callOf (c : string * Z) : Event := Call (fst c) (snd c).

Definition pendingOf (c : string * Z) : Task := AwaitingFetch (fst c) 0.

Lemma step_call_stale w countryName now :
  cacheIsFresh (cache w) now = false ->
  step w (Call countryName now)
  = {| cache := cache w; fetchCount := S (fetchCount w);
       tasks := tasks w ++ [AwaitingFetch countryName 0] |}.
Proof. intros H. unfold step. by rewrite H. Qed.

(** C3 (as the code has it): the loader keeps no pending operation to
    share.  Every call that finds no fresh cached set issues a network
    request of its own before it suspends, so calls that overlap while the
    set is being fetched issue one request each: after [n] such calls,
    all still waiting for their response, [n] more requests have gone out
    and the cache is as it was. *)
Theorem overlapping_calls_fetch_each (w : World) (calls : list (string * Z))
    (Hstale : Forall (fun c => cacheIsFresh (cache w) (snd c) = false) calls) :
  let w' := run w (List.map callOf calls) in
  fetchCount w' = fetchCount w + List.length calls
  /\ tasks w' = tasks w ++ List.map pendingOf calls
  /\ cache w' = cache w.
Proof.
  revert w Hstale. induction calls as [|[countryName now] calls IH];
    intros w Hstale; cbn zeta.
  - simpl. rewrite app_nil_r. repeat split; lia.
  - apply Forall_cons in Hstale as [Hnow Hrest]. simpl in Hnow.
    unfold run. cbn [List.map fold_left].
    change (callOf (countryName, now)) with (Call countryName now).
    rewrite step_call_stale by done.
    set (w1 := {| cache := cache w; fetchCount := S (fetchCount w);
                  tasks := tasks w ++ [AwaitingFetch countryName 0] |}).
    destruct (IH w1 Hrest) as (Hcount & Htasks & Hcache).
    unfold run in *. rewrite Hcount, Htasks, Hcache. subst w1.
    cbn [cache fetchCount tasks List.map List.length].
    rewrite <- app_assoc. repeat split; try done. lia.
Qed.

Lemma overlapping_calls_fetch_each_witness :
  let w' := run initialWorld (List.map callOf [("USA", 0%Z); ("UK", 1%Z)]) in
  fetchCount w' = 0 + 2
  /\ tasks w' = [] ++ [AwaitingFetch "USA" 0; AwaitingFetch "UK" 0]
  /\ cache w' = cache initialWorld.
Proof.
  apply (overlapping_calls_fetch_each initialWorld
           [("USA", 0%Z); ("UK", 1%Z)]).
  repeat constructor.
Defined.

(** C3 as stated fails: two calls that overlap while the first request is
    pending issue two network requests, not one. *)
Lemma overlapping_calls_fetch_twice :
  let w := run initialWorld [Call "USA" 0; Call "UK" 1] in
  tasks w = [AwaitingFetch "USA" 0; AwaitingFetch "UK" 0]
  /\ fetchCount w <> 1.
Proof. vm_compute. split; [reflexivity | discriminate]. Qed.

(** An attempt that does not deliver the reference set. *)
Definition failed (o : FetchOutcome) : bool :=
  match o with Body _ => false | _ => true end.

Lemma lookup_snoc {A} (l : list A) (x : A) :
  (l ++ [x]) !! List.length l = Some x.
Proof. by apply list_lookup_middle. Qed.

Lemma insert_snoc {A} (l : list A) (x y : A) :
  <[List.length l := y]> (l ++ [x]) = l ++ [y].
Proof.
  rewrite insert_app_r_alt by lia. by rewrite Nat.sub_diag.
Qed.

(** C4 (as the code has it): when all three attempts of a call fail, the
    call's promise is fulfilled with [null]: the outer [catch] logs the
    error and does not pass it on, whether or not a set was cached before.
    The cache, set and time stamp, is left as it was, and three requests
    have gone out. *)
Theorem total_failure_returns_null (w : World) (countryName : string)
    (now t1 t2 t3 : Z) (f1 f2 f3 : FetchOutcome)
    (Hstale : cacheIsFresh (cache w) now = false)
    (H1 : failed f1 = true) (H2 : failed f2 = true) (H3 : failed f3 = true) :
  let i := List.length (tasks w) in
  let w' := run w [Call countryName now;
                   FetchSettled i f1 t1; TimerFired i;
                   FetchSettled i f2 t2; TimerFired i;
                   FetchSettled i f3 t3] in
  tasks w' = tasks w ++ [Settled (Return None)]
  /\ cache w' = cache w
  /\ fetchCount w' = fetchCount w + 3.
Proof.
  cbn zeta. unfold run. cbn [fold_left].
  rewrite step_call_stale by done.
  assert (Hfail : forall ts n attempt f t c,
    failed f = true ->
    step {| cache := c; fetchCount := n;
            tasks := ts ++ [AwaitingFetch countryName attempt] |}
         (FetchSettled (List.length ts) f t)
    = if (attempt <? maxRetries - 1)
      then {| cache := c; fetchCount := n;
              tasks := ts ++ [AwaitingTimer countryName attempt
                                (orDefault "undefined" (attemptError f))
                                (2 ^ Z.of_nat attempt * 1000)%Z] |}
      else {| cache := c; fetchCount := n;
              tasks := ts ++ [Settled (Return None)] |}).
  { intros ts n attempt f t c Hf. unfold step. cbn [tasks].
    rewrite lookup_snoc.
    destruct f; try discriminate Hf;
      (destruct (attempt <? maxRetries - 1) eqn:Hlt;
       [ unfold setTask; cbn [tasks cache fetchCount];
         by rewrite insert_snoc
       | unfold loopHead;
         assert (Hend : (S attempt <? maxRetries) = false)
           by (apply Nat.ltb_ge; apply Nat.ltb_ge in Hlt;
               unfold maxRetries in *; lia);
         rewrite Hend; unfold setTask; cbn [tasks cache fetchCount];
         by rewrite insert_snoc ]). }
  assert (Htimer : forall ts n attempt e d c,
    S attempt < maxRetries ->
    step {| cache := c; fetchCount := n;
            tasks := ts ++ [AwaitingTimer countryName attempt e d] |}
         (TimerFired (List.length ts))
    = {| cache := c; fetchCount := S n;
         tasks := ts ++ [AwaitingFetch countryName (S attempt)] |}).
  { intros ts n attempt e d c Hlt. unfold step. cbn [tasks].
    rewrite lookup_snoc. unfold loopHead.
    apply Nat.ltb_lt in Hlt. rewrite Hlt.
    unfold setTask. cbn [tasks cache fetchCount]. by rewrite insert_snoc. }
  rewrite (Hfail _ _ 0 f1 t1 _ H1). cbn [Nat.ltb Nat.leb maxRetries Nat.sub].
  rewrite Htimer by (unfold maxRetries; lia).
  rewrite (Hfail _ _ 1 f2 t2 _ H2). cbn [Nat.ltb Nat.leb maxRetries Nat.sub].
  rewrite Htimer by (unfold maxRetries; lia).
  rewrite (Hfail _ _ 2 f3 t3 _ H3). cbn [Nat.ltb Nat.leb maxRetries Nat.sub].
  cbn [tasks cache fetchCount]. repeat split. lia.
Qed.

(** A world whose cached set has gone stale. *)
Definition staleWorld : World :=
  {| cache := {| allCountriesCache := Some [];
                 cacheTimestamp := Some 1000%Z |};
     fetchCount := 1; tasks := [Settled (Return None)] |}.

Lemma total_failure_returns_null_witness :
  let w' := run staleWorld
              [Call "Peru" 2000000;
               FetchSettled 1 (NetworkError "offline") 2000010; TimerFired 1;
               FetchSettled 1 (HttpError "503" "Unavailable") 2001020;
               TimerFired 1;
               FetchSettled 1 (BodyError "Unexpected token") 2003030] in
  tasks w' = tasks staleWorld ++ [Settled (Return None)]
  /\ cache w' = cache staleWorld
  /\ fetchCount w' = fetchCount staleWorld + 3.
Proof.
  exact (total_failure_returns_null staleWorld "Peru" 2000000 2000010
           2001020 2003030 (NetworkError "offline")
           (HttpError "503" "Unavailable") (BodyError "Unexpected token")
           eq_refl eq_refl eq_refl eq_refl).
Defined.

(** C4 as stated fails: with no cached set at all, three failed attempts
    end in a promise fulfilled with [null], not in a rejection. *)
Lemma total_failure_is_not_propagated :
  let w := run initialWorld
             [Call "Peru" 0;
              FetchSettled 0 (NetworkError "offline") 10; TimerFired 0;
              FetchSettled 0 (NetworkError "offline") 1020; TimerFired 0;
              FetchSettled 0 (NetworkError "offline") 3030] in
  allCountriesCache (cache w) = None
  /\ tasks w = [Settled (Return None)]
  /\ forall error, tasks w <> [Settled (Throw error)].
Proof.
  vm_compute. repeat split; try reflexivity. intros error. discriminate.
Qed.

End Loader.

(** ** Extraction never raises and remembers failures *)

Section Extraction.

Import JsString JsNumber ColorUtils.
Local Open Scope string_scope.
Local Open Scope list_scope.

(** The fallback-shaped result of a call. *)
Definition fallbackResult (fallbackArg : option string) : FlagPaletteResult :=
  {| primary := orDefault "#888888" fallbackArg; secondary := None |}.

(** A call of [extractFlagColors]: the host at the time of the call and
    the two arguments. *)
Record ExtractCall : Type :=
  mkExtractCall { host : string -> Completion Image;
                  callUrl : option string;
                  callFallback : option string }.

Definition runExtracts (calls : list ExtractCall) (st : Store) : Store :=
  fold_left
    (fun st c =>
       snd (extractFlagColors (host c) (callUrl c) (callFallback c) st))
    calls st.

(** What the [try] block of a call that misses the cache computes. *)
Definition sampled (loadImage : string -> Completion Image) (url : string)
  : Completion (list RGB) :=
  bindC (loadImage url) sampleImageColors.

Definition freshResult (colors : list RGB) (fallbackArg : option string)
  : FlagPaletteResult :=
  let primaryColor :=
    choosePrimary colors (orDefault "#888888" fallbackArg) in
  {| primary := rgbToHex primaryColor;
     secondary := option_map rgbToHex (chooseSecondary colors primaryColor) |}.

(** The four ways a call ends. *)
Lemma extract_no_url loadImage flagUrl fallbackArg st :
  truthyOpt flagUrl = false ->
  extractFlagColors loadImage flagUrl fallbackArg st
  = (Return (fallbackResult fallbackArg), st).
Proof.
  intros H. unfold extractFlagColors, extractBegin.
  destruct flagUrl as [url|]; [|done].
  simpl in H. by rewrite H.
Qed.

Lemma extract_cached loadImage url fallbackArg st cached :
  truthy url = true -> flagColorCache st !! url = Some cached ->
  extractFlagColors loadImage (Some url) fallbackArg st = (Return cached, st).
Proof.
  intros Hu Hc. unfold extractFlagColors, extractBegin. by rewrite Hu, Hc.
Qed.

Lemma extract_failed loadImage url fallbackArg st err :
  truthy url = true -> flagColorCache st !! url = None ->
  sampled loadImage url = Throw err ->
  extractFlagColors loadImage (Some url) fallbackArg st
  = (Return (fallbackResult fallbackArg),
     cacheSet url (fallbackResult fallbackArg) (requestImage url st)).
Proof.
  intros Hu Hc Hs. unfold extractFlagColors, extractBegin.
  rewrite Hu, Hc. cbn [negb]. unfold extractResume, sampled in *.
  destruct (loadImage url) as [img|e]; cbn [bindC tryCatch] in *; [|done].
  by destruct (sampleImageColors img).
Qed.

Lemma extract_sampled loadImage url fallbackArg st colors :
  truthy url = true -> flagColorCache st !! url = None ->
  sampled loadImage url = Return colors ->
  extractFlagColors loadImage (Some url) fallbackArg st
  = (Return (freshResult colors fallbackArg),
     cacheSet url (freshResult colors fallbackArg) (requestImage url st)).
Proof.
  intros Hu Hc Hs. unfold extractFlagColors, extractBegin.
  rewrite Hu, Hc. cbn [negb]. unfold extractResume, sampled in *.
  destruct (loadImage url) as [img|e]; cbn [bindC tryCatch] in *; [|done].
  destruct (sampleImageColors img); [|done].
  injection Hs as ->. reflexivity.
Qed.

(** Every call ends in one of these ways. *)
Lemma extract_cases loadImage flagUrl st :
  (truthyOpt flagUrl = false)
  \/ exists url, flagUrl = Some url /\ truthy url = true
     /\ ((exists cached, flagColorCache st !! url = Some cached)
         \/ (flagColorCache st !! url = None
             /\ ((exists err, sampled loadImage url = Throw err)
                 \/ (exists colors, sampled loadImage url = Return colors)))).
Proof.
  destruct flagUrl as [url|]; [|by left].
  destruct (truthy url) eqn:Hu; [|left; simpl; by rewrite Hu].
  right. exists url. repeat split; try done.
  destruct (flagColorCache st !! url) as [cached|]; [left; eauto|].
  right. split; [done|].
  destruct (sampled loadImage url) as [colors|err]; eauto.
Qed.

(** The outer [catch] leaves no way to throw. *)
Lemma extract_returns loadImage flagUrl fallbackArg st :
  exists res,
    fst (extractFlagColors loadImage flagUrl fallbackArg st) = Return res.
Proof.
  destruct (extract_cases loadImage flagUrl st)
    as [Hno | (u & -> & Hu & [(c & Hhit) | (Hmiss & [(e & Hs) | (cs & Hs)])])].
  - rewrite extract_no_url by done. eauto.
  - rewrite (extract_cached _ _ _ _ _ Hu Hhit). eauto.
  - rewrite (extract_failed _ _ _ _ _ Hu Hmiss Hs). eauto.
  - rewrite (extract_sampled _ _ _ _ _ Hu Hmiss Hs). eauto.
Qed.

(** *** Calls that overlap *)

Lemma extractBegin_hit url fallbackArg st cached :
  truthy url = true -> flagColorCache st !! url = Some cached ->
  extractBegin (Some url) fallbackArg st = (ReturnedAtOnce cached, st).
Proof. intros Hu Hc. unfold extractBegin. by rewrite Hu, Hc. Qed.

Lemma extractBegin_no_url flagUrl fallbackArg st :
  truthyOpt flagUrl = false ->
  extractBegin flagUrl fallbackArg st
  = (ReturnedAtOnce (fallbackResult fallbackArg), st).
Proof.
  intros H. unfold extractBegin. destruct flagUrl as [url|]; [|done].
  simpl in H. by rewrite H.
Qed.

(** A call that reaches its [await] has missed the cache with a
    non-empty reference and has asked for the image. *)
Lemma extractBegin_awaiting flagUrl fallbackArg st url fallbackColor st' :
  extractBegin flagUrl fallbackArg st = (Awaiting url fallbackColor, st') ->
  truthy url = true /\ flagColorCache st !! url = None
  /\ st' = requestImage url st.
Proof.
  unfold extractBegin. destruct flagUrl as [u|]; [|done].
  destruct (truthy u) eqn:Hu; cbn [negb]; [|done].
  destruct (flagColorCache st !! u) eqn:Hc; [done|].
  by intros [= <- _ <-].
Qed.

(** A call that returns before its [await] leaves the module state as it
    is. *)
Lemma extractBegin_at_once flagUrl fallbackArg st result st' :
  extractBegin flagUrl fallbackArg st = (ReturnedAtOnce result, st') ->
  st' = st.
Proof.
  unfold extractBegin. destruct flagUrl as [u|]; [|by intros [= _ <-]].
  destruct (negb (truthy u)); [by intros [= _ <-]|].
  destruct (flagColorCache st !! u); [by intros [= _ <-]|done].
Qed.

Lemma extractResume_failed url fallbackColor loaded st err :
  bindC loaded sampleImageColors = Throw err ->
  extractResume url fallbackColor loaded st
  = (Return {| primary := fallbackColor; secondary := None |},
     cacheSet url {| primary := fallbackColor; secondary := None |} st).
Proof.
  intros H. unfold extractResume.
  destruct loaded as [img|e]; cbn [bindC tryCatch] in *; [|done].
  by destruct (sampleImageColors img).
Qed.

(** The [catch] leaves no way to throw, and the result that a call
    computes is the one it stores under its reference. *)
Lemma extractResume_returns url fallbackColor loaded st :
  exists res,
    extractResume url fallbackColor loaded st
    = (Return res, cacheSet url res st).
Proof.
  unfold extractResume.
  destruct loaded as [img|e]; cbn [bindC tryCatch]; [|eauto].
  destruct (sampleImageColors img); cbn [bindC tryCatch]; eauto.
Qed.

(** A task is in order when it waits under a non-empty reference or has
    returned: no task has thrown. *)
Definition taskInOrder (t : ExtractTask) : Prop :=
  match t with
  | AwaitingImage url _ => truthy url = true
  | Finished (Return _) => True
  | Finished (Throw _) => False
  end.

(** A call with this reference waits for its image. *)
Definition waitsFor (url : string) (w : ExtractWorld) : Prop :=
  exists i fallbackColor,
    extractTasks w !! i = Some (AwaitingImage url fallbackColor).

(** The number of times the image of a reference has been requested. *)
Definition requestsFor (url : string) (st : Store) : nat :=
  List.length (List.filter (String.eqb url) (imageRequests st)).

Lemma extractRun_snoc w events e :
  extractRun w (events ++ [e]) = extractStep (extractRun w events) e.
Proof. unfold extractRun. by rewrite fold_left_app. Qed.

Lemma extractRun_app w events later :
  extractRun w (events ++ later) = extractRun (extractRun w events) later.
Proof. unfold extractRun. by rewrite fold_left_app. Qed.

Lemma extractStep_inOrder w e :
  Forall taskInOrder (extractTasks w) ->
  Forall taskInOrder (extractTasks (extractStep w e)).
Proof.
  intros H. destruct e as [flagUrl fallbackArg|i loaded]; cbn [extractStep].
  - destruct (extractBegin flagUrl fallbackArg (store w))
      as [[result|url fallbackColor] st] eqn:Hbegin; cbn [extractTasks];
      apply Forall_app; (split; [exact H|]); repeat constructor.
    by destruct (extractBegin_awaiting _ _ _ _ _ _ Hbegin) as [Hu _].
  - destruct (extractTasks w !! i) as [[url fallbackColor|]|]; try exact H.
    destruct (extractResume_returns url fallbackColor loaded (store w))
      as (res & ->). cbn [extractTasks]. by apply Forall_insert.
Qed.

Lemma extractRun_inOrder events :
  Forall taskInOrder (extractTasks (extractRun initialExtractWorld events)).
Proof.
  induction events as [|e events IH] using rev_ind; [constructor|].
  rewrite extractRun_snoc. by apply extractStep_inOrder.
Qed.

(** An entry of the cache is never removed. *)
Lemma extractStep_keeps_cached url w e :
  is_Some (flagColorCache (store w) !! url) ->
  is_Some (flagColorCache (store (extractStep w e)) !! url).
Proof.
  intros H. destruct e as [flagUrl fallbackArg|i loaded]; cbn [extractStep].
  - destruct (extractBegin flagUrl fallbackArg (store w))
      as [[result|u fallbackColor] st] eqn:Hbegin; cbn [store].
    + by rewrite (extractBegin_at_once _ _ _ _ _ Hbegin).
    + by destruct (extractBegin_awaiting _ _ _ _ _ _ Hbegin) as (_ & _ & ->).
  - destruct (extractTasks w !! i) as [[u fallbackColor|]|]; try exact H.
    destruct (extractResume_returns u fallbackColor loaded (store w))
      as (res & ->). cbn [store cacheSet flagColorCache].
    destruct (decide (u = url)) as [->|Hne].
    + rewrite lookup_insert_eq. by eexists.
    + by rewrite lookup_insert_ne.
Qed.

Lemma extractRun_keeps_cached url w events :
  is_Some (flagColorCache (store w) !! url) ->
  is_Some (flagColorCache (store (extractRun w events)) !! url).
Proof.
  intros H. induction events as [|e events IH] using rev_ind; [exact H|].
  rewrite extractRun_snoc. by apply extractStep_keeps_cached.
Qed.

(** While no call with the reference waits, its entry is not replaced,
    no call with it starts to wait, and its image is not requested. *)
Lemma extractStep_settled url cached w e :
  flagColorCache (store w) !! url = Some cached ->
  ~ waitsFor url w ->
  flagColorCache (store (extractStep w e)) !! url = Some cached
  /\ ~ waitsFor url (extractStep w e)
  /\ requestsFor url (store (extractStep w e)) = requestsFor url (store w).
Proof.
  intros Hc Hquiet.
  destruct e as [flagUrl fallbackArg|i loaded]; cbn [extractStep].
  - destruct (extractBegin flagUrl fallbackArg (store w))
      as [[result|u fallbackColor] st] eqn:Hbegin;
      cbn [store extractTasks].
    + rewrite (extractBegin_at_once _ _ _ _ _ Hbegin).
      split; [done|]. split; [|done].
      intros (j & fb & Hj). apply Hquiet. exists j, fb.
      apply lookup_app_Some in Hj as [Hj|[_ Hj]]; [done|].
      by destruct (j - _)%nat as [|[|]].
    + destruct (extractBegin_awaiting _ _ _ _ _ _ Hbegin)
        as (_ & Hmiss & ->).
      assert (Hne : u <> url) by congruence.
      split; [done|]. split.
      * intros (j & fb & Hj). apply Hquiet. exists j, fb.
        apply lookup_app_Some in Hj as [Hj|[_ Hj]]; [done|].
        destruct (j - _)%nat as [|[|]]; [|done..].
        cbn in Hj. congruence.
      * unfold requestsFor, requestImage. cbn [imageRequests List.filter].
        destruct (String.eqb url u) eqn:E; [|done].
        apply String.eqb_eq in E. congruence.
  - destruct (extractTasks w !! i) as [[u fallbackColor|]|] eqn:Hi;
      try (by repeat split).
    assert (Hne : u <> url).
    { intros ->. apply Hquiet. by exists i, fallbackColor. }
    destruct (extractResume_returns u fallbackColor loaded (store w))
      as (res & ->). cbn [store extractTasks cacheSet flagColorCache].
    split; [by rewrite lookup_insert_ne|]. split; [|done].
    intros (j & fb & Hj). apply Hquiet. exists j, fb.
    cbn [extractTasks] in Hj.
    destruct (decide (i = j)) as [->|Hij].
    + rewrite list_lookup_insert_eq in Hj by (by eapply lookup_lt_Some).
      done.
    + by rewrite list_lookup_insert_ne in Hj.
Qed.

Lemma extractRun_settled url cached w events :
  flagColorCache (store w) !! url = Some cached ->
  ~ waitsFor url w ->
  flagColorCache (store (extractRun w events)) !! url = Some cached
  /\ ~ waitsFor url (extractRun w events)
  /\ requestsFor url (store (extractRun w events)) = requestsFor url (store w).
Proof.
  intros Hc Hquiet.
  induction events as [|e events (IH1 & IH2 & IH3)] using rev_ind; [done|].
  rewrite extractRun_snoc.
  destruct (extractStep_settled url cached _ e IH1 IH2) as (H1 & H2 & H3).
  repeat split; [done|done|congruence].
Qed.

(** A call with a cached reference returns the entry at once. *)
Lemma call_hits url cached fallbackArg w :
  truthy url = true ->
  flagColorCache (store w) !! url = Some cached ->
  extractStep w (CallExtract (Some url) fallbackArg)
  = {| store := store w;
       extractTasks := extractTasks w ++ [Finished (Return cached)] |}.
Proof.
  intros Hu Hc. cbn [extractStep].
  by rewrite (extractBegin_hit _ _ _ _ Hu Hc).
Qed.

(** C5 (as the code has it): no call of [extractFlagColors] ever throws,
    however calls and image loads interleave.  Without an image
    reference a call returns the fallback result at once and leaves the
    module state alone.  When loading (or sampling) the image of a
    waiting call fails, the call returns the same fallback-shaped result
    and stores it under the reference.  From then on every call with
    that reference, whatever has happened in between, returns at once
    what the cache holds under the reference at that time and requests
    nothing; this is the stored fallback, and the image is never
    requested again, when no other call with the reference was waiting
    for its image at the time of the failure.  Calls that overlap are
    not joined: every call that misses the cache requests the image,
    whoever else waits for it, and every call that has waited writes its
    result over the entry of its reference. *)
Theorem extract_never_raises_and_caches_failure (events : list ExtractEvent) :
  let w := extractRun initialExtractWorld events in
  (forall i err, extractTasks w !! i <> Some (Finished (Throw err)))
  /\ (forall flagUrl fallbackArg,
        truthyOpt flagUrl = false ->
        extractStep w (CallExtract flagUrl fallbackArg)
        = {| store := store w;
             extractTasks :=
               extractTasks w
               ++ [Finished (Return (fallbackResult fallbackArg))] |})
  /\ (forall i url fallbackColor loaded err,
        extractTasks w !! i = Some (AwaitingImage url fallbackColor) ->
        bindC loaded sampleImageColors = Throw err ->
        let failure := {| primary := fallbackColor; secondary := None |} in
        let w' := extractStep w (ImageSettled i loaded) in
        extractTasks w' !! i = Some (Finished (Return failure))
        /\ store w' = cacheSet url failure (store w)
        /\ forall later fallbackArg',
             let w'' := extractRun w' later in
             exists cached,
               flagColorCache (store w'') !! url = Some cached
               /\ extractStep w'' (CallExtract (Some url) fallbackArg')
                  = {| store := store w'';
                       extractTasks :=
                         extractTasks w'' ++ [Finished (Return cached)] |}
               /\ (~ waitsFor url w' ->
                   cached = failure
                   /\ requestsFor url (store w'')
                      = requestsFor url (store w)))
  /\ (forall url fallbackArg,
        truthy url = true ->
        flagColorCache (store w) !! url = None ->
        extractStep w (CallExtract (Some url) fallbackArg)
        = {| store := requestImage url (store w);
             extractTasks :=
               extractTasks w
               ++ [AwaitingImage url (orDefault "#888888" fallbackArg)] |})
  /\ (forall i url fallbackColor loaded,
        extractTasks w !! i = Some (AwaitingImage url fallbackColor) ->
        exists res,
          extractStep w (ImageSettled i loaded)
          = {| store := cacheSet url res (store w);
               extractTasks :=
                 <[i := Finished (Return res)]> (extractTasks w) |}).
Proof.
  cbn zeta. pose proof (extractRun_inOrder events) as Horder.
  set (w := extractRun initialExtractWorld events) in *.
  split; [|split; [|split; [|split]]].
  - intros i err Hi.
    exact (Forall_lookup_1 _ _ _ _ Horder Hi).
  - intros flagUrl fallbackArg Hno. cbn [extractStep].
    by rewrite (extractBegin_no_url _ _ _ Hno).
  - intros i url fallbackColor loaded err Hi Hfail.
    pose proof (Forall_lookup_1 _ _ _ _ Horder Hi) as Hu. cbn in Hu.
    assert (Hstep : extractStep w (ImageSettled i loaded)
                    = {| store := cacheSet url {| primary := fallbackColor;
                                                  secondary := None |}
                                    (store w);
                         extractTasks :=
                           <[i := Finished (Return
                                    {| primary := fallbackColor;
                                       secondary := None |})]>
                             (extractTasks w) |}).
    { cbn [extractStep]. rewrite Hi.
      by rewrite (extractResume_failed _ _ _ _ _ Hfail). }
    rewrite Hstep. cbn [store extractTasks].
    split; [apply list_lookup_insert_eq; by eapply lookup_lt_Some|].
    split; [done|].
    intros later fallbackArg'.
    match goal with |- context [extractRun ?x later] => set (w' := x) end.
    assert (Hstored : flagColorCache (store w') !! url
                      = Some {| primary := fallbackColor; secondary := None |})
      by apply lookup_insert_eq.
    destruct (extractRun_keeps_cached url w' later) as [cached Hcached];
      [by eexists|].
    exists cached. split; [done|]. split; [by apply call_hits|].
    intros Hquiet.
    destruct (extractRun_settled url _ w' later Hstored Hquiet)
      as (Hsame & _ & Hreq).
    split; [congruence|]. by rewrite Hreq.
  - intros url fallbackArg Hu Hmiss. cbn [extractStep].
    unfold extractBegin. by rewrite Hu, Hmiss.
  - intros i url fallbackColor loaded Hi. cbn [extractStep]. rewrite Hi.
    destruct (extractResume_returns url fallbackColor loaded (store w))
      as (res & ->). by exists res.
Qed.

Definition brokenHost (url : string) : Completion Image :=
  Throw "error event".

Lemma extract_never_raises_and_caches_failure_witness :
  let w := extractRun initialExtractWorld
             [CallExtract (Some "flags/pe.svg") (Some "#C77442");
              ImageSettled 0 (brokenHost "flags/pe.svg")] in
  extractTasks w = [Finished (Return (fallbackResult (Some "#C77442")))]
  /\ forall later fallbackArg',
       let w'' := extractRun w later in
       extractStep w'' (CallExtract (Some "flags/pe.svg") fallbackArg')
       = {| store := store w'';
            extractTasks :=
              extractTasks w''
              ++ [Finished (Return (fallbackResult (Some "#C77442")))] |}
       /\ requestsFor "flags/pe.svg" (store w'') = 1%nat.
Proof.
  intros w. split; [reflexivity|]. intros later fallbackArg'.
  destruct (extract_never_raises_and_caches_failure
              [CallExtract (Some "flags/pe.svg") (Some "#C77442")])
    as (_ & _ & H & _).
  destruct (H 0%nat "flags/pe.svg" "#C77442" (brokenHost "flags/pe.svg")
              "error event" eq_refl eq_refl)
    as (_ & _ & Hlater).
  destruct (Hlater later fallbackArg') as (cached & _ & Hcall & Hquiet).
  destruct Hquiet as [-> Hreq].
  { intros (j & fb & Hj). by destruct j as [|[|]]. }
  split; [exact Hcall | exact Hreq].
Defined.

(** A flag of one red. *)
Definition redFlag : Image :=
  {| width := 2; height := 1;
     getImageData := fun _ _ =>
       Return [ {| red := xc8; green := x0a; blue := x0a; alpha := xff |};
                {| red := xc8; green := x0a; blue := x0a; alpha := xff |} ] |}.

(** C5 (as the claim has it) fails when calls overlap.  Two calls with
    one reference both miss the cache and both ask for the image; the
    load of the first fails and the fallback is stored; the load of the
    second succeeds and its result replaces the stored fallback, so that
    a later call returns a sampled colour and not the cached fallback. *)
Lemma overlapping_call_replaces_cached_fallback :
  let failure := fallbackResult (Some "#C77442") in
  let w1 := extractRun initialExtractWorld
              [CallExtract (Some "flags/pe.svg") (Some "#C77442");
               CallExtract (Some "flags/pe.svg") (Some "#C77442");
               ImageSettled 0 (Throw "error event")] in
  let w2 := extractRun w1
              [ImageSettled 1 (Return redFlag);
               CallExtract (Some "flags/pe.svg") (Some "#C77442")] in
  extractTasks w1 !! 0%nat = Some (Finished (Return failure))
  /\ flagColorCache (store w1) !! "flags/pe.svg" = Some failure
  /\ imageRequests (store w2) = ["flags/pe.svg"; "flags/pe.svg"]
  /\ extractTasks w2 !! 2%nat
     = Some (Finished (Return {| primary := "#D01010"; secondary := None |}))
  /\ ~ (extractTasks w2 !! 2%nat = Some (Finished (Return failure))).
Proof.
  cbn zeta. split; [reflexivity|]. split; [vm_compute; reflexivity|].
  split; [reflexivity|].
  assert (H : extractTasks
                (extractRun
                   (extractRun initialExtractWorld
                      [CallExtract (Some "flags/pe.svg") (Some "#C77442");
                       CallExtract (Some "flags/pe.svg") (Some "#C77442");
                       ImageSettled 0 (Throw "error event")])
                   [ImageSettled 1 (Return redFlag);
                    CallExtract (Some "flags/pe.svg") (Some "#C77442")])
              !! 2%nat
              = Some (Finished (Return {| primary := "#D01010";
                                          secondary := None |})))
    by (vm_compute; reflexivity).
  split; [exact H|]. rewrite H. discriminate.
Qed.

(** ** The secondary colour is far from the primary *)

(** The centres of the eight buckets of a channel. *)
Definition centres : list float :=
  [16; 48; 80; 112; 144; 176; 208; 240]%float.

Definition isBucket (c : RGB) : Prop :=
  In (r c) centres /\ In (g c) centres /\ In (b c) centres.

Lemma quantize_channel_centre (x : byte) :
  In (Math_floor (byteNumber x / 32) * 32 + 32 / 2)%float centres.
Proof.
  destruct x; vm_compute; repeat (first [left; reflexivity | right]).
Qed.

Lemma quantize_bucket (x y z : byte) :
  isBucket (quantize {| r := byteNumber x; g := byteNumber y;
                        b := byteNumber z |} None).
Proof.
  unfold isBucket, quantize. cbn [r g b orDefault].
  repeat split; apply quantize_channel_centre.
Qed.

(** A bucket centre prints as two hex digits and parses back. *)
Lemma bucket_round_trip (c : RGB) :
  isBucket c -> hexToRgb (rgbToHex c) = Some c.
Proof.
  destruct c as [cr cg cb]. unfold isBucket, centres. cbn [r g b In].
  intros (Hr & Hg & Hb).
  repeat match goal with
  | H : _ \/ _ |- _ => destruct H as [H|H]
  | H : False |- _ => destruct H
  end; subst; vm_compute; reflexivity.
Qed.

Definition keysAreBuckets (m : list (RGB * nat)) : Prop :=
  Forall (fun e => isBucket (fst e)) m.

Lemma bucketsSet_keys key n m :
  isBucket key -> keysAreBuckets m -> keysAreBuckets (bucketsSet key n m).
Proof.
  intros Hk. unfold keysAreBuckets.
  induction m as [|[k n'] m IH]; intros Hm; cbn [bucketsSet].
  - constructor; [done | constructor].
  - apply Forall_cons in Hm as [Hk' Hm].
    destruct (rgbEqb k key); constructor; auto.
Qed.

Lemma countPixel_keys m px :
  keysAreBuckets m -> keysAreBuckets (countPixel m px).
Proof.
  intros Hm. unfold countPixel.
  repeat match goal with
  | |- context [if ?c then _ else _] => destruct c; [done|]
  end.
  apply bucketsSet_keys; [apply quantize_bucket | done].
Qed.

Lemma insertByCount_keys x m :
  isBucket (fst x) -> keysAreBuckets m -> keysAreBuckets (insertByCount x m).
Proof.
  intros Hx. unfold keysAreBuckets.
  induction m as [|y m IH]; intros Hm; cbn [insertByCount].
  - constructor; [done | constructor].
  - destruct (snd x <? snd y)%nat; [|by constructor].
    apply Forall_cons in Hm as [Hy Hm]. constructor; auto.
Qed.

Lemma sortByCount_keys m : keysAreBuckets m -> keysAreBuckets (sortByCount m).
Proof.
  unfold sortByCount. induction m as [|x m IH]; intros Hm; [done|].
  apply Forall_cons in Hm as [Hx Hm]. cbn [fold_right].
  apply insertByCount_keys; auto.
Qed.

(** Every colour of a ranking is a bucket centre in each channel. *)
Lemma sampleImageColors_buckets img colors :
  sampleImageColors img = Return colors -> Forall isBucket colors.
Proof.
  unfold sampleImageColors.
  destruct (getImageData img _ _) as [data|e]; [|done].
  cbn [bindC]. intros [= <-].
  apply Forall_take. apply Forall_map.
  apply sortByCount_keys.
  assert (Hfold : forall l m, keysAreBuckets m ->
                              keysAreBuckets (fold_left countPixel l m)).
  { induction l as [|px l IH]; intros m Hm; [done|].
    apply IH. by apply countPixel_keys. }
  apply Hfold. constructor.
Qed.

(** The property of a result: a secondary colour, if present, parses,
    as the primary colour does, and lies further than 40 from it. *)
Definition secondaryIsFar (res : FlagPaletteResult) : Prop :=
  forall s, secondary res = Some s ->
    exists c1 c2, hexToRgb (primary res) = Some c1
                  /\ hexToRgb s = Some c2
                  /\ (40 <? colorDistance c2 c1)%float = true.

Definition cacheIsFar (st : Store) : Prop :=
  forall url res, flagColorCache st !! url = Some res -> secondaryIsFar res.

Lemma fallbackResult_far fallbackArg : secondaryIsFar (fallbackResult fallbackArg).
Proof. intros s H. discriminate H. Qed.

Lemma freshResult_far colors fallbackArg :
  Forall isBucket colors -> secondaryIsFar (freshResult colors fallbackArg).
Proof.
  intros Hb s. unfold freshResult. cbn [primary secondary].
  set (p := choosePrimary colors (orDefault "#888888" fallbackArg)).
  unfold chooseSecondary.
  destruct (List.find _ colors) as [c2|] eqn:Hfind; [|done].
  intros [= <-]. destruct (find_some _ _ Hfind) as [Hin Hfar].
  exists p, c2. rewrite Forall_forall in Hb.
  assert (Hp : In p colors).
  { subst p. destruct colors; [done | by left]. }
  repeat split; [| |done]; apply bucket_round_trip, Hb;
    by apply list_elem_of_In.
Qed.

Lemma cacheSet_far url res st :
  secondaryIsFar res -> cacheIsFar st -> cacheIsFar (cacheSet url res st).
Proof.
  intros Hres Hst u r. unfold cacheSet. cbn [flagColorCache].
  destruct (decide (url = u)) as [->|Hne].
  - rewrite lookup_insert_eq. by intros [= <-].
  - rewrite lookup_insert_ne by done. apply Hst.
Qed.

Lemma extract_far loadImage flagUrl fallbackArg st :
  cacheIsFar st ->
  cacheIsFar (snd (extractFlagColors loadImage flagUrl fallbackArg st))
  /\ forall res,
       fst (extractFlagColors loadImage flagUrl fallbackArg st) = Return res ->
       secondaryIsFar res.
Proof.
  intros Hst.
  destruct (extract_cases loadImage flagUrl st)
    as [Hno | (u & -> & Hu & [(c & Hhit) | (Hmiss & [(e & Hs) | (cs & Hs)])])].
  - rewrite extract_no_url by done. split; [done|].
    intros res [= <-]. apply fallbackResult_far.
  - rewrite (extract_cached _ _ _ _ _ Hu Hhit). split; [done|].
    intros res [= <-]. by apply (Hst u).
  - rewrite (extract_failed _ _ _ _ _ Hu Hmiss Hs). split.
    + apply cacheSet_far; [apply fallbackResult_far | done].
    + intros res [= <-]. apply fallbackResult_far.
  - rewrite (extract_sampled _ _ _ _ _ Hu Hmiss Hs).
    assert (Hb : Forall isBucket cs).
    { unfold sampled in Hs. destruct (loadImage u) as [img|]; [|done].
      by apply (sampleImageColors_buckets img). }
    split.
    + apply cacheSet_far; [by apply freshResult_far | done].
    + intros res [= <-]. by apply freshResult_far.
Qed.

Lemma runExtracts_far calls st :
  cacheIsFar st -> cacheIsFar (runExtracts calls st).
Proof.
  revert st. induction calls as [|c calls IH]; intros st Hst; [done|].
  apply IH. by apply extract_far.
Qed.

Lemma find_first {A} (f : A -> bool) before c after :
  (forall x, In x before -> f x = false) -> f c = true ->
  List.find f (before ++ c :: after) = Some c.
Proof.
  intros Hbefore Hc. induction before as [|x before IH]; cbn [app List.find].
  - by rewrite Hc.
  - rewrite (Hbefore x) by (by left).
    apply IH. intros y Hy. apply Hbefore. by right.
Qed.

(** C6: whatever calls came before since the module was loaded, a call of
    [extractFlagColors] returns a result whose secondary colour, if there
    is one, is further than 40 from the primary.  When the ranking is
    computed anew, the primary is its first colour (or the fallback), the
    secondary is absent if no ranked colour is further than 40 from the
    primary, and otherwise it is the first ranked colour that is. *)
Theorem secondary_is_far_from_primary
    (history : list ExtractCall)
    (loadImage : string -> Completion Image)
    (flagUrl fallbackArg : option string) :
  let st := runExtracts history emptyStore in
  let far c p := (40 <? colorDistance c p)%float in
  (exists res,
     fst (extractFlagColors loadImage flagUrl fallbackArg st) = Return res
     /\ secondaryIsFar res)
  /\ forall url colors,
       flagUrl = Some url -> truthy url = true ->
       flagColorCache st !! url = None ->
       sampled loadImage url = Return colors ->
       let p := choosePrimary colors (orDefault "#888888" fallbackArg) in
       exists res,
         fst (extractFlagColors loadImage flagUrl fallbackArg st) = Return res
         /\ primary res = rgbToHex p
         /\ ((forall c, In c colors -> far c p = false) ->
             secondary res = None)
         /\ (forall before c after,
               colors = before ++ c :: after ->
               (forall x, In x before -> far x p = false) ->
               far c p = true ->
               secondary res = Some (rgbToHex c)).
Proof.
  cbn zeta. set (st := runExtracts history emptyStore).
  assert (Hst : cacheIsFar st).
  { apply runExtracts_far. intros url res H.
    unfold emptyStore in H. cbn [flagColorCache] in H.
    by rewrite lookup_empty in H. }
  split.
  - destruct (extract_returns loadImage flagUrl fallbackArg st)
      as (res & Hres).
    exists res. split; [done|].
    by apply (extract_far loadImage flagUrl fallbackArg st Hst).
  - intros url colors -> Hu Hmiss Hs.
    rewrite (extract_sampled _ _ _ _ _ Hu Hmiss Hs). cbn [fst].
    eexists. split; [reflexivity|].
    unfold freshResult. cbn [primary secondary].
    set (p := choosePrimary colors (orDefault "#888888" fallbackArg)).
    unfold chooseSecondary. repeat split.
    + intros Hnone.
      destruct (List.find _ colors) as [c|] eqn:Hfind; [|done].
      destruct (find_some _ _ Hfind) as [Hin Hfar].
      rewrite (Hnone c Hin) in Hfar. discriminate.
    + intros before c after -> Hbefore Hc.
      by rewrite (find_first _ before c after Hbefore Hc).
Qed.

Definition opaque (cr cg cb : byte) : Pixel :=
  {| red := cr; green := cg; blue := cb; alpha := xff |}.

(** A flag of red, blue and a little green, and a flag of two reds one
    bucket apart. *)
Definition tricolour : Image :=
  {| width := 3; height := 2;
     getImageData := fun _ _ =>
       Return [opaque xc8 x0a x0a; opaque x0a x0a xc8; opaque xc8 x0c x0c;
               opaque xff xff xff; opaque x0a xc8 x0a; opaque x0c x0c xc8] |}.

Definition twoReds : Image :=
  {| width := 2; height := 1;
     getImageData := fun _ _ =>
       Return [opaque xc8 x0a x0a; opaque xe6 x0a x0a] |}.

Definition flagHost (url : string) : Completion Image :=
  if String.eqb url "tricolour.svg" then Return tricolour
  else if String.eqb url "reds.svg" then Return twoReds
  else Throw "error event".

Lemma secondary_is_far_from_primary_witness :
  (exists res,
     fst (extractFlagColors flagHost (Some "tricolour.svg") None emptyStore)
     = Return res
     /\ primary res = "#D01010" /\ secondary res = Some "#1010D0")
  /\ (exists res,
        fst (extractFlagColors flagHost (Some "reds.svg") None emptyStore)
        = Return res
        /\ primary res = "#D01010" /\ secondary res = None).
Proof.
  split.
  - destruct (secondary_is_far_from_primary [] flagHost
                (Some "tricolour.svg") None) as (_ & H).
    destruct (H "tricolour.svg"
                [mkRGB 208 16 16; mkRGB 16 16 208; mkRGB 16 208 16]
                eq_refl eq_refl eq_refl eq_refl)
      as (res & Hres & Hp & _ & Hfirst).
    exists res. repeat split; [done | done |].
    apply (Hfirst [mkRGB 208 16 16] (mkRGB 16 16 208) [mkRGB 16 208 16]
             eq_refl); [|reflexivity].
    intros x [<-|[]]. reflexivity.
  - destruct (secondary_is_far_from_primary [] flagHost
                (Some "reds.svg") None) as (_ & H).
    destruct (H "reds.svg" [mkRGB 208 16 16; mkRGB 240 16 16]
                eq_refl eq_refl eq_refl eq_refl)
      as (res & Hres & Hp & Hnone & _).
    exists res. repeat split; [done | done |].
    apply Hnone. intros c [<-|[<-|[]]]; reflexivity.
Defined.

End Extraction.

(** ** Progressive enrichment *)

Section EnrichmentProperties.

Import JsString GlobeView.
Local Open Scope string_scope.
Local Open Scope list_scope.
Local Open Scope nat_scope.

Variable flagMap : gmap string Lookup.
Variable getCountryPalette :
  nat -> ColorUtils.CountryRef -> ColorUtils.Options
  -> Completion ColorUtils.Palette.

Abbreviation enrichFeature := (GlobeView.enrichFeature flagMap getCountryPalette).
Abbreviation settle := (GlobeView.settle flagMap getCountryPalette).
Abbreviation processSlice := (GlobeView.processSlice flagMap getCountryPalette).
Abbreviation processBatch := (GlobeView.processBatch flagMap getCountryPalette).
Abbreviation processNext := (GlobeView.processNext flagMap getCountryPalette).
Abbreviation enrich := (GlobeView.enrich flagMap getCountryPalette).

(** *** The slice: each unit writes the feature it owns *)

Lemma lookup_settle (fs : list Feature) (i j : nat) :
  settle fs i !! j
  = if decide (i = j) then enrichFeature j <$> fs !! j else fs !! j.
Proof.
  unfold GlobeView.settle. destruct (fs !! i) as [f|] eqn:Hf.
  - destruct (decide (i = j)) as [<-|Hne].
    + rewrite list_lookup_insert_eq by (by eapply lookup_lt_Some).
      by rewrite Hf.
    + by rewrite list_lookup_insert_ne.
  - destruct (decide (i = j)) as [<-|Hne]; [by rewrite Hf | done].
Qed.

Lemma length_fold_settle (l : list nat) (fs : list Feature) :
  List.length (fold_left settle l fs) = List.length fs.
Proof.
  revert fs. induction l as [|i l IH]; intros fs; cbn [fold_left]; [done|].
  rewrite IH. unfold GlobeView.settle.
  destruct (fs !! i); [apply length_insert | done].
Qed.

Lemma lookup_fold_settle (l : list nat) (fs : list Feature) (j : nat) :
  NoDup l ->
  fold_left settle l fs !! j
  = if decide (j ∈ l) then enrichFeature j <$> fs !! j else fs !! j.
Proof.
  revert fs. induction l as [|i l IH]; intros fs Hnd; cbn [fold_left].
  - destruct (decide (j ∈ [])) as [Hin|]; [|done]. by apply elem_of_nil in Hin.
  - apply NoDup_cons in Hnd as [Hi Hnd]. rewrite (IH _ Hnd), lookup_settle.
    destruct (decide (j ∈ l)) as [Hjl|Hjl].
    + destruct (decide (i = j)) as [->|Hne]; [done|].
      destruct (decide (j ∈ i :: l)) as [|Hn]; [done|].
      exfalso. apply Hn. by right.
    + destruct (decide (i = j)) as [->|Hne].
      * destruct (decide (j ∈ j :: l)) as [|Hn]; [done|].
        exfalso. apply Hn. by left.
      * destruct (decide (j ∈ i :: l)) as [Hin|]; [|done].
        apply elem_of_cons in Hin as [->|Hin]; done.
Qed.

Lemma lookup_processSlice (fs : list Feature) (start stop j : nat) :
  processSlice fs start stop !! j
  = if decide (start <= j < stop) then enrichFeature j <$> fs !! j
    else fs !! j.
Proof.
  unfold GlobeView.processSlice.
  rewrite lookup_fold_settle by apply NoDup_seq.
  destruct (decide (j ∈ seq start (stop - start))) as [Hin|Hin];
    rewrite elem_of_seq in Hin;
    destruct (decide (start <= j < stop)); try done; lia.
Qed.

(** *** The batches *)

Definition sliceStop (st : Run) : nat :=
  Nat.min (List.length (features st)) (index st + concurrency).

Lemma processBatch_index st : index (processBatch st) = sliceStop st.
Proof. reflexivity. Qed.

Lemma processBatch_length st :
  List.length (features (processBatch st)) = List.length (features st).
Proof. apply length_fold_settle. Qed.

Lemma processBatch_lookup st j :
  features (processBatch st) !! j
  = if decide (index st <= j < sliceStop st)
    then enrichFeature j <$> features st !! j
    else features st !! j.
Proof. apply lookup_processSlice. Qed.

Lemma processBatch_published st :
  List.length (published (processBatch st)) = S (List.length (published st)).
Proof.
  unfold GlobeView.processBatch. cbn [published].
  rewrite length_app. cbn [List.length]. lia.
Qed.

(** The number of batches for [n] remaining features: one at least. *)
Definition batches (n : nat) : nat := S ((n - 1) / concurrency).

Lemma processNext_spec st :
  List.length (features (processNext st)) = List.length (features st)
  /\ List.length (published (processNext st))
     = List.length (published st) + batches (remaining st)
  /\ forall j,
       features (processNext st) !! j
       = if decide (index st <= j)
         then enrichFeature j <$> features st !! j
         else features st !! j.
Proof.
  funelim (processNext st); clear Heqcall Heq.
  - (* more features remain: [setTimeout(processNext, 0)] *)
    destruct H as (Hlen & Hpub & Hlook).
    rewrite processBatch_length in *. rewrite processBatch_index in *.
    rewrite processBatch_published in Hpub.
    assert (Hstop : sliceStop st = index st + concurrency)
      by (unfold sliceStop in *; lia).
    split; [done|]. split.
    + rewrite Hpub. unfold batches, remaining in *.
      rewrite processBatch_length, processBatch_index, Hstop.
      unfold concurrency in *.
      assert (Hdiv : (List.length (features st) - index st - 1) / 6
                     = S ((List.length (features st) - (index st + 6) - 1) / 6)).
      { replace (List.length (features st) - index st - 1)
          with ((List.length (features st) - (index st + 6) - 1) + 1 * 6)
          by lia.
        rewrite Nat.div_add by lia. lia. }
      rewrite Hdiv. lia.
    + intros j. rewrite Hlook, processBatch_lookup.
      destruct (decide (sliceStop st <= j)), (decide (index st <= j)),
        (decide (index st <= j < sliceStop st)); try done; lia.
  - (* the last batch *)
    rewrite processBatch_length in *. rewrite processBatch_index in *.
    assert (Hstop : sliceStop st = List.length (features st))
      by (unfold sliceStop in *; lia).
    split; [done|]. split.
    + rewrite processBatch_published. unfold batches, remaining.
      unfold sliceStop, concurrency in *.
      rewrite Nat.div_small by lia. lia.
    + intros j. rewrite processBatch_lookup, Hstop.
      destruct (decide (index st <= j)),
        (decide (index st <= j < List.length (features st)));
        try done; try lia.
      rewrite lookup_ge_None_2 by lia. done.
Qed.

(** *** Initial colours *)

Lemma orElse_truthy_l a b : truthyOpt a = true -> orElse a b = a.
Proof. destruct a as [s|]; [|done]. simpl. by intros ->. Qed.

Lemma orElse_truthy a b : truthyOpt b = true -> truthyOpt (orElse a b) = true.
Proof.
  intros Hb. destruct a as [s|]; [|done]. simpl.
  destruct (truthy s) eqn:Hs; [by simpl | done].
Qed.

Lemma CONTINENT_BASE_COLORS_truthy k v :
  tableGet k CONTINENT_BASE_COLORS = Some v -> truthy v = true.
Proof.
  unfold CONTINENT_BASE_COLORS. cbn [tableGet].
  repeat match goal with
  | |- context [String.eqb ?key k] =>
      destruct (String.eqb key k); [by intros [= <-] | ]
  end.
  discriminate.
Qed.

Lemma getBaseColorForFeature_truthy props :
  truthyOpt (getBaseColorForFeature props) = true.
Proof.
  unfold getBaseColorForFeature.
  match goal with |- context [tableGet ?k CONTINENT_BASE_COLORS] =>
    destruct (tableGet k CONTINENT_BASE_COLORS) as [v|] eqn:Hv end.
  - apply CONTINENT_BASE_COLORS_truthy in Hv. simpl. by rewrite Hv.
  - reflexivity.
Qed.

Lemma initFeature_spec index feature :
  color (initFeature index feature) = baseColor (initFeature index feature)
  /\ truthyOpt (baseColor (initFeature index feature)) = true.
Proof.
  unfold initFeature. cbn [color baseColor]. split; [done|].
  rewrite orElse_truthy_l; apply getBaseColorForFeature_truthy.
Qed.

(** *** One feature *)

(** The entry of the flag lookup that a feature's unit reads, if any. *)
Definition lookupOf (feature : Feature) : option Lookup :=
  if truthyOpt (iso3Of feature)
  then flagMap !! toUpperCase (orDefault "" (iso3Of feature))
  else None.

Lemma enrichFeature_spec i f0 :
  color f0 = baseColor f0 -> truthyOpt (baseColor f0) = true ->
  let f := enrichFeature i f0 in
  baseColor f = baseColor f0
  /\ truthyOpt (color f) = true
  /\ (color f = baseColor f0
      \/ exists lookup palette,
           lookupOf f0 = Some lookup
           /\ getCountryPalette i (countryObjOf lookup) (optionsOf f0)
              = Return palette
           /\ color f = Some (ColorUtils.accent palette))
  /\ (forall lookup err,
        lookupOf f0 = Some lookup ->
        getCountryPalette i (countryObjOf lookup) (optionsOf f0) = Throw err ->
        color f = baseColor f0).
Proof.
  intros Hcolor Hbase. cbn zeta.
  unfold GlobeView.enrichFeature, lookupOf.
  destruct (truthyOpt (iso3Of f0)); cbn [negb].
  2: { rewrite Hcolor. repeat split; auto; intros; discriminate. }
  destruct (flagMap !! _) as [lookup|].
  2: { rewrite Hcolor. repeat split; auto; intros; discriminate. }
  destruct (getCountryPalette i (countryObjOf lookup) (optionsOf f0))
    as [palette|err] eqn:Hcall; cbn [setColor color baseColor].
  - split; [done|]. split; [by apply orElse_truthy|]. split.
    + simpl. destruct (truthy (ColorUtils.accent palette)); [|by left].
      right. exists lookup, palette. by rewrite Hcall.
    + intros ? ? [= <-]. by rewrite Hcall.
  - repeat split; auto.
Qed.

(** C1: with 12 features and slices of 6 the colour set is published
    twice.  For every feature set, initialised as the globe does, the
    enrichment ends with every feature coloured by its own unit of work
    alone: its [baseColor] is the original one and its [color] is
    present and non-empty, equal either to the [accent] of the palette
    resolved for it or to its [baseColor]; it is the [baseColor] when the
    palette derivation of that feature throws, whatever happens to the
    others. *)
Theorem enrichment_colours_every_feature (raw : list Feature) :
  let initial := initFeatures raw in
  let final := enrich initial in
  (List.length raw = 12 -> List.length (published final) = 2)
  /\ List.length (features final) = List.length raw
  /\ forall i f0,
       initial !! i = Some f0 ->
       exists f,
         features final !! i = Some f
         /\ f = enrichFeature i f0
         /\ baseColor f = baseColor f0
         /\ truthyOpt (color f) = true
         /\ (color f = baseColor f0
             \/ exists lookup palette,
                  lookupOf f0 = Some lookup
                  /\ getCountryPalette i (countryObjOf lookup) (optionsOf f0)
                     = Return palette
                  /\ color f = Some (ColorUtils.accent palette))
         /\ (forall lookup err,
               lookupOf f0 = Some lookup ->
               getCountryPalette i (countryObjOf lookup) (optionsOf f0)
               = Throw err ->
               color f = baseColor f0).
Proof.
  cbn zeta. unfold GlobeView.enrich.
  set (st0 := {| features := initFeatures raw; index := 0; published := [] |}).
  destruct (processNext_spec st0) as (Hlen & Hpub & Hlook).
  assert (Hinit : List.length (initFeatures raw) = List.length raw)
    by apply length_imap.
  split; [|split].
  - intros H12. rewrite Hpub. unfold remaining, batches. subst st0.
    cbn [features index published]. rewrite Hinit, H12. reflexivity.
  - by rewrite Hlen.
  - intros i f0 Hf0. exists (enrichFeature i f0).
    split; [|split; [done|]].
    + rewrite Hlook. subst st0. cbn [features index].
      destruct (decide (0 <= i)); [|lia]. by rewrite Hf0.
    + unfold initFeatures in Hf0. rewrite list_lookup_imap in Hf0.
      destruct (raw !! i) as [f|]; [|done]. injection Hf0 as <-.
      destruct (initFeature_spec i f) as [Hc Hb].
      apply (enrichFeature_spec i _ Hc Hb).
Qed.

End EnrichmentProperties.

Section EnrichmentExample.

Import JsString GlobeView.
Local Open Scope string_scope.
Local Open Scope list_scope.
Local Open Scope nat_scope.

Definition boundary (code continentName : string) : Feature :=
  {| id := Some code;
     properties :=
       {| CONTINENT := Some continentName; continent := None;
          REGION_UN := None; region_un := None; REGION := None;
          region := None; ISO_A3 := None; ADM0_A3 := None; iso_a3 := None |};
     color := None; baseColor := None |}.

(** Twelve features: two slices. *)
Definition twelveFeatures : list Feature :=
  [ boundary "per" "Americas"; boundary "CHL" "Americas";
    boundary "XXX" "Seven seas"; boundary "FRA" "Europe";
    boundary "KEN" "Africa"; boundary "JPN" "Asia";
    boundary "PER" "Americas"; boundary "CHL" "Americas";
    boundary "NZL" "Oceania"; boundary "FRA" "Europe";
    boundary "KEN" "Africa"; boundary "JPN" "Asia" ].

Definition withFlag (regionName url : string) : Lookup :=
  {| lookupRegion := Some regionName;
     lookupFlags := Some {| ColorUtils.svg := Some url;
                            ColorUtils.png := None |} |}.

Definition someFlags : gmap string Lookup :=
  <["PER" := withFlag "Americas" "tricolour.svg"]>
  (<["CHL" := withFlag "Americas" "reds.svg"]>
  (<["FRA" := withFlag "Europe" "missing.svg"]> ∅)).

(** The palette of each feature as the module derives it from a fresh
    cache, except that the derivation for the feature at position 1
    throws. *)
Definition somePalettes (i : nat) (country : ColorUtils.CountryRef)
    (options : ColorUtils.Options) : Completion ColorUtils.Palette :=
  if Nat.eqb i 1 then Throw "TypeError"
  else fst (ColorUtils.getCountryPalette flagHost (Some country) options
              ColorUtils.emptyStore).

Lemma enrichment_colours_every_feature_witness :
  let final := enrich someFlags somePalettes (initFeatures twelveFeatures) in
  List.length (published final) = 2
  /\ List.length (features final) = 12
  /\ (exists f, features final !! 1 = Some f /\ color f = Some "#32A189")
  /\ List.map color (features final)
     = [ Some "#D01010"; Some "#32A189"; Some "#B1C4BB"; Some "#C77442";
         Some "#79B957"; Some "#F4CE29"; Some "#D01010"; Some "#D01010";
         Some "#C77442"; Some "#C77442"; Some "#79B957"; Some "#F4CE29" ].
Proof.
  destruct (enrichment_colours_every_feature someFlags somePalettes
              twelveFeatures) as (Hcount & Hlen & Heach).
  split; [exact (Hcount eq_refl)|]. split; [exact Hlen|]. split.
  - destruct (Heach 1 (initFeature 1 (boundary "CHL" "Americas")) eq_refl)
      as (f & Hf & _ & _ & _ & _ & Hthrow).
    exists f. split; [exact Hf|].
    exact (Hthrow (withFlag "Americas" "reds.svg") "TypeError"
             eq_refl eq_refl).
  - vm_compute. reflexivity.
Defined.

End EnrichmentExample.


(** * Further properties of the code *)

(** ** Colours with byte channels *)

Section ByteColors.

Import JsString JsNumber ColorUtils.
Local Open Scope string_scope.

(** A colour whose three channels are integers from 0 to 255. *)
Definition isByteColor (c : RGB) : Prop :=
  exists x y z : byte,
    c = {| r := byteNumber x; g := byteNumber y; b := byteNumber z |}.

Lemma ofZ_byte (n : Z) : 0 <= n < 256 -> exists x : byte, ofZ n = byteNumber x.
Proof.
  intros Hn. destruct (Byte.of_N (Z.to_N n)) as [x|] eqn:Hx.
  - exists x. unfold byteNumber. apply Byte.to_of_N in Hx.
    rewrite Hx. f_equal. lia.
  - apply Byte.of_N_None_iff in Hx. lia.
Qed.

Lemma land_255_range (n : Z) : 0 <= Z.land n 255 < 256.
Proof.
  change 255 with (Z.ones 8). rewrite Z.land_ones by lia.
  apply Z.mod_pos_bound. lia.
Qed.

Lemma hexToRgb_isByteColor hex c : hexToRgb hex = Some c -> isByteColor c.
Proof.
  unfold hexToRgb.
  destruct (negb _); [done|]. intros [= <-].
  destruct (ofZ_byte _ (land_255_range (Z.shiftr
              (ToInt32 (parseInt16 (trim (replaceFirstWithEmpty "#" hex)))) 16)))
    as [x Hx].
  destruct (ofZ_byte _ (land_255_range (Z.shiftr
              (ToInt32 (parseInt16 (trim (replaceFirstWithEmpty "#" hex)))) 8)))
    as [y Hy].
  destruct (ofZ_byte _ (land_255_range
              (ToInt32 (parseInt16 (trim (replaceFirstWithEmpty "#" hex))))))
    as [z Hz].
  exists x, y, z. by rewrite Hx, Hy, Hz.
Qed.

(** The two digits a byte channel prints, and their values. *)
Lemma hexDigit_value (v : Z) :
  0 <= v < 16 -> hexValue (toUpperCaseChar (hexDigit v)) = Some v.
Proof.
  intros Hv.
  assert (Hcases : v = 0 \/ v = 1 \/ v = 2 \/ v = 3 \/ v = 4 \/ v = 5 \/ v = 6
                   \/ v = 7 \/ v = 8 \/ v = 9 \/ v = 10 \/ v = 11 \/ v = 12
                   \/ v = 13 \/ v = 14 \/ v = 15) by lia.
  repeat (destruct Hcases as [->|Hcases]; [reflexivity|]).
  by subst.
Qed.

Lemma byteNumber_ofZ (x : byte) :
  byteNumber x = ofZ (Z.of_N (Byte.to_N x))
  /\ 0 <= Z.of_N (Byte.to_N x) < 256.
Proof.
  split; [done|]. pose proof (Byte.to_N_bounded x). lia.
Qed.

(** Six hexadecimal digits after [#] parse to the channels they spell. *)
Lemma hexToRgb_six_digits c1 c2 c3 c4 c5 c6 v1 v2 v3 v4 v5 v6 :
  hexValue c1 = Some v1 -> hexValue c2 = Some v2 -> hexValue c3 = Some v3 ->
  hexValue c4 = Some v4 -> hexValue c5 = Some v5 -> hexValue c6 = Some v6 ->
  hexToRgb (String "#" (String c1 (String c2 (String c3 (String c4
              (String c5 (String c6 EmptyString)))))))
  = Some {| r := ofZ (v1 * 16 + v2); g := ofZ (v3 * 16 + v4);
            b := ofZ (v5 * 16 + v6) |}.
Proof.
  intros H1 H2 H3 H4 H5 H6.
  set (digits := String c1 (String c2 (String c3 (String c4
                   (String c5 (String c6 EmptyString)))))).
  assert (Hall : allHexDigits digits = true).
  { unfold digits. cbn [allHexDigits]. unfold isHexDigit.
    by rewrite H1, H2, H3, H4, H5, H6. }
  pose proof (hexValue_range _ _ H1). pose proof (hexValue_range _ _ H2).
  pose proof (hexValue_range _ _ H3). pose proof (hexValue_range _ _ H4).
  pose proof (hexValue_range _ _ H5). pose proof (hexValue_range _ _ H6).
  destruct (hexValue_not_sign _ _ H1) as (Hm & Hp & _ & _).
  destruct (hexValue_not_sign _ _ H2) as (_ & _ & Hx & HX).
  pose proof (hexValue_not_space _ _ H1) as Hsp.
  set (num := ((((v1 * 16 + v2) * 16 + v3) * 16 + v4) * 16 + v5) * 16 + v6).
  assert (Hparse : parseInt16 digits = Some num).
  { unfold parseInt16, digits. cbn [trimStart]. rewrite Hsp, Hm, Hp.
    unfold strip0x. rewrite Hx, HX, andb_false_r.
    cbn [hexPrefix]. rewrite H1. cbn [hexPrefix]. rewrite H2.
    cbn [hexPrefix]. rewrite H3. cbn [hexPrefix]. rewrite H4.
    cbn [hexPrefix]. rewrite H5. cbn [hexPrefix]. rewrite H6.
    cbn [hexPrefix]. reflexivity. }
  assert (Htrim : trim digits = digits).
  { unfold trim, digits. cbn [trimStart]. rewrite Hsp.
    by apply trimEnd_hexDigits. }
  unfold hexToRgb. cbn [replaceFirstWithEmpty].
  rewrite Ascii.eqb_refl. fold digits. rewrite Htrim, Hparse.
  unfold digits at 1. cbn [String.length Nat.eqb negb].
  assert (Hnum : 0 <= num < 2 ^ 24) by (unfold num; lia).
  assert (Hint : ToInt32 (Some num) = num).
  { unfold ToInt32. rewrite Z.mod_small; lia. }
  rewrite Hint.
  change 255 with (Z.ones 8). rewrite !Z.land_ones, !Z.shiftr_div_pow2 by lia.
  replace ((num / 2 ^ 16) mod 2 ^ 8) with (v1 * 16 + v2)
    by (unfold num; change (2 ^ 16) with 65536; change (2 ^ 8) with 256;
        Z.div_mod_to_equations; lia).
  replace ((num / 2 ^ 8) mod 2 ^ 8) with (v3 * 16 + v4)
    by (unfold num; change (2 ^ 8) with 256; Z.div_mod_to_equations; lia).
  replace (num mod 2 ^ 8) with (v5 * 16 + v6)
    by (unfold num; change (2 ^ 8) with 256; Z.div_mod_to_equations; lia).
  reflexivity.
Qed.

(** The printed form of a byte colour. *)
Definition byteDigits (x : byte) : string :=
  let n := Z.of_N (Byte.to_N x) in
  String (toUpperCaseChar (hexDigit (n / 16)))
    (String (toUpperCaseChar (hexDigit (n mod 16))) EmptyString).

Lemma rgbToHex_bytes (x y z : byte) :
  rgbToHex {| r := byteNumber x; g := byteNumber y; b := byteNumber z |}
  = String "#" (String.append (byteDigits x)
                  (String.append (byteDigits y) (byteDigits z))).
Proof.
  unfold rgbToHex. cbn [r g b].
  destruct (byteNumber_ofZ x) as [-> Hx].
  destruct (byteNumber_ofZ y) as [-> Hy].
  destruct (byteNumber_ofZ z) as [-> Hz].
  rewrite !toHex_byte by done.
  unfold toUpperCase, byteDigits. cbv [String.append]. cbn [JsString.map].
  reflexivity.
Qed.

Lemma byteColor_round_trip (x y z : byte) :
  let c := {| r := byteNumber x; g := byteNumber y; b := byteNumber z |} in
  wellFormedHex (rgbToHex c) = true /\ hexToRgb (rgbToHex c) = Some c.
Proof.
  cbn zeta. rewrite rgbToHex_bytes.
  destruct (byteNumber_ofZ x) as [Ex Hx].
  destruct (byteNumber_ofZ y) as [Ey Hy].
  destruct (byteNumber_ofZ z) as [Ez Hz].
  set (nx := Z.of_N (Byte.to_N x)) in *.
  set (ny := Z.of_N (Byte.to_N y)) in *.
  set (nz := Z.of_N (Byte.to_N z)) in *.
  assert (Hd : forall n, 0 <= n < 256 ->
                 0 <= n / 16 < 16 /\ 0 <= n mod 16 < 16
                 /\ n / 16 * 16 + n mod 16 = n)
    by (intros n Hn; Z.div_mod_to_equations; lia).
  destruct (Hd nx Hx) as (Hx1 & Hx2 & Hx3).
  destruct (Hd ny Hy) as (Hy1 & Hy2 & Hy3).
  destruct (Hd nz Hz) as (Hz1 & Hz2 & Hz3).
  unfold byteDigits. fold nx ny nz. cbv [String.append].
  split.
  - unfold wellFormedHex. rewrite Ascii.eqb_refl.
    unfold sixHexDigits. cbn [String.length Nat.eqb allHexDigits andb].
    unfold isHexDigit. by rewrite !hexDigit_value.
  - rewrite (hexToRgb_six_digits _ _ _ _ _ _ _ _ _ _ _ _
               (hexDigit_value _ Hx1) (hexDigit_value _ Hx2)
               (hexDigit_value _ Hy1) (hexDigit_value _ Hy2)
               (hexDigit_value _ Hz1) (hexDigit_value _ Hz2)).
    by rewrite Hx3, Hy3, Hz3, Ex, Ey, Ez.
Qed.

(** X1: whatever string [hexToRgb] accepts (any string of six characters
    once [#] and outer white space are gone, hexadecimal or not), the
    colour it returns has three integer channels from 0 to 255; that
    colour prints as a well-formed [#RRGGBB] string, and the string parses
    back to the same colour. *)
Theorem hexToRgb_gives_byte_colors (hex : string) (c : RGB)
    (H : hexToRgb hex = Some c) :
  isByteColor c
  /\ wellFormedHex (rgbToHex c) = true
  /\ hexToRgb (rgbToHex c) = Some c.
Proof.
  pose proof (hexToRgb_isByteColor _ _ H) as Hb. split; [done|].
  destruct Hb as (x & y & z & ->). apply byteColor_round_trip.
Qed.

Lemma hexToRgb_gives_byte_colors_witness :
  isByteColor (mkRGB 0 0 0)
  /\ wellFormedHex (rgbToHex (mkRGB 0 0 0)) = true
  /\ hexToRgb (rgbToHex (mkRGB 0 0 0)) = Some (mkRGB 0 0 0).
Proof. exact (hexToRgb_gives_byte_colors "tomato" (mkRGB 0 0 0) eq_refl). Defined.

End ByteColors.


(** ** Colour arithmetic on byte colours *)

Section ColorArithmetic.

Import JsString JsNumber ColorUtils.
Local Open Scope string_scope.

Lemma quantize_centre_fixed (v : float) :
  In v centres -> (Math_floor (v / 32) * 32 + 32 / 2)%float = v.
Proof.
  unfold centres. cbn [In]. intros H.
  repeat (destruct H as [<-|H]; [vm_compute; reflexivity|]). done.
Qed.

(** X2: quantizing with the default step sends every byte colour to a
    colour whose channels are bucket centres (16, 48, ..., 240), and is
    idempotent: quantizing the result again changes nothing. *)
Theorem quantize_idempotent (c : RGB) (H : isByteColor c) :
  isBucket (quantize c None)
  /\ quantize (quantize c None) None = quantize c None.
Proof.
  destruct H as (x & y & z & ->).
  pose proof (quantize_bucket x y z) as Hb. split; [done|].
  destruct Hb as (Hr & Hg & Hb).
  revert Hr Hg Hb. generalize (quantize {| r := byteNumber x;
    g := byteNumber y; b := byteNumber z |} None).
  intros [qr qg qb]. cbn [r g b]. intros Hr Hg Hb.
  unfold quantize. cbn [r g b orDefault].
  by rewrite !quantize_centre_fixed.
Qed.

Lemma quantize_idempotent_witness :
  isBucket (quantize (mkRGB 199 116 66) None)
  /\ quantize (quantize (mkRGB 199 116 66) None) None
     = quantize (mkRGB 199 116 66) None.
Proof.
  apply quantize_idempotent. exists xc7, x74, x42. reflexivity.
Defined.

Lemma channel_square_sym (x y : byte) :
  ((byteNumber x - byteNumber y) * (byteNumber x - byteNumber y)
   = (byteNumber y - byteNumber x) * (byteNumber y - byteNumber x))%float.
Proof. destruct x; destruct y; vm_compute; reflexivity. Qed.

Lemma channel_self_zero (x : byte) :
  ((byteNumber x - byteNumber x) * (byteNumber x - byteNumber x) = 0)%float.
Proof. destruct x; vm_compute; reflexivity. Qed.

(** X3: on byte colours [colorDistance] is symmetric and the distance of
    a colour to itself is 0. *)
Theorem colorDistance_symmetric (a c : RGB)
    (Ha : isByteColor a) (Hc : isByteColor c) :
  colorDistance a c = colorDistance c a /\ colorDistance a a = 0%float.
Proof.
  destruct Ha as (x1 & y1 & z1 & ->). destruct Hc as (x2 & y2 & z2 & ->).
  unfold colorDistance. cbn [r g b]. split.
  - by rewrite (channel_square_sym x1 x2), (channel_square_sym y1 y2),
      (channel_square_sym z1 z2).
  - rewrite !channel_self_zero. vm_compute. reflexivity.
Qed.

Lemma colorDistance_symmetric_witness :
  colorDistance (mkRGB 208 16 16) (mkRGB 16 16 208)
  = colorDistance (mkRGB 16 16 208) (mkRGB 208 16 16)
  /\ colorDistance (mkRGB 208 16 16) (mkRGB 208 16 16) = 0%float.
Proof.
  apply colorDistance_symmetric.
  - exists xd0, x10, x10. reflexivity.
  - exists x10, x10, xd0. reflexivity.
Defined.

(** The channel formulas of [lighten] and [darken] at amounts 0 and 1. *)
Lemma lighten_channel_0 (x : byte) :
  (byteNumber x + (255 - byteNumber x) * 0 = byteNumber x)%float.
Proof. destruct x; vm_compute; reflexivity. Qed.

Lemma darken_channel_0 (x : byte) :
  (byteNumber x * (1 - 0) = byteNumber x)%float.
Proof. destruct x; vm_compute; reflexivity. Qed.

Lemma lighten_channel_1 (x : byte) :
  (byteNumber x + (255 - byteNumber x) * 1 = 255)%float.
Proof. destruct x; vm_compute; reflexivity. Qed.

Lemma darken_channel_1 (x : byte) : (byteNumber x * (1 - 1) = 0)%float.
Proof. destruct x; vm_compute; reflexivity. Qed.

(** X4: for every colour string that parses, lightening or darkening by 0
    gives the colour back in its [#RRGGBB] form, lightening by 1 gives
    white and darkening by 1 gives black. *)
Theorem lighten_darken_endpoints (color : string) (c : RGB)
    (H : hexToRgb color = Some c) :
  lighten color (Some 0%float) = rgbToHex c
  /\ darken color (Some 0%float) = rgbToHex c
  /\ lighten color (Some 1%float) = "#FFFFFF"
  /\ darken color (Some 1%float) = "#000000".
Proof.
  destruct (hexToRgb_isByteColor _ _ H) as (x & y & z & ->).
  unfold lighten, darken. rewrite H. cbn [orDefault r g b].
  rewrite !lighten_channel_0, !darken_channel_0, !lighten_channel_1,
    !darken_channel_1.
  repeat split; reflexivity.
Qed.

Lemma lighten_darken_endpoints_witness :
  lighten "#c77442" (Some 0%float) = "#C77442"
  /\ darken "#c77442" (Some 0%float) = "#C77442"
  /\ lighten "#c77442" (Some 1%float) = "#FFFFFF"
  /\ darken "#c77442" (Some 1%float) = "#000000".
Proof.
  exact (lighten_darken_endpoints "#c77442" (mkRGB 199 116 66) eq_refl).
Defined.

Lemma mix_channel_first (x y : byte) :
  (byteNumber x * 1 + byteNumber y * 0 = byteNumber x)%float.
Proof.
  assert (Hy : (byteNumber y * 0 = 0)%float)
    by (destruct y; vm_compute; reflexivity).
  rewrite Hy. destruct x; vm_compute; reflexivity.
Qed.

Lemma mix_channel_second (x y : byte) :
  (byteNumber x * 0 + byteNumber y * 1 = byteNumber y)%float.
Proof.
  assert (Hx : (byteNumber x * 0 = 0)%float)
    by (destruct x; vm_compute; reflexivity).
  rewrite Hx. destruct y; vm_compute; reflexivity.
Qed.

(** X5: for every two colour strings that parse, [mix] at ratio 0 gives
    the first colour and at ratio 1 the second, in [#RRGGBB] form; a ratio
    outside [0,1] is clamped, so that -1 acts as 0 and 2 as 1. *)
Theorem mix_endpoints (colorA colorB : string) (a c : RGB)
    (Ha : hexToRgb colorA = Some a) (Hc : hexToRgb colorB = Some c) :
  mix colorA colorB (Some 0%float) = rgbToHex a
  /\ mix colorA colorB (Some 1%float) = rgbToHex c
  /\ mix colorA colorB (Some (-1)%float) = rgbToHex a
  /\ mix colorA colorB (Some 2%float) = rgbToHex c.
Proof.
  destruct (hexToRgb_isByteColor _ _ Ha) as (x1 & y1 & z1 & ->).
  destruct (hexToRgb_isByteColor _ _ Hc) as (x2 & y2 & z2 & ->).
  unfold mix. rewrite Ha, Hc. cbn [orDefault r g b].
  change (Math_max 0 (Math_min 1 0))%float with 0%float.
  change (Math_max 0 (Math_min 1 1))%float with 1%float.
  change (Math_max 0 (Math_min 1 (-1)))%float with 0%float.
  change (Math_max 0 (Math_min 1 2))%float with 1%float.
  change (1 - 0)%float with 1%float. change (1 - 1)%float with 0%float.
  rewrite !mix_channel_first, !mix_channel_second.
  repeat split; reflexivity.
Qed.

Lemma mix_endpoints_witness :
  mix "#B1C4BB" "c77442" (Some 0%float) = "#B1C4BB"
  /\ mix "#B1C4BB" "c77442" (Some 1%float) = "#C77442"
  /\ mix "#B1C4BB" "c77442" (Some (-1)%float) = "#B1C4BB"
  /\ mix "#B1C4BB" "c77442" (Some 2%float) = "#C77442".
Proof.
  exact (mix_endpoints "#B1C4BB" "c77442" (mkRGB 177 196 187)
           (mkRGB 199 116 66) eq_refl eq_refl).
Defined.

End ColorArithmetic.


(** ** The ranking of dominant colours *)

Section Ranking.

Import JsString JsNumber ColorUtils.
Local Open Scope string_scope.
Local Open Scope list_scope.

(** The pixel passes the three filters of the loop. *)
Definition survives (px : Pixel) : bool :=
  let c := {| r := byteNumber (red px); g := byteNumber (green px);
              b := byteNumber (blue px) |} in
  negb (byteNumber (alpha px) <? 200)%float
  && negb (getSaturation c <? 0.15)%float
  && negb ((getLuma c <? 20)%float || (235 <? getLuma c)%float).

Definition histogram (data : list Pixel) : list (RGB * nat) :=
  fold_left countPixel data [].

Definition totalCount (m : list (RGB * nat)) : nat :=
  fold_right (fun e n => (snd e + n)%nat) O m.

Lemma countPixel_skipped m px : survives px = false -> countPixel m px = m.
Proof.
  unfold survives, countPixel.
  destruct (byteNumber (alpha px) <? 200)%float; [done|].
  destruct (getSaturation _ <? 0.15)%float; [done|].
  destruct (getLuma _ <? 20)%float; [done|].
  destruct (235 <? getLuma _)%float; [done|]. done.
Qed.

Lemma countPixel_counted m px :
  survives px = true ->
  countPixel m px
  = let q := quantize {| r := byteNumber (red px); g := byteNumber (green px);
                         b := byteNumber (blue px) |} None in
    bucketsSet q (S (orDefault O (bucketsGet q m))) m.
Proof.
  unfold survives, countPixel.
  destruct (byteNumber (alpha px) <? 200)%float; [done|].
  destruct (getSaturation _ <? 0.15)%float; [done|].
  destruct (getLuma _ <? 20)%float; [done|].
  destruct (235 <? getLuma _)%float; [done|]. done.
Qed.

Lemma totalCount_bucketsSet key m :
  totalCount (bucketsSet key (S (orDefault O (bucketsGet key m))) m)
  = S (totalCount m).
Proof.
  induction m as [|[k n] m IH]; cbn [bucketsSet bucketsGet]; [done|].
  destruct (rgbEqb k key); cbn [totalCount fold_right snd orDefault].
  - reflexivity.
  - fold (totalCount (bucketsSet key (S (orDefault O (bucketsGet key m))) m)).
    rewrite IH. fold (totalCount m). apply Nat.add_succ_r.
Qed.

Lemma totalCount_histogram data m :
  totalCount (fold_left countPixel data m)
  = (totalCount m + List.length (List.filter survives data))%nat.
Proof.
  revert m. induction data as [|px data IH]; intros m;
    cbn [fold_left List.filter]; [cbn [List.length]; lia|].
  rewrite IH. destruct (survives px) eqn:Hs.
  - rewrite (countPixel_counted _ _ Hs). cbn zeta.
    rewrite totalCount_bucketsSet. cbn [List.length]. lia.
  - by rewrite (countPixel_skipped _ _ Hs).
Qed.

(** Keys of the histogram differ from one another. *)
Definition keysDiffer (m : list (RGB * nat)) : Prop :=
  ForallOrdPairs (fun e1 e2 => rgbEqb (fst e1) (fst e2) = false) m.

Lemma bucketsSet_differs_from k key n m :
  rgbEqb k key = false ->
  Forall (fun e => rgbEqb k (fst e) = false) m ->
  Forall (fun e => rgbEqb k (fst e) = false) (bucketsSet key n m).
Proof.
  intros Hk. induction m as [|[k' n'] m IH]; intros Hm; cbn [bucketsSet].
  - constructor; [done | constructor].
  - apply Forall_cons in Hm as [Hk' Hm].
    destruct (rgbEqb k' key); constructor; auto.
Qed.

Lemma bucketsSet_keysDiffer key n m :
  keysDiffer m -> keysDiffer (bucketsSet key n m).
Proof.
  unfold keysDiffer. induction m as [|[k n'] m IH]; intros Hm;
    cbn [bucketsSet].
  - constructor; constructor.
  - inversion Hm as [|? ? Hhead Htail]; subst.
    destruct (rgbEqb k key) eqn:Hk.
    + constructor; [|done]. done.
    + constructor; [|by apply IH].
      by apply bucketsSet_differs_from.
Qed.

Lemma histogram_keysDiffer data m :
  keysDiffer m -> keysDiffer (fold_left countPixel data m).
Proof.
  revert m. induction data as [|px data IH]; intros m Hm; [done|].
  cbn [fold_left]. apply IH. destruct (survives px) eqn:Hs.
  - rewrite (countPixel_counted _ _ Hs). by apply bucketsSet_keysDiffer.
  - by rewrite (countPixel_skipped _ _ Hs).
Qed.

Lemma histogram_keys data : keysAreBuckets (histogram data).
Proof.
  unfold histogram.
  assert (Hfold : forall l m, keysAreBuckets m ->
                              keysAreBuckets (fold_left countPixel l m)).
  { induction l as [|px l IH]; intros m Hm; [done|].
    apply IH. by apply countPixel_keys. }
  apply Hfold. constructor.
Qed.

Lemma rgbEqb_bucket c : isBucket c -> rgbEqb c c = true.
Proof.
  destruct c as [cr cg cb]. unfold isBucket, centres, rgbEqb.
  cbn [r g b In]. intros (Hr & Hg & Hb).
  assert (Hrefl : forall v, In v centres -> (v =? v)%float = true).
  { unfold centres. cbn [In]. intros v H.
    repeat (destruct H as [<-|H]; [reflexivity|]). done. }
  by rewrite !Hrefl.
Qed.

Lemma keysDiffer_NoDup m :
  keysAreBuckets m -> keysDiffer m -> List.NoDup (List.map fst m).
Proof.
  unfold keysAreBuckets, keysDiffer. induction m as [|e m IH];
    intros Hb Hd; cbn [List.map]; [constructor|].
  apply Forall_cons in Hb as [He Hb].
  inversion Hd as [|? ? Hhead Htail]; subst.
  constructor; [|by apply IH].
  intros Hin. apply in_map_iff in Hin as (e' & Heq & Hin).
  rewrite List.Forall_forall in Hhead.
  pose proof (Hhead e' Hin) as Hne. rewrite Heq in Hne.
  by rewrite (rgbEqb_bucket _ He) in Hne.
Qed.

(** The sort: a permutation in descending order of count. *)
Definition countDescending (e1 e2 : RGB * nat) : Prop := (snd e2 <= snd e1)%nat.

Lemma insertByCount_perm x l : Permutation (insertByCount x l) (x :: l).
Proof.
  induction l as [|y l IH]; cbn [insertByCount]; [done|].
  destruct (snd x <? snd y)%nat; [|done].
  rewrite IH. apply perm_swap.
Qed.

Lemma sortByCount_perm l : Permutation (sortByCount l) l.
Proof.
  unfold sortByCount. induction l as [|x l IH]; cbn [fold_right]; [done|].
  rewrite insertByCount_perm. by constructor.
Qed.

Lemma insertByCount_sorted x l :
  StronglySorted countDescending l ->
  StronglySorted countDescending (insertByCount x l).
Proof.
  induction l as [|y l IH]; intros Hs; cbn [insertByCount].
  - constructor; constructor.
  - inversion Hs as [|? ? Hl Hy]; subst.
    destruct (snd x <? snd y)%nat eqn:Hlt.
    + constructor; [by apply IH|].
      apply Nat.ltb_lt in Hlt.
      rewrite List.Forall_forall. intros e He.
      apply (Permutation_in _ (insertByCount_perm x l)) in He.
      destruct He as [<-|He]; [unfold countDescending; lia|].
      rewrite List.Forall_forall in Hy. by apply Hy.
    + apply Nat.ltb_ge in Hlt. constructor; [done|].
      constructor; [unfold countDescending; lia|].
      rewrite List.Forall_forall in Hy. rewrite List.Forall_forall.
      intros e He. specialize (Hy e He). unfold countDescending in *. lia.
Qed.

Lemma sortByCount_sorted l : StronglySorted countDescending (sortByCount l).
Proof.
  unfold sortByCount. induction l as [|x l IH]; cbn [fold_right].
  - constructor.
  - by apply insertByCount_sorted.
Qed.

Lemma totalCount_perm l1 l2 :
  Permutation l1 l2 -> totalCount l1 = totalCount l2.
Proof.
  induction 1; cbn [totalCount fold_right] in *; try lia.
  fold (totalCount l) in *. fold (totalCount l') in *. lia.
Qed.

(** The size at which [sampleImageColors] draws the image: at most
    [MAX_PIXELS] pixels, at least one in each direction. *)
Definition sampleSize (img : Image) : float * float :=
  let ratio :=
    Math_sqrt (Math_min 1 (MAX_PIXELS / (width img * height img)))%float in
  (Math_max 1 (Math_floor (width img * ratio)%float),
   Math_max 1 (Math_floor (height img * ratio)%float)).

(** X6: when [sampleImageColors] returns a ranking, the canvas has
    delivered the pixels of the image drawn at its sample size, and the
    ranking is made from these pixels: it holds the first six keys, at
    most, of their histogram sorted by descending count.  The colours of
    the ranking are all different and each is a bucket centre in every
    channel; the counts of the histogram add up to the number of pixels
    that pass the alpha, saturation and luma filters; and the first
    colour of the ranking, the primary, has a count no smaller than any
    bucket's. *)
Theorem ranking_is_top_six (img : Image) (colors : list RGB)
    (H : sampleImageColors img = Return colors) :
  exists data,
    getImageData img (fst (sampleSize img)) (snd (sampleSize img))
    = Return data
    /\ let ranked := sortByCount (histogram data) in
       Permutation ranked (histogram data)
       /\ StronglySorted countDescending ranked
       /\ totalCount ranked = List.length (List.filter survives data)
       /\ colors = take 6 (List.map fst ranked)
       /\ (List.length colors <= 6)%nat
       /\ List.NoDup colors
       /\ Forall isBucket colors
       /\ forall c rest, colors = c :: rest ->
            exists n, In (c, n) ranked
                      /\ forall e, In e ranked -> (snd e <= n)%nat.
Proof.
  pose proof (sampleImageColors_buckets _ _ H) as Hbuckets.
  revert H. unfold sampleImageColors, sampleSize. cbn [fst snd].
  destruct (getImageData img _ _) as [data|e]; [|done].
  cbn [bindC]. intros [= <-].
  fold (histogram data). exists data. split; [reflexivity|].
  set (ranked := sortByCount (histogram data)). cbn zeta.
  assert (Hperm : Permutation ranked (histogram data))
    by apply sortByCount_perm.
  assert (Hsorted : StronglySorted countDescending ranked)
    by apply sortByCount_sorted.
  assert (Hnodup : List.NoDup (List.map fst ranked)).
  { apply (Permutation_NoDup (l := List.map fst (histogram data))).
    - symmetry. by apply Permutation_map.
    - apply keysDiffer_NoDup; [apply histogram_keys|].
      apply histogram_keysDiffer. constructor. }
  repeat split; try done.
  - rewrite (totalCount_perm _ _ Hperm). unfold histogram.
    by rewrite totalCount_histogram.
  - rewrite length_take. lia.
  - apply NoDup_ListNoDup.
    apply (sublist_NoDup _ (List.map fst ranked)); [|apply sublist_take].
    by apply NoDup_ListNoDup.
  - intros c rest Hc. destruct ranked as [|[c' n] ranked']; [done|].
    cbn [List.map take fst] in Hc. injection Hc as -> _.
    exists n. split; [by left|].
    inversion Hsorted as [|? ? _ Hall]; subst.
    intros e [<-|He]; [done|].
    rewrite List.Forall_forall in Hall. by apply Hall.
Qed.

End Ranking.

Section RankingExamples.

Import ColorUtils.

(** The three-colour flag: five of its six pixels pass the filters, in
    three buckets; red and blue have two pixels each and red comes
    first. *)
Lemma ranking_is_top_six_witness :
  exists data,
    getImageData tricolour (fst (sampleSize tricolour))
      (snd (sampleSize tricolour)) = Return data
    /\ List.length data = 6%nat
    /\ List.length (List.filter survives data) = 5%nat
    /\ totalCount (sortByCount (histogram data)) = 5%nat
    /\ take 6 (List.map fst (sortByCount (histogram data)))
       = [mkRGB 208 16 16; mkRGB 16 16 208; mkRGB 16 208 16].
Proof.
  destruct (ranking_is_top_six tricolour
              [mkRGB 208 16 16; mkRGB 16 16 208; mkRGB 16 208 16] eq_refl)
    as (data & Hdata & _ & _ & Htotal & Hcolors & _).
  exists data. split; [exact Hdata|].
  assert (Hpixels : List.length data = 6%nat
                    /\ List.length (List.filter survives data) = 5%nat).
  { cbn [tricolour getImageData] in Hdata. injection Hdata as <-.
    split; [reflexivity | vm_compute; reflexivity]. }
  destruct Hpixels as [Hlen Hsurvive].
  split; [exact Hlen|]. split; [exact Hsurvive|].
  split; [by rewrite Htotal | by rewrite <- Hcolors].
Defined.

End RankingExamples.


(** ** Extraction: dull images, memoisation, palettes *)

Section ExtractionMore.

Import JsString JsNumber ColorUtils.
Local Open Scope string_scope.
Local Open Scope list_scope.

(** A pixel that is mostly transparent, or grey (white and black
    included). *)
Definition dull (px : Pixel) : Prop :=
  (byteNumber (alpha px) <? 200)%float = true
  \/ (red px = green px /\ green px = blue px).

Lemma grey_not_saturated (x : byte) :
  (getSaturation {| r := byteNumber x; g := byteNumber x; b := byteNumber x |}
   <? 0.15)%float = true.
Proof. destruct x; vm_compute; reflexivity. Qed.

Lemma dull_skipped px : dull px -> survives px = false.
Proof.
  intros [Ha|[Hrg Hgb]]; unfold survives.
  - by rewrite Ha.
  - rewrite Hrg, Hgb, grey_not_saturated. cbn [negb andb].
    by rewrite andb_false_r.
Qed.

Lemma histogram_dull data : Forall dull data -> histogram data = [].
Proof.
  unfold histogram. induction 1 as [|px data Hpx _ IH]; [done|].
  cbn [fold_left]. by rewrite (countPixel_skipped _ _ (dull_skipped _ Hpx)).
Qed.

(** X7: when no pixel of the image passes the filters (every pixel is
    mostly transparent or grey) the ranking is empty and extraction,
    on a cache miss, returns and caches a result without secondary whose
    primary is the fallback colour in [#RRGGBB] form, or [#888888] when
    the fallback does not parse. *)
Theorem dull_image_gives_fallback_color
    (loadImage : string -> Completion Image) (url : string)
    (fallbackArg : option string) (st : Store) (img : Image)
    (Hurl : truthy url = true)
    (Hmiss : flagColorCache st !! url = None)
    (Hload : loadImage url = Return img)
    (Hdull : forall w h, exists data,
               getImageData img w h = Return data /\ Forall dull data) :
  let fallbackColor := orDefault "#888888" fallbackArg in
  let result :=
    {| primary := match hexToRgb fallbackColor with
                  | Some c => rgbToHex c
                  | None => "#888888"
                  end;
       secondary := None |} in
  sampleImageColors img = Return []
  /\ fst (extractFlagColors loadImage (Some url) fallbackArg st)
     = Return result
  /\ flagColorCache
       (snd (extractFlagColors loadImage (Some url) fallbackArg st)) !! url
     = Some result.
Proof.
  cbn zeta.
  assert (Hempty : sampleImageColors img = Return []).
  { unfold sampleImageColors.
    match goal with |- context [getImageData img ?w ?h] =>
      destruct (Hdull w h) as (data & -> & Hdata) end.
    cbn [bindC]. fold (histogram data). by rewrite (histogram_dull _ Hdata). }
  split; [done|].
  assert (Hs : sampled loadImage url = Return []).
  { unfold sampled. by rewrite Hload. }
  rewrite (extract_sampled _ _ _ _ _ Hurl Hmiss Hs). cbn [fst snd].
  assert (Hres : freshResult [] fallbackArg
                 = {| primary := match hexToRgb (orDefault "#888888" fallbackArg)
                                 with
                                 | Some c => rgbToHex c
                                 | None => "#888888"
                                 end;
                      secondary := None |}).
  { unfold freshResult. cbn [choosePrimary chooseSecondary List.find option_map].
    by destruct (hexToRgb (orDefault "#888888" fallbackArg)). }
  rewrite Hres. split; [done|]. apply lookup_insert_eq.
Qed.

(** A white flag with a transparent border. *)
Definition whiteFlag : Image :=
  {| width := 2; height := 2;
     getImageData := fun _ _ =>
       Return [ {| red := xff; green := xff; blue := xff; alpha := xff |};
                {| red := x80; green := x80; blue := x80; alpha := xff |};
                {| red := xc8; green := x0a; blue := x0a; alpha := x10 |};
                {| red := x00; green := x00; blue := x00; alpha := xff |} ] |}.

Lemma dull_image_gives_fallback_color_witness :
  sampleImageColors whiteFlag = Return []
  /\ fst (extractFlagColors (fun _ => Return whiteFlag) (Some "white.svg")
            (Some "c77442") emptyStore)
     = Return {| primary := "#C77442"; secondary := None |}.
Proof.
  destruct (dull_image_gives_fallback_color (fun _ => Return whiteFlag)
              "white.svg" (Some "c77442") emptyStore whiteFlag
              eq_refl eq_refl eq_refl) as (Hempty & Hres & _).
  - intros w h. eexists. split; [reflexivity|].
    repeat constructor; (by right) || (by left).
  - split; [exact Hempty | exact Hres].
Defined.

(** X8: the cache memoises.  Once a result is stored under an image
    reference and no call with that reference is still waiting for its
    image, the entry is never replaced and the image is never requested
    again, whatever calls and image loads follow, with whatever
    references; every later call with the reference returns the entry at
    once, whatever its fallback colour, and leaves the module state as it
    is. *)
Theorem extract_is_memoised (w : ExtractWorld) (url : string)
    (cached : FlagPaletteResult)
    (Hurl : truthy url = true)
    (Hcached : flagColorCache (store w) !! url = Some cached)
    (Hquiet : ~ waitsFor url w) :
  forall later,
    let w' := extractRun w later in
    flagColorCache (store w') !! url = Some cached
    /\ requestsFor url (store w') = requestsFor url (store w)
    /\ forall fallbackArg,
         extractStep w' (CallExtract (Some url) fallbackArg)
         = {| store := store w';
              extractTasks := extractTasks w' ++ [Finished (Return cached)] |}.
Proof.
  intros later. cbn zeta.
  destruct (extractRun_settled url cached w later Hcached Hquiet)
    as (Hsame & _ & Hreq).
  split; [done|]. split; [done|].
  intros fallbackArg. by apply call_hits.
Qed.

Lemma extract_is_memoised_witness :
  let w := extractRun initialExtractWorld
             [CallExtract (Some "tricolour.svg") None;
              ImageSettled 0 (Return tricolour)] in
  requestsFor "tricolour.svg" (store w) = 1%nat
  /\ forall later,
       let w' := extractRun w later in
       requestsFor "tricolour.svg" (store w') = 1%nat
       /\ forall fallbackArg,
            extractStep w' (CallExtract (Some "tricolour.svg") fallbackArg)
            = {| store := store w';
                 extractTasks :=
                   extractTasks w'
                   ++ [Finished (Return {| primary := "#D01010";
                                           secondary := Some "#1010D0" |})] |}.
Proof.
  intros w. split; [reflexivity|]. intros later.
  assert (Hcached : flagColorCache (store w) !! "tricolour.svg"
                    = Some {| primary := "#D01010";
                              secondary := Some "#1010D0" |})
    by (vm_compute; reflexivity).
  assert (Hquiet : ~ waitsFor "tricolour.svg" w).
  { intros (j & fb & Hj). destruct j as [|[|]]; discriminate. }
  destruct (extract_is_memoised w "tricolour.svg" _ eq_refl Hcached Hquiet
              later) as (_ & Hreq & Hcall).
  split; [exact Hreq | exact Hcall].
Defined.

End ExtractionMore.


(** ** The palette builder *)

Section PaletteBuilder.

Import JsString JsNumber ColorUtils.
Local Open Scope string_scope.
Local Open Scope list_scope.

Lemma palette_CONTINENT_BASE_COLORS_truthy k v :
  tableGet k CONTINENT_BASE_COLORS = Some v -> truthy v = true.
Proof.
  unfold CONTINENT_BASE_COLORS. cbn [tableGet].
  repeat match goal with
  | |- context [String.eqb ?key k] =>
      destruct (String.eqb key k); [by intros [= <-] | ]
  end.
  discriminate.
Qed.

(** A name that the table inherits is none of its own keys. *)
Lemma prototypeKey_not_own k :
  isPrototypeKey k = true -> tableGet k CONTINENT_BASE_COLORS = None.
Proof.
  unfold isPrototypeKey. intros H.
  apply existsb_exists in H as (x & Hin & Heq).
  apply String.eqb_eq in Heq as ->.
  unfold objectPrototypeKeys in Hin. cbn [In] in Hin.
  repeat (destruct Hin as [<-|Hin]; [reflexivity|]). done.
Qed.

(** The image reference that [getCountryPalette] reads off a country. *)
Definition flagReference (country : option CountryRef) : option string :=
  orElse (orElse (orElse (country ≫= flag) (country ≫= flagUrl))
                 ((country ≫= flags) ≫= svg))
         ((country ≫= flags) ≫= png).

(** The key at which [getCountryPalette] reads the continent table. *)
Definition regionKey (country : option CountryRef) : string :=
  orDefault "undefined" (country ≫= region).

(** X9: what [getCountryPalette] gives.  It throws in one case only:
    when no [baseColor] option is given and the region is the name of a
    member that the continent table inherits from [Object.prototype]
    (such as [toString]); the base colour is then that member, [mix]
    fails on it, and the call rejects after the extraction has run and
    has had its effect on the cache.  In every other case it returns a
    palette.  Its [base] is the option [baseColor] when given, otherwise
    the colour that the table has for the region, [#B1C4BB] when the
    table has none; this colour is not empty.  Its [accent] is non-empty
    whenever the fallback accent is (as with the default).  For a
    country without image reference the accent is the fallback accent,
    there is no secondary colour and the cache is left alone. *)
Theorem getCountryPalette_outcome
    (loadImage : string -> Completion Image) (country : option CountryRef)
    (options : Options) (st : Store) :
  let fallback := orDefault "#C77442" (fallbackAccent options) in
  let extraction :=
    extractFlagColors loadImage (flagReference country) (Some fallback) st in
  (baseColor options = None /\ isPrototypeKey (regionKey country) = true ->
   exists err,
     getCountryPalette loadImage country options st
     = (Throw err, snd extraction))
  /\ (baseColor options <> None \/ isPrototypeKey (regionKey country) = false ->
      exists p,
        getCountryPalette loadImage country options st
        = (Return p, snd extraction)
        /\ (forall chosen, baseColor options = Some chosen -> base p = chosen)
        /\ (baseColor options = None ->
            base p = orDefault "#B1C4BB"
                       (tableGet (regionKey country) CONTINENT_BASE_COLORS)
            /\ truthy (base p) = true)
        /\ (truthy fallback = true -> truthy (accent p) = true)
        /\ (truthyOpt (flagReference country) = false ->
            accent p = fallback /\ paletteSecondary p = None
            /\ snd extraction = st)).
Proof.
  cbn zeta. unfold getCountryPalette. fold (flagReference country).
  set (fallback := orDefault "#C77442" (fallbackAccent options)).
  destruct (extract_returns loadImage (flagReference country)
              (Some fallback) st) as (res & Hres).
  destruct (extractFlagColors loadImage (flagReference country)
              (Some fallback) st) as [out st'] eqn:Hcall.
  cbn [fst snd] in *. subst out. split.
  - intros [-> Hkey]. unfold continentBase. fold (regionKey country).
    rewrite (prototypeKey_not_own _ Hkey), Hkey. eauto.
  - intros Hgiven.
    assert (Hrest : forall p,
              accent p = (if truthy (primary res) then primary res
                          else fallback) ->
              paletteSecondary p = secondary res ->
              (truthy fallback = true -> truthy (accent p) = true)
              /\ (truthyOpt (flagReference country) = false ->
                  accent p = fallback /\ paletteSecondary p = None
                  /\ st' = st)).
    { intros p Hacc Hsec. split.
      - intros Hf. rewrite Hacc. by destruct (truthy (primary res)) eqn:Hp.
      - intros Hno. rewrite (extract_no_url _ _ _ _ Hno) in Hcall.
        injection Hcall as <- <-. rewrite Hacc, Hsec.
        cbn [fallbackResult primary secondary orDefault].
        by destruct (truthy fallback). }
    destruct (baseColor options) as [chosen|] eqn:Hoption.
    + eexists. split; [reflexivity|]. cbn [base].
      split; [by intros ? [= ->]|]. split; [done|]. by apply Hrest.
    + destruct Hgiven as [Hgiven|Hkey]; [done|].
      unfold continentBase. fold (regionKey country). rewrite Hkey.
      destruct (tableGet (regionKey country) CONTINENT_BASE_COLORS)
        as [v|] eqn:Hv.
      * rewrite (palette_CONTINENT_BASE_COLORS_truthy _ _ Hv).
        eexists. split; [reflexivity|]. cbn [base orDefault].
        split; [done|]. split; [|by apply Hrest].
        intros _. split; [done|].
        exact (palette_CONTINENT_BASE_COLORS_truthy _ _ Hv).
      * eexists. split; [reflexivity|]. cbn [base orDefault].
        split; [done|]. split; [|by apply Hrest]. by intros _.
Qed.

Lemma getCountryPalette_outcome_witness :
  (exists err,
     getCountryPalette brokenHost
       (Some {| region := Some "toString"; flag := None; flagUrl := None;
                flags := None |}) noOptions emptyStore
     = (Throw err, emptyStore))
  /\ (exists p,
        getCountryPalette brokenHost (Some countryWithoutFlag) noOptions
          emptyStore = (Return p, emptyStore)
        /\ base p = "#FF6B6B").
Proof.
  split.
  - exact (proj1 (getCountryPalette_outcome brokenHost
                    (Some {| region := Some "toString"; flag := None;
                             flagUrl := None; flags := None |})
                    noOptions emptyStore) (conj eq_refl eq_refl)).
  - destruct (proj2 (getCountryPalette_outcome brokenHost
                       (Some countryWithoutFlag) noOptions emptyStore)
                (or_intror eq_refl)) as (p & Hp & _ & Hbase & _).
    exists p. split; [exact Hp|]. exact (proj1 (Hbase eq_refl)).
Defined.

End PaletteBuilder.

(** ** Codes whose upper case is in range *)

Section UpperCaseRange.

Import JsString.

(** A character whose capital is in the range of the embedding: any but
    U+00B5, U+00DF and U+00FF, which [toUpperCaseChar] leaves as they
    are where the code gives U+039C, [SS] and U+0178.  On a string of
    such characters, as every ISO country code is, [toUpperCase] is the
    code's. *)
Definition capitalInRange (c : ascii) : bool :=
  negb ((code c =? 181) || (code c =? 223) || (code c =? 255))%N.

Fixpoint plainCode (s : string) : bool :=
  match s with
  | EmptyString => true
  | String c s' => capitalInRange c && plainCode s'
  end.

End UpperCaseRange.

(** ** Initial colours of the features *)

Section InitialColors.

Import JsString GlobeView.
Local Open Scope string_scope.
Local Open Scope list_scope.
Local Open Scope nat_scope.

(** The continent a feature names: the first non-empty property. *)
Definition continentOf (props : Properties) : option string :=
  orElse (orElse (orElse (orElse (orElse (CONTINENT props)
    (continent props)) (REGION_UN props)) (region_un props))
    (REGION props)) (region props).

(** The key at which [getBaseColorForFeature] reads the continent table.
    The embedding reads the table at its own keys; the properties below
    are stated for features whose key is none of the names that the
    table inherits from [Object.prototype], where the code reads the
    inherited member instead. *)
Definition continentKey (feature : Feature) : string :=
  orDefault "undefined" (continentOf (properties feature)).

Definition ownContinentKey (feature : Feature) : Prop :=
  isPrototypeKey (continentKey feature) = false.

(** The code of the feature, if it has one, is a string whose upper case
    the embedding represents. *)
Definition plainFeatureCode (feature : Feature) : Prop :=
  forall iso, iso3Of feature = Some iso -> plainCode iso = true.

(** X11: the initial colouring gives a feature, whose continent is not
    the name of a member of [Object.prototype], one colour as [color] and
    as [baseColor] alike: the colour that the continent table has for the
    first non-empty continent property of the feature, and [#B1C4BB]
    when the table has none.  The colour is not empty and does not depend
    on the position of the feature: the index-based palette
    [COUNTRY_COLORS] is never used. *)
Theorem initial_color_is_continent_color (index : nat) (feature : Feature)
    (Hkey : ownContinentKey feature) :
  let f := initFeature index feature in
  color f = baseColor f
  /\ baseColor f
     = Some (orDefault "#B1C4BB"
               (tableGet (continentKey feature) CONTINENT_BASE_COLORS))
  /\ truthyOpt (baseColor f) = true
  /\ baseColor f = baseColor (initFeature 0 feature).
Proof.
  cbn zeta. unfold initFeature. cbn [color baseColor].
  rewrite !orElse_truthy_l by apply getBaseColorForFeature_truthy.
  split; [done|]. split; [|split; [apply getBaseColorForFeature_truthy|done]].
  unfold getBaseColorForFeature, continentKey.
  fold (continentOf (properties feature)).
  destruct (tableGet _ CONTINENT_BASE_COLORS) as [v|] eqn:Hv; [|done].
  pose proof (CONTINENT_BASE_COLORS_truthy _ _ Hv) as Ht.
  cbn [orElse orDefault]. by rewrite Ht.
Qed.

Lemma initial_color_is_continent_color_witness :
  color (initFeature 7 (boundary "PER" "Americas")) = Some "#32A189"
  /\ color (initFeature 7 (boundary "XXX" "Seven seas")) = Some "#B1C4BB".
Proof.
  destruct (initial_color_is_continent_color 7 (boundary "PER" "Americas")
              eq_refl) as (Hc1 & Hb1 & _).
  destruct (initial_color_is_continent_color 7 (boundary "XXX" "Seven seas")
              eq_refl) as (Hc2 & Hb2 & _).
  split; [by rewrite Hc1, Hb1 | by rewrite Hc2, Hb2].
Defined.

End InitialColors.

(** ** Enrichment with the module's palette builder *)

Section EnrichmentWithPalettes.

Import JsString GlobeView.
Local Open Scope string_scope.
Local Open Scope list_scope.
Local Open Scope nat_scope.

Variable flagMap : gmap string Lookup.

(** The host and the cache that the call for the feature at a position
    meets. *)
Variable hosts : nat -> string -> Completion ColorUtils.Image.
Variable stores : nat -> ColorUtils.Store.

(** The awaited call of each feature, made by [getCountryPalette]. *)
Definition derivedPalette (i : nat) (country : ColorUtils.CountryRef)
    (options : ColorUtils.Options) : Completion ColorUtils.Palette :=
  fst (ColorUtils.getCountryPalette (hosts i) (Some country) options
         (stores i)).

Lemma derivedPalette_returns i country options :
  ColorUtils.fallbackAccent options = None ->
  is_Some (ColorUtils.baseColor options) ->
  exists p, derivedPalette i country options = Return p
            /\ truthy (ColorUtils.accent p) = true
            /\ forall chosen, ColorUtils.baseColor options = Some chosen ->
                              ColorUtils.base p = chosen.
Proof.
  intros Hopt [chosen Hchosen].
  unfold derivedPalette, ColorUtils.getCountryPalette.
  rewrite Hopt, Hchosen. cbn [orDefault].
  match goal with |- context [ColorUtils.extractFlagColors ?h ?u ?f ?s] =>
    destruct (extract_returns h u f s) as (res & Hres);
    destruct (ColorUtils.extractFlagColors h u f s) as [out st'] end.
  cbn [fst] in Hres. subst out. eexists. split; [reflexivity|].
  cbn [ColorUtils.accent ColorUtils.base]. split.
  - by destruct (truthy (ColorUtils.primary res)) eqn:Hp.
  - by intros ? [= ->].
Qed.

(** X10: when the palettes come from [getCountryPalette] itself and no
    feature names a member of [Object.prototype] as its continent (so
    that every base colour is a string of the continent table), the
    [catch] of the enrichment is never entered: every feature that the
    flag lookup knows ends with the non-empty [accent] of its palette,
    built on the feature's own base colour, and every other feature keeps
    its base colour.  The codes of the features are strings whose upper
    case the embedding represents (no U+00B5, U+00DF, U+00FF), so that
    the lookup of the embedding is the lookup of the code. *)
Theorem enrichment_uses_palette_accent (raw : list Feature)
    (Hkeys : Forall ownContinentKey raw)
    (Hcodes : Forall plainFeatureCode raw) :
  let initial := initFeatures raw in
  let final := features (enrich flagMap derivedPalette initial) in
  forall i f0,
    initial !! i = Some f0 ->
    exists f,
      final !! i = Some f
      /\ (lookupOf flagMap f0 = None -> color f = baseColor f0)
      /\ forall lookup,
           lookupOf flagMap f0 = Some lookup ->
           exists p,
             derivedPalette i (countryObjOf lookup) (optionsOf f0) = Return p
             /\ Some (ColorUtils.base p) = baseColor f0
             /\ truthy (ColorUtils.accent p) = true
             /\ color f = Some (ColorUtils.accent p).
Proof.
  cbn zeta. intros i f0 Hf0. unfold enrich.
  set (st0 := {| features := initFeatures raw; index := 0; published := [] |}).
  destruct (processNext_spec flagMap derivedPalette st0) as (_ & _ & Hlook).
  exists (enrichFeature flagMap derivedPalette i f0). split.
  { rewrite Hlook. subst st0. cbn [features index].
    destruct (decide (0 <= i)); [|lia]. by rewrite Hf0. }
  unfold initFeatures in Hf0. rewrite list_lookup_imap in Hf0.
  destruct (raw !! i) as [f|]; [|done]. injection Hf0 as <-.
  destruct (initFeature_spec i f) as [Hc Hb].
  unfold enrichFeature, lookupOf.
  destruct (truthyOpt (iso3Of (initFeature i f))); cbn [negb].
  2: { split; [done|]. intros; discriminate. }
  destruct (flagMap !! _) as [lookup|].
  2: { split; [done|]. intros; discriminate. }
  split; [intros; discriminate|]. intros ? [= <-].
  assert (Hsome : is_Some (baseColor (initFeature i f))).
  { destruct (baseColor (initFeature i f)); [by eexists|done]. }
  destruct (derivedPalette_returns i (countryObjOf lookup)
              (optionsOf (initFeature i f)) eq_refl Hsome)
    as (p & Hp & Hacc & Hbase).
  exists p. rewrite Hp. cbn [setColor color]. repeat split; try done.
  - destruct (baseColor (initFeature i f)) as [chosen|] eqn:Hchosen; [|done].
    by rewrite (Hbase chosen).
  - cbn [orElse]. by rewrite Hacc.
Qed.

End EnrichmentWithPalettes.

Section EnrichmentWithPalettesExample.

Import JsString GlobeView.
Local Open Scope string_scope.
Local Open Scope list_scope.
Local Open Scope nat_scope.

Lemma enrichment_uses_palette_accent_witness :
  exists f,
    features (enrich someFlags
                (derivedPalette (fun _ => flagHost)
                   (fun _ => ColorUtils.emptyStore))
                (initFeatures twelveFeatures)) !! 0 = Some f
    /\ color f = Some "#D01010".
Proof.
  destruct (enrichment_uses_palette_accent someFlags (fun _ => flagHost)
              (fun _ => ColorUtils.emptyStore) twelveFeatures
              ltac:(repeat constructor)
              ltac:(repeat constructor; by intros iso [= <-]) 0
              (initFeature 0 (boundary "per" "Americas")) eq_refl)
    as (f & Hf & _ & Hp).
  exists f. split; [exact Hf|].
  destruct (Hp (withFlag "Americas" "tricolour.svg") eq_refl)
    as (p & Hder & _ & _ & Hcol).
  rewrite Hcol. vm_compute in Hder. injection Hder as <-. reflexivity.
Defined.

End EnrichmentWithPalettesExample.



(** ** What the enrichment publishes *)

Section Snapshots.

Import JsString GlobeView.
Local Open Scope string_scope.
Local Open Scope list_scope.
Local Open Scope nat_scope.

Variable flagMap : gmap string Lookup.
Variable getCountryPalette :
  nat -> ColorUtils.CountryRef -> ColorUtils.Options
  -> Completion ColorUtils.Palette.

(** The features of a run once the units from its [index] up to
    position [k] have settled. *)
Definition settledBelow (st : Run) (k : nat) : list Feature :=
  imap (fun j f =>
          if decide (index st <= j < k)
          then enrichFeature flagMap getCountryPalette j f else f)
       (features st).

Lemma lookup_settledBelow st k j :
  settledBelow st k !! j
  = if decide (index st <= j < k)
    then enrichFeature flagMap getCountryPalette j <$> features st !! j
    else features st !! j.
Proof.
  unfold settledBelow. rewrite list_lookup_imap.
  destruct (features st !! j); destruct (decide (index st <= j < k)); done.
Qed.

Lemma processBatch_settledBelow st :
  features (processBatch flagMap getCountryPalette st)
  = settledBelow st (index st + concurrency).
Proof.
  apply list_eq. intros j.
  rewrite processBatch_lookup, lookup_settledBelow.
  unfold sliceStop.
  destruct (decide (index st <= j < Nat.min (List.length (features st))
                                       (index st + concurrency))),
    (decide (index st <= j < index st + concurrency)); try done; try lia.
  rewrite lookup_ge_None_2 by lia. done.
Qed.

Lemma settledBelow_processBatch st k :
  index st + concurrency <= k ->
  index st + concurrency <= List.length (features st) ->
  settledBelow (processBatch flagMap getCountryPalette st) k
  = settledBelow st k.
Proof.
  intros Hk Hlen. apply list_eq. intros j.
  rewrite !lookup_settledBelow, processBatch_index, processBatch_lookup.
  assert (Hstop : sliceStop st = index st + concurrency)
    by (unfold sliceStop; lia).
  rewrite Hstop.
  destruct (decide (index st + concurrency <= j < k)),
    (decide (index st <= j < index st + concurrency)),
    (decide (index st <= j < k)); try done; lia.
Qed.

Lemma processNext_snapshots st :
  exists snaps,
    published (processNext flagMap getCountryPalette st)
    = published st ++ snaps
    /\ List.length snaps = batches (remaining st)
    /\ forall t snap,
         snaps !! t = Some snap ->
         snap = List.map color
                  (settledBelow st (index st + concurrency * S t)).
Proof.
  funelim (processNext flagMap getCountryPalette st); clear Heqcall Heq.
  - destruct H as (snaps & Hpub & Hlen & Hsnap).
    rewrite processBatch_length, processBatch_index in more.
    assert (Hstop : sliceStop st = index st + concurrency)
      by (unfold sliceStop in *; lia).
    assert (Hfits : index st + concurrency <= List.length (features st))
      by (unfold sliceStop in *; lia).
    exists (List.map color (features (processBatch flagMap getCountryPalette st))
            :: snaps).
    split; [|split].
    + rewrite Hpub. unfold processBatch at 1. cbn [published].
      by rewrite <- app_assoc.
    + cbn [List.length]. rewrite Hlen. unfold batches, remaining.
      rewrite processBatch_length, processBatch_index, Hstop.
      unfold concurrency in *.
      replace (List.length (features st) - index st - 1)
        with ((List.length (features st) - (index st + 6) - 1) + 1 * 6)
        by lia.
      rewrite Nat.div_add by lia. lia.
    + intros [|t] snap.
      * intros [= <-].
        change (processSlice flagMap getCountryPalette (features st)
                  (index st) _)
          with (features (processBatch flagMap getCountryPalette st)).
        rewrite processBatch_settledBelow.
        f_equal; f_equal; unfold concurrency; lia.
      * cbn [lookup list_lookup]. intros Ht.
        rewrite (Hsnap t snap Ht), processBatch_index, Hstop.
        rewrite settledBelow_processBatch by (unfold concurrency in *; lia).
        f_equal; f_equal; unfold concurrency; lia.
  - rewrite processBatch_length, processBatch_index in finished.
    exists [List.map color (features (processBatch flagMap getCountryPalette st))].
    split; [done|]. split.
    + cbn [List.length]. unfold batches, remaining.
      unfold sliceStop, concurrency in *.
      rewrite Nat.div_small by lia. done.
    + intros [|t] snap; [|done]. intros [= <-].
        change (processSlice flagMap getCountryPalette (features st)
                  (index st) _)
          with (features (processBatch flagMap getCountryPalette st)).
        rewrite processBatch_settledBelow.
      f_equal; f_equal; unfold concurrency; lia.
Qed.

(** The features of which the first [k] have settled. *)
Definition settledPrefix (fs : list Feature) (k : nat) : list Feature :=
  imap (fun j f =>
          if decide (j < k)
          then enrichFeature flagMap getCountryPalette j f else f) fs.

Lemma settledBelow_start fs pubs k :
  settledBelow {| features := fs; index := 0; published := pubs |} k
  = settledPrefix fs k.
Proof.
  unfold settledBelow, settledPrefix. cbn [features index].
  apply imap_ext. intros j f _.
  destruct (decide (0 <= j < k)), (decide (j < k)); try done; lia.
Qed.

Lemma enrich_features fs :
  features (enrich flagMap getCountryPalette fs)
  = settledPrefix fs (List.length fs).
Proof.
  unfold enrich.
  set (st0 := {| features := fs; index := 0; published := [] |}).
  destruct (processNext_spec flagMap getCountryPalette st0)
    as (Hlen & _ & Hlook).
  apply list_eq. intros j. rewrite Hlook. unfold settledPrefix.
  rewrite list_lookup_imap. subst st0. cbn [features index].
  destruct (decide (0 <= j)); [|lia].
  destruct (fs !! j) as [f|] eqn:Hf; [|done]. cbn [fmap option_fmap option_map].
  destruct (decide (j < List.length fs)) as [|Hn]; [done|].
  apply lookup_lt_Some in Hf. lia.
Qed.

(** X12: for any feature set of [n] features the enrichment publishes
    [⌈n/6⌉] colour sets, one for an empty set.  Publication number [t]
    (from 0) shows the final colour of the first [6(t+1)] features and,
    for all later features, the colour they came with: a fully settled
    prefix and nothing of a later slice.  The last publication shows the
    final colours of all features. *)
Theorem published_snapshots_are_settled_prefixes (fs : list Feature) :
  let final := enrich flagMap getCountryPalette fs in
  List.length (published final) = batches (List.length fs)
  /\ (forall t snap,
        published final !! t = Some snap ->
        snap = List.map color (settledPrefix fs (concurrency * S t)))
  /\ features final = settledPrefix fs (List.length fs)
  /\ last (published final) = Some (List.map color (features final)).
Proof.
  cbn zeta. pose proof (enrich_features fs) as Hfinal.
  unfold enrich in *.
  set (st0 := {| features := fs; index := 0; published := [] |}) in *.
  destruct (processNext_snapshots st0) as (snaps & Hpub & Hlen & Hsnap).
  change (published st0 ++ snaps) with snaps in Hpub. rewrite Hpub.
  assert (Hprefix : forall t snap, snaps !! t = Some snap ->
            snap = List.map color (settledPrefix fs (concurrency * S t))).
  { intros t snap Ht. rewrite (Hsnap t snap Ht). subst st0.
    by rewrite settledBelow_start. }
  split; [|split; [|split]].
  - rewrite Hlen. unfold remaining. subst st0. cbn [features index].
    f_equal. lia.
  - exact Hprefix.
  - exact Hfinal.
  - rewrite last_lookup.
    assert (Hpos : List.length snaps = S (pred (List.length snaps)))
      by (rewrite Hlen; unfold batches; lia).
    destruct (snaps !! pred (List.length snaps)) as [snap|] eqn:Hlast.
    2: { apply lookup_ge_None in Hlast. lia. }
    rewrite (Hprefix _ _ Hlast), Hfinal. f_equal. f_equal.
    apply imap_ext. intros j f Hj. apply lookup_lt_Some in Hj.
    assert (Hlt : j < concurrency * S (pred (List.length snaps))).
    { rewrite <- Hpos, Hlen. unfold batches, remaining, concurrency.
      subst st0. cbn [features index].
      pose proof (Nat.div_mod_eq (List.length fs - 0 - 1) 6).
      pose proof (Nat.mod_upper_bound (List.length fs - 0 - 1) 6). lia. }
    destruct (decide (j < concurrency * S (pred (List.length snaps))));
      destruct (decide (j < List.length fs)); try done; lia.
Qed.

End Snapshots.

Section FailedLookup.

Import JsString GlobeView.
Local Open Scope string_scope.
Local Open Scope list_scope.
Local Open Scope nat_scope.

Lemma enrichFeature_empty_map derive i f :
  enrichFeature ∅ derive i f = f.
Proof.
  unfold enrichFeature. destruct (negb _); [done|].
  by rewrite lookup_empty.
Qed.

(** X13: with an empty flag lookup (the one that a failed lookup request
    leaves) the enrichment changes no colour: the features come out as
    they went in, whatever the palette builder would do, and every colour
    set published is the one they came with. *)
Theorem empty_lookup_keeps_base_colors
    (derive : nat -> ColorUtils.CountryRef -> ColorUtils.Options
              -> Completion ColorUtils.Palette)
    (fs : list Feature) :
  let final := enrich ∅ derive fs in
  features final = fs
  /\ List.length (published final) = batches (List.length fs)
  /\ forall snap, In snap (published final) -> snap = List.map color fs.
Proof.
  cbn zeta.
  assert (Hid : forall k, settledPrefix ∅ derive fs k = fs).
  { intros k. unfold settledPrefix. apply list_eq. intros j.
    rewrite list_lookup_imap. destruct (fs !! j) as [f|]; [|done].
    cbn. destruct (decide (j < k)); [|done].
    by rewrite enrichFeature_empty_map. }
  split; [|split].
  - by rewrite enrich_features, Hid.
  - unfold enrich.
    set (st0 := {| features := fs; index := 0; published := [] |}).
    destruct (processNext_snapshots ∅ derive st0) as (snaps & -> & Hlen & _).
    change (published st0 ++ snaps) with snaps. rewrite Hlen. unfold remaining. subst st0.
    cbn [features index]. f_equal. lia.
  - intros snap Hin. unfold enrich in Hin.
    set (st0 := {| features := fs; index := 0; published := [] |}) in *.
    destruct (processNext_snapshots ∅ derive st0) as (snaps & Hpub & _ & Hsnap).
    rewrite Hpub in Hin. change (published st0 ++ snaps) with snaps in Hin.
    apply list_elem_of_In, list_elem_of_lookup in Hin as [t Ht].
    rewrite (Hsnap t snap Ht). subst st0. by rewrite settledBelow_start, Hid.
Qed.

End FailedLookup.


(** ** Normalised names *)

Section NormalisedNames.

Import JsString CountryMatcher.
Local Open Scope string_scope.

Fixpoint forallChars (p : ascii -> bool) (s : string) : bool :=
  match s with
  | EmptyString => true
  | String c s' => p c && forallChars p s'
  end.

(** A lower-case word character ([a-z], [0-9], [_]) or a space. *)
Definition isLowerWordOrSpace (c : ascii) : bool :=
  isDigit c || isLowerAZ c || (code c =? 95)%N || Ascii.eqb c " ".

(** No two spaces in a row. *)
Fixpoint noDoubleSpace (s : string) : bool :=
  match s with
  | String c ((String d _) as s') =>
      negb (Ascii.eqb c " " && Ascii.eqb d " ") && noDoubleSpace s'
  | _ => true
  end.

Definition startsWithSpace (s : string) : bool :=
  match s with
  | String c _ => Ascii.eqb c " "
  | EmptyString => false
  end.

Ltac each_char c := destruct c as [[] [] [] [] [] [] [] []].

Lemma toLowerCaseChar_not_upper c : isUpperAZ (toLowerCaseChar c) = false.
Proof. each_char c; reflexivity. Qed.

Lemma kept_char_is_lower_word_or_space c :
  isUpperAZ c = false -> isWordChar c = true -> isLowerWordOrSpace c = true.
Proof.
  intros Hu Hk. unfold isWordChar in Hk. unfold isLowerWordOrSpace.
  rewrite Hu in Hk.
  destruct (isDigit c), (isLowerAZ c), (code c =? 95)%N; done.
Qed.

Lemma space_is_white c : Ascii.eqb c " " = true -> isWhiteSpace c = true.
Proof. intros ->%Ascii.eqb_eq. reflexivity. Qed.

Lemma forallChars_toLowerCase s :
  forallChars (fun c => negb (isUpperAZ c)) (toLowerCase s) = true.
Proof.
  induction s as [|c s IH]; [done|].
  cbn [toLowerCase JsString.map forallChars].
  by rewrite toLowerCaseChar_not_upper.
Qed.

Lemma forallChars_trimStart p s :
  forallChars p s = true -> forallChars p (trimStart s) = true.
Proof.
  induction s as [|c s IH]; [done|]. cbn [trimStart forallChars].
  intros [Hc Hs]%andb_prop. destruct (isWhiteSpace c); [by apply IH|].
  cbn [forallChars]. by rewrite Hc, Hs.
Qed.

Lemma forallChars_trimEnd p s :
  forallChars p s = true -> forallChars p (trimEnd s) = true.
Proof.
  induction s as [|c s IH]; [done|]. cbn [trimEnd forallChars].
  intros [Hc Hs]%andb_prop. specialize (IH Hs).
  destruct (trimEnd s) as [|d t].
  - destruct (isWhiteSpace c); [done|]. cbn [forallChars]. by rewrite Hc.
  - cbn [forallChars] in *. by rewrite Hc, IH.
Qed.

Lemma forallChars_remove p s :
  forallChars p s = true ->
  forallChars (fun c => p c && (isWordChar c || isWhiteSpace c))
    (removeNonWordNonSpace s) = true.
Proof.
  induction s as [|c s IH]; [done|].
  cbn [removeNonWordNonSpace forallChars].
  intros [Hc Hs]%andb_prop.
  destruct (isWordChar c || isWhiteSpace c) eqn:Hk; [|by apply IH].
  cbn [forallChars]. by rewrite Hc, Hk, IH.
Qed.

Lemma noDoubleSpace_cons c d t :
  noDoubleSpace (String c (String d t))
  = negb (Ascii.eqb c " " && Ascii.eqb d " ") && noDoubleSpace (String d t).
Proof. reflexivity. Qed.

Lemma collapseFrom_spec inRun s :
  forallChars (fun c => negb (isUpperAZ c)
                        && (isWordChar c || isWhiteSpace c)) s = true ->
  forallChars isLowerWordOrSpace (collapseFrom inRun s) = true
  /\ noDoubleSpace (collapseFrom inRun s) = true
  /\ (inRun = true -> startsWithSpace (collapseFrom inRun s) = false).
Proof.
  revert inRun. induction s as [|c s IH]; intros inRun; [done|].
  cbn [forallChars collapseFrom].
  intros [[Hu Hk]%andb_prop Hs]%andb_prop. apply negb_true_iff in Hu.
  destruct (isWhiteSpace c) eqn:Hw.
  - destruct (IH true Hs) as (Hall & Hnd & Hstart). specialize (Hstart eq_refl).
    destruct inRun; [done|]. split; [|split; [|done]].
    + cbn [forallChars]. by rewrite Hall.
    + destruct (collapseFrom true s) as [|d t] eqn:Hrest; [done|].
      rewrite noDoubleSpace_cons. cbn [startsWithSpace] in Hstart.
      rewrite Hstart, andb_false_r. cbn [negb andb]. exact Hnd.
  - destruct (IH false Hs) as (Hall & Hnd & _).
    assert (Hc : Ascii.eqb c " " = false).
    { destruct (Ascii.eqb c " ") eqn:E; [|done].
      apply space_is_white in E. congruence. }
    split; [|split].
    + cbn [forallChars]. rewrite orb_false_r in Hk.
      by rewrite (kept_char_is_lower_word_or_space c Hu Hk), Hall.
    + destruct (collapseFrom false s) as [|d t] eqn:Hrest; [done|].
      rewrite noDoubleSpace_cons, Hc. cbn [negb andb]. exact Hnd.
    + intros _. cbn [startsWithSpace]. exact Hc.
Qed.

(** X14: whatever the name, [normalizeName] returns a string made only
    of lower-case word characters ([a-z], [0-9], [_]) and single spaces:
    no punctuation, no capital, no tab or line break, never two spaces in
    a row. *)
Theorem normalizeName_alphabet (name : option string) :
  forallChars isLowerWordOrSpace (normalizeName name) = true
  /\ noDoubleSpace (normalizeName name) = true.
Proof.
  destruct name as [s|]; [|done]. unfold normalizeName.
  destruct (negb (truthy s)); [done|].
  destruct (collapseFrom_spec false
              (removeNonWordNonSpace (trim (toLowerCase s)))) as (H1 & H2 & _).
  - exact (forallChars_remove _ _
             (forallChars_trimEnd _ _
                (forallChars_trimStart _ _ (forallChars_toLowerCase s)))).
  - by split.
Qed.

End NormalisedNames.

(** ** What the matcher returns *)

Section MatcherResults.

Import JsString CountryMatcher.
Local Open Scope string_scope.
Local Open Scope list_scope.

(** The tests of the four later strategies. *)
Definition exactlyNamed (q : string) (country : Country) : bool :=
  String.eqb (toLowerCase (common (name country))) (toLowerCase q)
  || String.eqb (toLowerCase (official (name country))) (toLowerCase q).

Definition normalisedAs (q : string) (country : Country) : bool :=
  String.eqb (normalizeName (Some (common (name country))))
             (normalizeName (Some q))
  || String.eqb (normalizeName (Some (official (name country))))
                (normalizeName (Some q)).

Definition partlyNamed (q : string) (country : Country) : bool :=
  includes (toLowerCase (common (name country))) (toLowerCase q)
  || includes (toLowerCase q) (toLowerCase (common (name country)))
  || includes (toLowerCase (official (name country))) (toLowerCase q)
  || includes (toLowerCase q) (toLowerCase (official (name country))).

Definition altSpelled (q : string) (country : Country) : bool :=
  match altSpellings country with
  | None => false
  | Some alts =>
      existsb (fun alt =>
        String.eqb (normalizeName (Some alt)) (normalizeName (Some q))) alts
  end.

(** The override step: the first record named as the table maps the
    query, if the table has the query. *)
Definition overrideMatch (q : string) (cs : list Country) : option Country :=
  match tableGet q COUNTRY_NAME_MAP with
  | Some mappedName =>
      if truthy mappedName then List.find (namedAs mappedName) cs else None
  | None => None
  end.

Lemma matchCountryName_chain q cs :
  truthy q = true -> cs <> [] ->
  matchCountryName q cs
  = orFind (overrideMatch q cs)
      (orFind (List.find (exactlyNamed q) cs)
         (orFind (List.find (normalisedAs q) cs)
            (orFind (List.find (partlyNamed q) cs)
               (List.find (altSpelled q) cs)))).
Proof.
  intros Hq Hcs. unfold matchCountryName. rewrite Hq.
  destruct cs as [|c cs]; [done|]. reflexivity.
Qed.

Lemma orFind_cases (a b : option Country) c :
  orFind a b = Some c -> a = Some c \/ (a = None /\ b = Some c).
Proof. destruct a; cbn [orFind]; [left | right]; auto. Qed.

(** X15: [matchCountryName] never makes a record up and never throws for
    a name it cannot place: an empty name or an empty reference set gives
    [null]; a record that is returned is a member of the reference set and
    passes the test of one of the five strategies, for the override step
    the name that the table maps the query to. *)
Theorem matchCountryName_sound (q : string) (cs : list Country) :
  (truthy q = false \/ cs = [] -> matchCountryName q cs = None)
  /\ forall c,
       matchCountryName q cs = Some c ->
       In c cs
       /\ truthy q = true
       /\ ((exists m, tableGet q COUNTRY_NAME_MAP = Some m
                      /\ namedAs m c = true)
           \/ exactlyNamed q c = true \/ normalisedAs q c = true
           \/ partlyNamed q c = true \/ altSpelled q c = true).
Proof.
  split.
  - intros [Hq | ->]; unfold matchCountryName.
    + by rewrite Hq.
    + by rewrite orb_true_r.
  - intros c Hc.
    destruct (truthy q) eqn:Hq.
    2: { unfold matchCountryName in Hc. by rewrite Hq in Hc. }
    destruct cs as [|c0 cs0] eqn:Ecs.
    { unfold matchCountryName in Hc. by rewrite orb_true_r in Hc. }
    rewrite <- Ecs in *. assert (Hne : cs <> []) by (by rewrite Ecs).
    rewrite (matchCountryName_chain _ _ Hq Hne) in Hc.
    apply orFind_cases in Hc as [Hc | [_ Hc]].
    { unfold overrideMatch in Hc.
      destruct (tableGet q COUNTRY_NAME_MAP) as [m|] eqn:Hm; [|done].
      destruct (truthy m); [|done].
      destruct (find_some _ _ Hc) as [Hin Hp]. eauto 10. }
    apply orFind_cases in Hc as [Hc | [_ Hc]].
    { destruct (find_some _ _ Hc) as [Hin Hp]. auto 10. }
    apply orFind_cases in Hc as [Hc | [_ Hc]].
    { destruct (find_some _ _ Hc) as [Hin Hp]. auto 10. }
    apply orFind_cases in Hc as [Hc | [_ Hc]].
    { destruct (find_some _ _ Hc) as [Hin Hp]. auto 10. }
    destruct (find_some _ _ Hc) as [Hin Hp]. auto 10.
Qed.

(** X16: a non-empty query that equals the common or the official name
    of a record of the reference set, up to case, always resolves: to the
    record of the override step if that step finds one, and otherwise to
    the first record in the order of the set with such a name. *)
Theorem exact_name_resolves (q : string) (cs : list Country) (c0 : Country)
    (Hq : truthy q = true) (Hin : In c0 cs)
    (Hname : toLowerCase (common (name c0)) = toLowerCase q
             \/ toLowerCase (official (name c0)) = toLowerCase q) :
  exists c,
    matchCountryName q cs = Some c
    /\ (overrideMatch q cs = Some c
        \/ (overrideMatch q cs = None
            /\ List.find (exactlyNamed q) cs = Some c
            /\ exactlyNamed q c = true)).
Proof.
  assert (Hne : cs <> []) by (intros ->; done).
  rewrite (matchCountryName_chain _ _ Hq Hne).
  destruct (overrideMatch q cs) as [c|] eqn:Hover.
  { exists c. split; [done | by left]. }
  assert (Hp : exactlyNamed q c0 = true).
  { unfold exactlyNamed. apply orb_true_iff.
    destruct Hname as [->| ->]; [left|right]; apply String.eqb_refl. }
  destruct (List.find (exactlyNamed q) cs) as [c|] eqn:Hfind.
  2: { pose proof (find_none _ _ Hfind _ Hin). congruence. }
  exists c. split; [done|]. right.
  destruct (find_some _ _ Hfind) as [_ Hpc]. done.
Qed.

Definition peru : Country :=
  {| name := {| common := "Peru"; official := "Republic of Peru" |};
     altSpellings := None; cca3 := "PER" |}.

Lemma exact_name_resolves_witness :
  exists c,
    matchCountryName "REPUBLIC OF PERU" [unitedStates; peru] = Some c
    /\ (overrideMatch "REPUBLIC OF PERU" [unitedStates; peru] = Some c
        \/ (overrideMatch "REPUBLIC OF PERU" [unitedStates; peru] = None
            /\ List.find (exactlyNamed "REPUBLIC OF PERU")
                 [unitedStates; peru] = Some c
            /\ exactlyNamed "REPUBLIC OF PERU" c = true)).
Proof.
  apply (exact_name_resolves "REPUBLIC OF PERU" [unitedStates; peru] peru
           eq_refl).
  - right. left. reflexivity.
  - right. reflexivity.
Defined.

End MatcherResults.


(** ** The reference-set loader: freshness, retries, request budget *)

Section LoaderMore.

Import CountryMatcher CountryLoader.
Local Open Scope string_scope.
Local Open Scope list_scope.
Local Open Scope nat_scope.

(** The single steps of a call that waits at position [i]. *)
Lemma step_fetch_body w i countryName attempt allCountries now :
  tasks w !! i = Some (AwaitingFetch countryName attempt) ->
  step w (FetchSettled i (Body allCountries) now)
  = {| cache := {| allCountriesCache := Some allCountries;
                   cacheTimestamp := Some now |};
       fetchCount := fetchCount w;
       tasks := <[i := Settled (Return
                          (matchCountryName countryName allCountries))]>
                  (tasks w) |}.
Proof. intros H. unfold step. by rewrite H. Qed.

Lemma step_fetch_failed w i countryName attempt f now :
  tasks w !! i = Some (AwaitingFetch countryName attempt) ->
  failed f = true ->
  attempt < 2 ->
  step w (FetchSettled i f now)
  = {| cache := cache w; fetchCount := fetchCount w;
       tasks := <[i := AwaitingTimer countryName attempt
                         (orDefault "undefined" (attemptError f))
                         (2 ^ Z.of_nat attempt * 1000)%Z]> (tasks w) |}.
Proof.
  intros H Hf Hlt. unfold step. rewrite H.
  assert (Hb : (attempt <? maxRetries - 1) = true)
    by (apply Nat.ltb_lt; unfold maxRetries; lia).
  destruct f; try discriminate; by rewrite Hb.
Qed.

Lemma step_timer w i countryName attempt lastError delay :
  tasks w !! i = Some (AwaitingTimer countryName attempt lastError delay) ->
  attempt < 2 ->
  step w (TimerFired i)
  = {| cache := cache w; fetchCount := S (fetchCount w);
       tasks := <[i := AwaitingFetch countryName (S attempt)]> (tasks w) |}.
Proof.
  intros H Hlt. unfold step. rewrite H. unfold loopHead.
  assert (Hb : (S attempt <? maxRetries) = true)
    by (apply Nat.ltb_lt; unfold maxRetries; lia).
  by rewrite Hb.
Qed.

Lemma run_cons w e events : run w (e :: events) = run (step w e) events.
Proof. reflexivity. Qed.

(** X17: the cache holds the reference set that arrived last, with the
    time of its arrival: a response that reaches a waiting call replaces
    both, and no other event changes them.  A call at time [now] that
    finds a set cached with time stamp [t] is answered from that set at
    once, without a request, when [t] is not 0 and [now - t < 1800000];
    when [t] is 0 or [now - t >= 1800000] it issues a new request.  The
    call itself leaves the cache as it is. *)
Theorem cached_set_serves_thirty_minutes (w : World) :
  (forall i waiting attempt allCountries t,
     tasks w !! i = Some (AwaitingFetch waiting attempt) ->
     cache (step w (FetchSettled i (Body allCountries) t))
     = {| allCountriesCache := Some allCountries;
          cacheTimestamp := Some t |})
  /\ (forall e,
        (forall i allCountries t, e <> FetchSettled i (Body allCountries) t) ->
        cache (step w e) = cache w)
  /\ (forall allCountries t countryName now,
        cache w = {| allCountriesCache := Some allCountries;
                     cacheTimestamp := Some t |} ->
        let w' := step w (Call countryName now) in
        (t <> 0%Z /\ (now - t < 1800000)%Z ->
         fetchCount w' = fetchCount w
         /\ tasks w'
            = tasks w
              ++ [Settled (Return (matchCountryName countryName
                                     allCountries))])
        /\ (t = 0%Z \/ (1800000 <= now - t)%Z ->
            fetchCount w' = S (fetchCount w)
            /\ tasks w' = tasks w ++ [AwaitingFetch countryName 0])).
Proof.
  split; [|split].
  - intros i waiting attempt allCountries t Hwait.
    by rewrite (step_fetch_body _ _ _ _ _ _ Hwait).
  - intros e Hother. destruct e as [countryName now|i outcome now|i];
      cbn [step].
    + by destruct (cacheIsFresh (cache w) now).
    + destruct (tasks w !! i) as [[countryName attempt| |]|]; try done.
      destruct outcome as [m|status statusText|m|allCountries];
        [| | |by destruct (Hother i allCountries now)];
        (destruct (attempt <? maxRetries - 1); [done|]);
        unfold loopHead; by destruct (S attempt <? maxRetries).
    + destruct (tasks w !! i) as [[|countryName attempt lastError delay|]|];
        try done.
      unfold loopHead. by destruct (S attempt <? maxRetries).
  - intros allCountries t countryName now Hcache. cbn zeta.
    assert (Hfresh : cacheIsFresh (cache w) now
                     = negb (t =? 0)%Z && (now - t <? 1800000)%Z).
    { rewrite Hcache. reflexivity. }
    unfold step. rewrite Hfresh, Hcache. split.
    + intros [Ht Hnow]. apply Z.eqb_neq in Ht. apply Z.ltb_lt in Hnow.
      by rewrite Ht, Hnow.
    + intros [->|Hnow]; [done|]. apply Z.ltb_ge in Hnow.
      rewrite Hnow, andb_false_r. done.
Qed.

Lemma cached_set_serves_thirty_minutes_witness :
  let w := run initialWorld
             [Call "USA" 1000; FetchSettled 0 (Body [unitedStates]) 1500] in
  cache w = {| allCountriesCache := Some [unitedStates];
               cacheTimestamp := Some 1500%Z |}
  /\ fetchCount (step w (Call "US" 1801499)) = 1
  /\ fetchCount (step w (Call "US" 1801500)) = 2.
Proof.
  intros w.
  destruct (cached_set_serves_thirty_minutes
              (run initialWorld [Call "USA" 1000])) as (Harrive & _ & _).
  destruct (cached_set_serves_thirty_minutes w) as (_ & _ & Hcall).
  pose proof (Harrive 0 "USA" 0 [unitedStates] 1500%Z eq_refl) as Hcache.
  split; [exact Hcache|]. split.
  - destruct (Hcall [unitedStates] 1500%Z "US" 1801499%Z Hcache)
      as [Hhit _].
    apply Hhit. split; [discriminate | reflexivity].
  - destruct (Hcall [unitedStates] 1500%Z "US" 1801500%Z Hcache)
      as [_ Hmiss].
    apply Hmiss. right. discriminate.
Defined.

(** The events of a call at position [i] whose first attempts fail, at
    the given times, each followed by its back-off timer. *)
Definition failedAttempts (i : nat) (failures : list (FetchOutcome * Z))
  : list Event :=
  flat_map (fun f => [FetchSettled i (fst f) (snd f); TimerFired i]) failures.

(** X18: a call recovers from failed attempts.  When its first one or
    two attempts fail and the next one delivers the reference set, the
    call resolves to the match in that set, the set is cached with the
    time of its arrival, and one request per attempt has gone out. *)
Theorem retry_recovers (w : World) (countryName : string) (now t : Z)
    (failures : list (FetchOutcome * Z)) (allCountries : list Country)
    (Hstale : cacheIsFresh (cache w) now = false)
    (Hfailed : Forall (fun f => failed (fst f) = true) failures)
    (Hfew : List.length failures <= 2) :
  let i := List.length (tasks w) in
  let w' := run w (Call countryName now :: failedAttempts i failures
                   ++ [FetchSettled i (Body allCountries) t]) in
  tasks w'
  = tasks w ++ [Settled (Return (matchCountryName countryName allCountries))]
  /\ cache w' = {| allCountriesCache := Some allCountries;
                   cacheTimestamp := Some t |}
  /\ fetchCount w' = fetchCount w + S (List.length failures).
Proof.
  cbn zeta. rewrite run_cons, step_call_stale by done.
  destruct failures as [|[f1 t1] [|[f2 t2] [|f3 rest]]];
    cbn [List.length] in *; [| | |lia];
    cbn [failedAttempts flat_map app fst snd].
  - rewrite run_cons, (step_fetch_body _ _ countryName 0)
      by apply lookup_snoc.
    cbn [run fold_left tasks cache fetchCount]. rewrite insert_snoc.
    repeat split. lia.
  - apply Forall_cons in Hfailed as [H1 _]. cbn [fst] in H1.
    rewrite run_cons, (step_fetch_failed _ _ countryName 0 f1 t1)
      by (apply lookup_snoc || done || lia).
    cbn [tasks cache fetchCount]. rewrite insert_snoc.
    rewrite run_cons.
    erewrite (step_timer _ _ countryName 0); [|apply lookup_snoc|lia].
    cbn [tasks cache fetchCount]. rewrite insert_snoc.
    rewrite run_cons, (step_fetch_body _ _ countryName 1)
      by apply lookup_snoc.
    cbn [run fold_left tasks cache fetchCount]. rewrite insert_snoc.
    repeat split. lia.
  - apply Forall_cons in Hfailed as [H1 Hfailed]. cbn [fst] in H1.
    apply Forall_cons in Hfailed as [H2 _]. cbn [fst] in H2.
    rewrite run_cons, (step_fetch_failed _ _ countryName 0 f1 t1)
      by (apply lookup_snoc || done || lia).
    cbn [tasks cache fetchCount]. rewrite insert_snoc.
    rewrite run_cons.
    erewrite (step_timer _ _ countryName 0); [|apply lookup_snoc|lia].
    cbn [tasks cache fetchCount]. rewrite insert_snoc.
    rewrite run_cons, (step_fetch_failed _ _ countryName 1 f2 t2)
      by (apply lookup_snoc || done || lia).
    cbn [tasks cache fetchCount]. rewrite insert_snoc.
    rewrite run_cons.
    erewrite (step_timer _ _ countryName 1); [|apply lookup_snoc|lia].
    cbn [tasks cache fetchCount]. rewrite insert_snoc.
    rewrite run_cons, (step_fetch_body _ _ countryName 2)
      by apply lookup_snoc.
    cbn [run fold_left tasks cache fetchCount]. rewrite insert_snoc.
    repeat split. lia.
Qed.

Lemma retry_recovers_witness :
  let w' := run initialWorld
              (Call "Czech Republic" 5
               :: failedAttempts 0 [(NetworkError "offline", 9%Z);
                                    (HttpError "502" "Bad Gateway", 1200%Z)]
               ++ [FetchSettled 0 (Body [modernCzechia]) 3300]) in
  tasks w' = [] ++ [Settled (Return (matchCountryName "Czech Republic"
                                       [modernCzechia]))]
  /\ cache w' = {| allCountriesCache := Some [modernCzechia];
                   cacheTimestamp := Some 3300%Z |}
  /\ fetchCount w' = 0 + 3.
Proof.
  apply (retry_recovers initialWorld "Czech Republic" 5 3300
           [(NetworkError "offline", 9%Z);
            (HttpError "502" "Bad Gateway", 1200%Z)] [modernCzechia] eq_refl).
  - repeat constructor.
  - cbn. lia.
Defined.

End LoaderMore.


Section LoaderBudget.

Import CountryMatcher CountryLoader.
Local Open Scope string_scope.
Local Open Scope list_scope.
Local Open Scope nat_scope.

(** The requests a call can have issued by the time it is in state [t]. *)
Definition issued (t : Task) : nat :=
  match t with
  | AwaitingFetch _ attempt => S attempt
  | AwaitingTimer _ attempt _ _ => S attempt
  | Settled _ => maxRetries
  end.

(** A waiting call is within its three attempts, and a back-off timer
    runs for one or two seconds. *)
Definition withinRetries (t : Task) : Prop :=
  match t with
  | AwaitingFetch _ attempt => attempt < maxRetries
  | AwaitingTimer _ attempt _ delay =>
      S attempt < maxRetries /\ (delay = 1000 \/ delay = 2000)%Z
  | Settled _ => True
  end.

Definition isCall (e : Event) : bool :=
  match e with Call _ _ => true | _ => false end.

Definition withinBudget (w : World) : Prop :=
  fetchCount w <= sum_list_with issued (tasks w)
  /\ Forall withinRetries (tasks w).

Lemma sum_list_with_insert {A} (f : A -> nat) (l : list A) i x y :
  l !! i = Some x ->
  sum_list_with f (<[i := y]> l) + f x = sum_list_with f l + f y.
Proof.
  revert i. induction l as [|a l IH]; intros [|i] H; try discriminate.
  - injection H as ->. simpl. lia.
  - simpl. specialize (IH i H). lia.
Qed.

Lemma sum_list_with_bound {A} (f : A -> nat) (P : A -> Prop) (l : list A) k :
  (forall x, P x -> f x <= k) -> Forall P l ->
  sum_list_with f l <= k * List.length l.
Proof.
  intros Hf. induction 1 as [|x l Hx _ IH]; simpl; [lia|].
  specialize (Hf x Hx). lia.
Qed.

Lemma issued_bound t : withinRetries t -> issued t <= maxRetries.
Proof. destruct t; cbn; unfold maxRetries; lia. Qed.

Lemma setTask_withinBudget w w' i old new :
  tasks w !! i = Some old ->
  tasks w' = tasks w ->
  withinBudget w ->
  withinRetries new ->
  fetchCount w' + issued old <= fetchCount w + issued new ->
  withinBudget (setTask i new w').
Proof.
  intros Hi Htasks [Hcount Hall] Hnew Hle. unfold withinBudget, setTask.
  cbn [tasks fetchCount]. rewrite Htasks. split.
  - pose proof (sum_list_with_insert issued (tasks w) i old new Hi). lia.
  - by apply Forall_insert.
Qed.

Lemma step_withinBudget w e :
  withinBudget w ->
  withinBudget (step w e)
  /\ List.length (tasks (step w e))
     = List.length (tasks w) + (if isCall e then 1 else 0).
Proof.
  intros Hw. pose proof Hw as [Hcount Hall].
  destruct e as [countryName now|i outcome now|i]; cbn [isCall step].
  - destruct (cacheIsFresh (cache w) now); cbn [loopHead Nat.ltb Nat.leb
      maxRetries tasks fetchCount cache]; unfold withinBudget;
      cbn [tasks fetchCount]; rewrite sum_list_with_app, length_app,
      Forall_app; cbn; repeat split; try lia; try done;
      repeat constructor.
  - rewrite Nat.add_0_r.
    destruct (tasks w !! i) as [[countryName attempt| |]|] eqn:Hi;
      [|by split..].
    pose proof (Forall_lookup_1 _ _ _ _ Hall Hi) as Hattempt.
    cbn [withinRetries] in Hattempt. unfold maxRetries in Hattempt.
    assert (Hfail : forall f, failed f = true ->
              withinBudget
                (if attempt <? maxRetries - 1
                 then setTask i (AwaitingTimer countryName attempt
                        (orDefault "undefined" (attemptError f))
                        (2 ^ Z.of_nat attempt * 1000)%Z) w
                 else let '(t, w') :=
                        loopHead countryName (S attempt) (attemptError f) w
                      in setTask i t w')
              /\ List.length
                   (tasks
                      (if attempt <? maxRetries - 1
                       then setTask i (AwaitingTimer countryName attempt
                              (orDefault "undefined" (attemptError f))
                              (2 ^ Z.of_nat attempt * 1000)%Z) w
                       else let '(t, w') :=
                              loopHead countryName (S attempt)
                                (attemptError f) w
                            in setTask i t w'))
                 = List.length (tasks w)).
    { intros f _. split.
      - destruct (attempt <? maxRetries - 1) eqn:Hb.
        + apply Nat.ltb_lt in Hb. unfold maxRetries in Hb.
          eapply setTask_withinBudget; [exact Hi|reflexivity|exact Hw| |].
          * cbn [withinRetries]. unfold maxRetries. split; [lia|].
            destruct attempt as [|[|]]; [left|right|lia]; reflexivity.
          * cbn [issued]. lia.
        + apply Nat.ltb_ge in Hb. unfold maxRetries in Hb. unfold loopHead.
          assert (Hover : (S attempt <? maxRetries) = false)
            by (apply Nat.ltb_ge; unfold maxRetries; lia).
          rewrite Hover.
          eapply setTask_withinBudget; [exact Hi|reflexivity|exact Hw|done|].
          cbn [issued]. unfold maxRetries. lia.
      - destruct (attempt <? maxRetries - 1);
          [|unfold loopHead; destruct (S attempt <? maxRetries)];
          cbn [setTask tasks]; by rewrite length_insert. }
    destruct outcome; try (apply Hfail; reflexivity).
    split.
    + eapply setTask_withinBudget; [exact Hi|reflexivity|exact Hw|done|].
      cbn. unfold maxRetries. lia.
    + cbn [setTask tasks]. by rewrite length_insert.
  - rewrite Nat.add_0_r.
    destruct (tasks w !! i) as [[|countryName attempt lastError delay|]|]
      eqn:Hi; [by split| |by split..].
    pose proof (Forall_lookup_1 _ _ _ _ Hall Hi) as [Hattempt _].
    unfold maxRetries in Hattempt. unfold loopHead.
    assert (Hb : (S attempt <? maxRetries) = true)
      by (apply Nat.ltb_lt; unfold maxRetries; lia).
    rewrite Hb. split.
    + eapply setTask_withinBudget; [exact Hi|reflexivity|exact Hw| |].
      * cbn. unfold maxRetries. lia.
      * cbn. lia.
    + cbn [setTask tasks]. by rewrite length_insert.
Qed.

Lemma run_snoc w events e : run w (events ++ [e]) = step (run w events) e.
Proof. unfold run. by rewrite fold_left_app. Qed.

Lemma run_withinBudget events :
  withinBudget (run initialWorld events)
  /\ List.length (tasks (run initialWorld events))
     = List.length (filter (fun e => isCall e = true) events).
Proof.
  induction events as [|e events [IH Hlen]] using rev_ind.
  - repeat split; cbn; [lia|constructor].
  - rewrite run_snoc. destruct (step_withinBudget _ e IH) as [Hw Hstep].
    split; [exact Hw|]. rewrite Hstep, Hlen, filter_app, length_app.
    cbn [filter]. unfold filter at 2. cbn [list_filter].
    destruct e; cbn; reflexivity.
Qed.

(** X19: the request budget of the loader.  Whatever the order in which
    calls are made, requests settle and timers fire, the number of
    network requests issued never exceeds three per call made so far,
    every call made has exactly one entry, and every back-off timer
    under way runs for 1000 or 2000 milliseconds: the third failure is
    not followed by a wait. *)
Theorem at_most_three_requests_per_call (events : list Event) :
  let w := run initialWorld events in
  let calls := List.length (filter (fun e => isCall e = true) events) in
  List.length (tasks w) = calls
  /\ fetchCount w <= 3 * calls
  /\ (forall i countryName attempt lastError delay,
        tasks w !! i = Some (AwaitingTimer countryName attempt lastError delay)
        -> (delay = 1000 \/ delay = 2000)%Z).
Proof.
  cbn zeta. destruct (run_withinBudget events) as [[Hcount Hall] Hlen].
  split; [exact Hlen|]. split.
  - rewrite <- Hlen.
    pose proof (sum_list_with_bound issued withinRetries _ maxRetries
                  issued_bound Hall) as H.
    unfold maxRetries in H. lia.
  - intros i countryName attempt lastError delay Hi.
    by destruct (Forall_lookup_1 _ _ _ _ Hall Hi) as [_ H].
Qed.

End LoaderBudget.


(** ** The capital service *)

Section Capitals.

Import JsString CapitalService.
Local Open Scope string_scope.
Local Open Scope list_scope.
Local Open Scope nat_scope.

(** A string with a character that is not white space. *)
Fixpoint hasVisible (s : string) : bool :=
  match s with
  | EmptyString => false
  | String c s' => negb (isWhiteSpace c) || hasVisible s'
  end.

Lemma trimEnd_visible s : truthy (trimEnd s) = hasVisible s.
Proof.
  induction s as [|c s IH]; [reflexivity|].
  cbn [trimEnd hasVisible]. destruct (trimEnd s) eqn:E.
  - cbn in IH. rewrite <- IH. by destruct (isWhiteSpace c).
  - cbn in IH. rewrite <- IH. cbn. by rewrite orb_true_r.
Qed.

Lemma trimStart_visible s : hasVisible (trimStart s) = hasVisible s.
Proof.
  induction s as [|c s IH]; [reflexivity|].
  cbn [trimStart hasVisible]. destruct (isWhiteSpace c) eqn:E; [exact IH|].
  cbn [hasVisible]. by rewrite E.
Qed.

Lemma trim_visible s : truthy (trim s) = hasVisible s.
Proof. unfold trim. by rewrite trimEnd_visible, trimStart_visible. Qed.

Lemma hasVisible_append s t :
  hasVisible (String.append s t) = hasVisible s || hasVisible t.
Proof.
  induction s as [|c s IH]; [reflexivity|].
  cbv [String.append]. fold String.append. cbn [hasVisible].
  by rewrite IH, orb_assoc.
Qed.

Lemma validCapitals_visible capitalArray :
  Forall (fun cap => hasVisible cap = true) (validCapitals capitalArray).
Proof.
  induction capitalArray as [|[cap|] rest IH]; cbn [validCapitals];
    [constructor| |exact IH].
  destruct (truthy cap); cbn [andb]; [|exact IH].
  destruct (truthy (trim cap)) eqn:E; [|exact IH].
  constructor; [|exact IH]. by rewrite <- trim_visible.
Qed.

Lemma join_visible sep l :
  l <> [] -> Forall (fun cap => hasVisible cap = true) l ->
  hasVisible (join sep l) = true.
Proof.
  intros Hne Hall. destruct Hall as [|x l Hx Hall]; [done|].
  destruct l; cbn [join]; [exact Hx|].
  by rewrite hasVisible_append, Hx.
Qed.

Lemma normalizeCapital_visible capitalArray :
  hasVisible (normalizeCapital capitalArray) = true.
Proof.
  unfold normalizeCapital. destruct capitalArray as [arr|]; [|reflexivity].
  destruct (Nat.eqb (List.length arr) 0); [reflexivity|].
  cbn zeta. destruct (validCapitals arr) eqn:E; [reflexivity|].
  cbn [List.length Nat.eqb]. rewrite <- E.
  apply join_visible; [by rewrite E|apply validCapitals_visible].
Qed.

(** Every cached capital has a visible character. *)
Definition capitalsVisible (st : State) : Prop :=
  map_Forall (fun _ capitalName => hasVisible capitalName = true)
    (capitalCache st).

Lemma cacheCountry_visible cache country :
  map_Forall (fun _ capitalName => hasVisible capitalName = true) cache ->
  map_Forall (fun _ capitalName => hasVisible capitalName = true)
    (cacheCountry cache country).
Proof.
  intros H. unfold cacheCountry. destruct (cca2 country) as [c|]; [|exact H].
  destruct (truthy c); [|exact H].
  apply map_Forall_insert_2; [apply normalizeCapital_visible|exact H].
Qed.

Lemma populate_visible countries cache :
  map_Forall (fun _ capitalName => hasVisible capitalName = true) cache ->
  map_Forall (fun _ capitalName => hasVisible capitalName = true)
    (populate countries cache).
Proof.
  revert cache. induction countries as [|r countries IH]; intros cache H;
    [exact H|].
  apply IH. by apply cacheCountry_visible.
Qed.

Lemma step_visible st e : capitalsVisible st -> capitalsVisible (step st e).
Proof.
  intros H. destruct e as [|p outcome]; cbn [step].
  - destruct (isLoaded st); [exact H|]. by destruct (loadPromise st).
  - destruct (loads st !! p) as [[| |]|]; try exact H.
    destruct outcome; [exact H|]. by apply populate_visible.
Qed.

Lemma capital_run_snoc st events e :
  run st (events ++ [e]) = step (run st events) e.
Proof. unfold run. by rewrite fold_left_app. Qed.

Lemma run_visible st events :
  capitalsVisible st -> capitalsVisible (run st events).
Proof.
  intros H. induction events as [|e events IH] using rev_ind; [exact H|].
  rewrite capital_run_snoc. by apply step_visible.
Qed.

(** X20: the capital service never answers with an empty or blank
    string.  Whatever calls of [loadCapitalData] and whatever responses
    have happened, [getCapital] returns, for every argument, a string
    that still has a character after trimming: a capital, a list of
    capitals, ['N/A'] or ['Unknown']. *)
Theorem getCapital_is_never_blank (events : list Event)
    (cca2Code : option string) :
  truthy (trim (getCapital (run initialState events) cca2Code)) = true.
Proof.
  rewrite trim_visible. unfold getCapital.
  destruct cca2Code as [c|]; [|reflexivity].
  destruct (truthy c); [|reflexivity]. cbn [negb].
  destruct (capitalCache (run initialState events) !! toUpperCase c)
    as [capitalName|] eqn:E; [|reflexivity].
  assert (H : capitalsVisible (run initialState events)).
  { apply run_visible. unfold capitalsVisible, initialState.
    cbn [capitalCache]. apply map_Forall_empty. }
  exact (H _ _ E).
Qed.

(** The cache key of a record, if it has one. *)
Definition keyOf (country : CapitalRecord) : option string :=
  match cca2 country with
  | Some c => if truthy c then Some (toUpperCase c) else None
  | None => None
  end.

Lemma cacheCountry_keyOf cache country :
  cacheCountry cache country
  = match keyOf country with
    | Some k => <[k := normalizeCapital (capital country)]> cache
    | None => cache
    end.
Proof.
  unfold cacheCountry, keyOf. destruct (cca2 country) as [c|]; [|done].
  by destruct (truthy c).
Qed.

Lemma populate_app before after cache :
  populate (before ++ after) cache = populate after (populate before cache).
Proof. unfold populate. by rewrite fold_left_app. Qed.

Lemma populate_other after cache k :
  Forall (fun country => keyOf country <> Some k) after ->
  populate after cache !! k = cache !! k.
Proof.
  revert cache. induction after as [|r after IH]; intros cache H; [done|].
  apply Forall_cons in H as [Hr H]. cbn [populate fold_left].
  change (fold_left cacheCountry after (cacheCountry cache r))
    with (populate after (cacheCountry cache r)).
  rewrite IH by done. rewrite cacheCountry_keyOf.
  destruct (keyOf r) as [k'|]; [|done].
  apply lookup_insert_ne. congruence.
Qed.

Lemma toUpperCase_truthy s t :
  toUpperCase s = toUpperCase t -> truthy s = truthy t.
Proof. destruct s, t; cbn; try done. Qed.

Definition plainRecord (country : CapitalRecord) : Prop :=
  forall c, cca2 country = Some c -> plainCode c = true.

(** X21: looking up a loaded capital.  After a load has delivered its
    records, [getCapital] answers a code that agrees, up to letter case,
    with the code of a record by the normalised capital of that record,
    provided no later record of the response has the same code: of
    records with the same code the last one wins.  The query and the
    codes of the later records are strings whose upper case the
    embedding represents (no U+00B5, U+00DF, U+00FF). *)
Theorem getCapital_after_load (st : State) (p : nat)
    (before after : list CapitalRecord) (country : CapitalRecord)
    (code query : string)
    (Hpending : loads st !! p = Some Pending)
    (Hcode : cca2 country = Some code)
    (Htruthy : truthy code = true)
    (Hplain : plainCode query = true)
    (Hplains : Forall plainRecord after)
    (Hlast : Forall (fun later => keyOf later <> keyOf country) after)
    (Hquery : toUpperCase query = toUpperCase code) :
  getCapital
    (step st (FetchSettled p (LoadBody (before ++ country :: after))))
    (Some query)
  = normalizeCapital (capital country).
Proof.
  assert (Hkey : keyOf country = Some (toUpperCase code))
    by (unfold keyOf; by rewrite Hcode, Htruthy).
  unfold getCapital. rewrite (toUpperCase_truthy _ _ Hquery), Htruthy.
  cbn [negb step]. rewrite Hpending. cbn [capitalCache].
  rewrite Hquery, populate_app. cbn [populate fold_left].
  change (fold_left cacheCountry after ?c) with (populate after c).
  rewrite populate_other by (by rewrite <- Hkey).
  rewrite cacheCountry_keyOf, Hkey. by rewrite lookup_insert_eq.
Qed.

Definition southAfrica : CapitalRecord :=
  {| cca2 := Some "za";
     capital := Some [Some "Pretoria"; Some "  "; None; Some "Cape Town"] |}.

Definition oldSouthAfrica : CapitalRecord :=
  {| cca2 := Some "ZA"; capital := Some [Some "Pretoria"] |}.

Definition antarctica : CapitalRecord :=
  {| cca2 := Some "AQ"; capital := Some [] |}.

Lemma getCapital_after_load_witness :
  getCapital
    (run initialState
       [CallLoad;
        FetchSettled 0 (LoadBody ([oldSouthAfrica]
                                  ++ southAfrica :: [antarctica]))])
    (Some "Za")
  = "Pretoria, Cape Town".
Proof.
  exact (getCapital_after_load (run initialState [CallLoad]) 0
           [oldSouthAfrica] [antarctica] southAfrica "za" "Za"
           eq_refl eq_refl eq_refl eq_refl
           ltac:(repeat constructor; by intros c [= <-])
           ltac:(repeat constructor; discriminate) eq_refl).
Defined.

End Capitals.


Section CapitalLoads.

Import JsString CapitalService.
Local Open Scope string_scope.
Local Open Scope list_scope.
Local Open Scope nat_scope.

Definition pendingN (s : LoadState) : nat :=
  match s with Pending => 1 | _ => 0 end.
Definition fulfilledN (s : LoadState) : nat :=
  match s with Fulfilled => 1 | _ => 0 end.
Definition rejectedN (s : LoadState) : nat :=
  match s with Rejected _ => 1 | _ => 0 end.

Definition isFailure (e : Event) : bool :=
  match e with FetchSettled _ (LoadFailure _) => true | _ => false end.

(** One request per load; at most one load is pending or fulfilled; the
    data is loaded exactly when a load is fulfilled; and a pending load
    is the one that [loadPromise] holds. *)
Definition sharesLoad (st : State) : Prop :=
  fetchCount st = List.length (loads st)
  /\ sum_list_with pendingN (loads st)
     + sum_list_with fulfilledN (loads st) <= 1
  /\ sum_list_with fulfilledN (loads st) = (if isLoaded st then 1 else 0)
  /\ (isLoaded st = false -> loadPromise st = None ->
      sum_list_with pendingN (loads st) = 0).

Lemma loads_partition (l : list LoadState) :
  List.length l
  = sum_list_with pendingN l + sum_list_with fulfilledN l
    + sum_list_with rejectedN l.
Proof.
  induction l as [|s l IH]; [reflexivity|]. destruct s; simpl; lia.
Qed.

Lemma lookup_pending (l : list LoadState) p :
  l !! p = Some Pending -> 1 <= sum_list_with pendingN l.
Proof.
  revert p. induction l as [|s l IH]; intros [|p] H; try discriminate.
  - injection H as ->. simpl. lia.
  - specialize (IH p H). simpl. lia.
Qed.

Lemma step_sharesLoad st e :
  sharesLoad st ->
  sharesLoad (step st e)
  /\ sum_list_with rejectedN (loads (step st e))
     <= sum_list_with rejectedN (loads st) + (if isFailure e then 1 else 0).
Proof.
  intros (Hcount & Hone & Hful & Hnone).
  destruct e as [|p outcome]; cbn [step isFailure].
  - destruct (isLoaded st) eqn:Hloaded.
    + unfold sharesLoad. cbn [fetchCount loads isLoaded loadPromise].
      rewrite ?Hloaded. repeat split; try done; lia.
    + destruct (loadPromise st) as [q|] eqn:Hpromise.
      * unfold sharesLoad. cbn [fetchCount loads isLoaded loadPromise].
        rewrite ?Hloaded, ?Hpromise. repeat split; try done; lia.
      * specialize (Hnone eq_refl eq_refl).
        unfold sharesLoad. cbn [fetchCount loads isLoaded loadPromise].
        rewrite ?Hloaded, !sum_list_with_app, length_app. simpl.
        repeat split; try done; lia.
  - destruct (loads st !! p) as [[| |]|] eqn:Hp;
      [|split; [by repeat split|destruct outcome; lia]..].
    pose proof (lookup_pending _ _ Hp) as Hpending.
    pose proof (sum_list_with_insert pendingN (loads st) p Pending) as HP.
    pose proof (sum_list_with_insert fulfilledN (loads st) p Pending) as HF.
    pose proof (sum_list_with_insert rejectedN (loads st) p Pending) as HR.
    assert (Hloaded : isLoaded st = false)
      by (destruct (isLoaded st); [lia|done]).
    rewrite Hloaded in Hful.
    destruct outcome as [message|countries].
    + specialize (HP (Rejected message) Hp).
      specialize (HF (Rejected message) Hp).
      specialize (HR (Rejected message) Hp). simpl in HP, HF, HR.
      unfold sharesLoad. cbn [fetchCount loads isLoaded loadPromise].
      rewrite ?Hloaded, length_insert. repeat split; try done; lia.
    + specialize (HP Fulfilled Hp). specialize (HF Fulfilled Hp).
      specialize (HR Fulfilled Hp). simpl in HP, HF, HR.
      unfold sharesLoad. cbn [fetchCount loads isLoaded loadPromise].
      rewrite length_insert. repeat split; try done; lia.
Qed.

Lemma run_sharesLoad events :
  sharesLoad (run initialState events)
  /\ sum_list_with rejectedN (loads (run initialState events))
     <= List.length (filter (fun e => isFailure e = true) events).
Proof.
  induction events as [|e events [IH Hrej]] using rev_ind.
  - repeat split; cbn; try lia; done.
  - rewrite capital_run_snoc.
    destruct (step_sharesLoad _ e IH) as [Hshares Hstep].
    split; [exact Hshares|]. rewrite filter_app, length_app.
    cbn [filter]. unfold filter at 2. cbn [list_filter].
    destruct (isFailure e); cbn [decide_rel List.length] in *.
    + destruct (decide (true = true)); [|done]. cbn [List.length]. lia.
    + destruct (decide (false = true)); [done|]. cbn [List.length]. lia.
Qed.

Lemma loaded_step_frozen st e :
  sharesLoad st -> isLoaded st = true ->
  let st' := step st e in
  isLoaded st' = true /\ fetchCount st' = fetchCount st
  /\ capitalCache st' = capitalCache st /\ loads st' = loads st.
Proof.
  intros (Hcount & Hone & Hful & Hnone) Hloaded. rewrite Hloaded in Hful.
  destruct e as [|p outcome]; cbn [step]; [by rewrite Hloaded|].
  destruct (loads st !! p) as [[| |]|] eqn:Hp; try done.
  pose proof (lookup_pending _ _ Hp). lia.
Qed.

(** X22: concurrent calls of [loadCapitalData] share one request.  For
    every order of calls and responses, the number of requests issued is
    at most one more than the number of failed responses: without a
    failure there is one request however many calls are made.  Once a
    response has been loaded, no later call or response issues a request
    or changes the cache. *)
Theorem capital_loads_are_shared (events : list Event) :
  let st := run initialState events in
  fetchCount st
    <= 1 + List.length (filter (fun e => isFailure e = true) events)
  /\ (isLoaded st = true ->
      forall later,
        fetchCount (run st later) = fetchCount st
        /\ capitalCache (run st later) = capitalCache st
        /\ isLoaded (run st later) = true).
Proof.
  cbn zeta. destruct (run_sharesLoad events) as [Hshares Hrej]. split.
  - destruct Hshares as (Hcount & Hone & _).
    rewrite Hcount, loads_partition. lia.
  - intros Hloaded later.
    induction later as [|e later IH] using rev_ind; [done|].
    rewrite capital_run_snoc. destruct IH as (Hf & Hc & Hl).
    assert (Hs : sharesLoad (run (run initialState events) later)).
    { unfold run. rewrite <- fold_left_app. apply run_sharesLoad. }
    destruct (loaded_step_frozen _ e Hs Hl) as (Hl' & Hf' & Hc' & _).
    by rewrite Hf', Hc', Hf, Hc.
Qed.

End CapitalLoads.

(** ** The flag lookup of the globe *)

Section FlagLookups.

Import JsString GlobeView FlagLookup.
Local Open Scope string_scope.
Local Open Scope list_scope.
Local Open Scope nat_scope.

Lemma flagRun_snoc w events e :
  flagRun w (events ++ [e]) = flagStep (flagRun w events) e.
Proof. unfold flagRun. by rewrite fold_left_app. Qed.

Lemma flagStep_cached w map e :
  flagLookupCache w = Some map ->
  is_Some (flagLookupCache (flagStep w e))
  /\ flagFetchCount (flagStep w e) = flagFetchCount w.
Proof.
  intros H. destruct e as [|i outcome]; cbn [flagStep].
  - rewrite H. cbn. rewrite ?H. by split; [eexists|].
  - destruct (flagTasks w !! i) as [[|]|]; cbn; rewrite ?H;
      by split; [eexists|].
Qed.

Lemma flagRun_cached w map events :
  flagLookupCache w = Some map ->
  is_Some (flagLookupCache (flagRun w events))
  /\ flagFetchCount (flagRun w events) = flagFetchCount w.
Proof.
  intros H. induction events as [|e events [[m Hm] Hcount]] using rev_ind.
  - cbn. rewrite H. by split; [eexists|].
  - rewrite flagRun_snoc.
    destruct (flagStep_cached _ _ e Hm) as [Hsome Hsame].
    by rewrite Hsame.
Qed.

Lemma flagRun_calls w map n :
  flagLookupCache w = Some map ->
  flagRun w (repeat CallFlags n)
  = {| flagLookupCache := Some map; flagFetchCount := flagFetchCount w;
       flagTasks := flagTasks w ++ repeat (Returned map) n |}.
Proof.
  revert w. induction n as [|n IH]; intros w H.
  - cbn. rewrite app_nil_r. destruct w. cbn in *. by rewrite H.
  - assert (Hstep : flagStep w CallFlags
                    = {| flagLookupCache := Some map;
                         flagFetchCount := flagFetchCount w;
                         flagTasks := flagTasks w ++ [Returned map] |})
      by (cbn [flagStep]; by rewrite H).
    change (flagRun w (repeat CallFlags (S n)))
      with (flagRun (flagStep w CallFlags) (repeat CallFlags n)).
    rewrite Hstep, IH by reflexivity. cbn [flagFetchCount flagTasks].
    by rewrite <- app_assoc.
Qed.

(** After a failure that leaves no call waiting, nothing changes the
    cached empty map: the calls that follow return it. *)
Definition settledEmpty (tasksBefore : list FlagTask) (w : FlagWorld) : Prop :=
  flagLookupCache w = Some ∅
  /\ (forall j, flagTasks w !! j <> Some AwaitingFlags)
  /\ exists n, flagTasks w = tasksBefore ++ repeat (Returned ∅) n.

Lemma flagStep_settledEmpty tasksBefore w e :
  settledEmpty tasksBefore w -> settledEmpty tasksBefore (flagStep w e).
Proof.
  intros (Hcache & Hnone & n & Htasks).
  destruct e as [|j outcome]; cbn [flagStep].
  - rewrite Hcache. unfold settledEmpty. cbn [flagLookupCache flagTasks].
    split; [done|]. split.
    + intros j Hj. apply lookup_app_Some in Hj as [Hj|[_ Hj]];
        [by apply (Hnone j)|].
      by destruct (j - _) as [|[|]].
    + exists (S n). rewrite Htasks, <- app_assoc. f_equal.
      change [Returned ∅] with (repeat (Returned (∅ : gmap string Lookup)) 1).
      rewrite <- repeat_app. f_equal. lia.
  - destruct (flagTasks w !! j) as [[|map]|] eqn:Hj;
      [by destruct (Hnone j) | |]; repeat split; eauto.
Qed.

Lemma flagRun_settledEmpty tasksBefore w events :
  settledEmpty tasksBefore w -> settledEmpty tasksBefore (flagRun w events).
Proof.
  intros H. induction events as [|e events IH] using rev_ind; [exact H|].
  rewrite flagRun_snoc. by apply flagStep_settledEmpty.
Qed.

(** X23: a failed flag lookup is never retried.  When the request of
    [loadFlagLookup] fails, the call returns an empty map and caches it,
    and from then on no call ever issues a request again, whatever
    happens.  If no other call was waiting for its response at that
    time, the cache stays the empty map for good and every call that
    follows returns the empty map, so that the globe keeps its base
    colours for the rest of the session; a call that was already
    waiting replaces the cached map by its own when its response
    arrives. *)
Theorem failed_flag_lookup_is_not_retried (w : FlagWorld) (i : nat)
    (message : string)
    (Hwaiting : flagTasks w !! i = Some AwaitingFlags) :
  let w' := flagStep w (FlagsSettled i (FlagFailure message)) in
  flagTasks w' !! i = Some (Returned ∅)
  /\ flagLookupCache w' = Some ∅
  /\ (forall events, flagFetchCount (flagRun w' events) = flagFetchCount w)
  /\ ((forall j, flagTasks w' !! j <> Some AwaitingFlags) ->
      forall events,
        flagLookupCache (flagRun w' events) = Some ∅
        /\ exists n,
             flagTasks (flagRun w' events)
             = flagTasks w' ++ repeat (Returned ∅) n)
  /\ (forall j data,
        flagTasks w' !! j = Some AwaitingFlags ->
        flagLookupCache (flagStep w' (FlagsSettled j (FlagBody data)))
        = Some (buildMap data)).
Proof.
  cbn zeta. cbn [flagStep]. rewrite Hwaiting. cbn [flagTasks flagLookupCache].
  split; [|split; [done|split; [|split]]].
  - apply list_lookup_insert_eq. by eapply lookup_lt_Some.
  - intros events.
    by destruct (flagRun_cached
                   {| flagLookupCache := Some ∅;
                      flagFetchCount := flagFetchCount w;
                      flagTasks := <[i := Returned ∅]> (flagTasks w) |}
                   ∅ events eq_refl) as [_ ->].
  - intros Hnone events.
    match goal with |- context [flagRun ?x events] => set (w' := x) end.
    assert (H : settledEmpty (flagTasks w') w').
    { split; [done|]. split; [exact Hnone|].
      exists 0. cbn [repeat]. by rewrite app_nil_r. }
    destruct (flagRun_settledEmpty _ _ events H) as (Hcache & _ & Htasks).
    split; [exact Hcache | exact Htasks].
  - intros j data Hj. cbn [flagStep flagTasks]. by rewrite Hj.
Qed.

Lemma failed_flag_lookup_is_not_retried_witness :
  let w' := flagRun initialFlagWorld
              [CallFlags; FlagsSettled 0 (FlagFailure "HTTP 500")] in
  flagLookupCache w' = Some ∅
  /\ flagFetchCount (flagRun w' [CallFlags; CallFlags]) = 1
  /\ flagLookupCache (flagRun w' [CallFlags; CallFlags]) = Some ∅.
Proof.
  destruct (failed_flag_lookup_is_not_retried
              (flagRun initialFlagWorld [CallFlags]) 0 "HTTP 500" eq_refl)
    as (_ & Hcache & Hcount & Hquiet & _).
  split; [exact Hcache|]. split; [exact (Hcount [CallFlags; CallFlags])|].
  refine (proj1 (Hquiet _ [CallFlags; CallFlags])).
  intros j Hj. by destruct j as [|[|]].
Defined.

(** The key under which a record is stored, if it has one. *)
Definition flagKeyOf (entry : FlagRecord) : option string :=
  match cca3 entry with
  | Some c => if truthy c then Some (toUpperCase c) else None
  | None => None
  end.

Lemma setEntry_flagKeyOf map entry :
  setEntry map entry
  = match flagKeyOf entry with
    | Some k => <[k := {| lookupRegion := recordRegion entry;
                          lookupFlags := recordFlags entry |}]> map
    | None => map
    end.
Proof.
  unfold setEntry, flagKeyOf. destruct (cca3 entry) as [c|]; [|done].
  by destruct (truthy c).
Qed.

Lemma fold_setEntry_other after map k :
  Forall (fun entry => flagKeyOf entry <> Some k) after ->
  fold_left setEntry after map !! k = map !! k.
Proof.
  revert map. induction after as [|r after IH]; intros map H; [done|].
  apply Forall_cons in H as [Hr H]. cbn [fold_left].
  rewrite IH by done. rewrite setEntry_flagKeyOf.
  destruct (flagKeyOf r) as [k'|]; [|done].
  apply lookup_insert_ne. congruence.
Qed.

Lemma buildMap_lookup before entry after k :
  flagKeyOf entry = Some k ->
  Forall (fun later => flagKeyOf later <> Some k) after ->
  buildMap (before ++ entry :: after) !! k
  = Some {| lookupRegion := recordRegion entry;
            lookupFlags := recordFlags entry |}.
Proof.
  intros Hk Hlast. unfold buildMap. rewrite fold_left_app. cbn [fold_left].
  rewrite fold_setEntry_other by done.
  rewrite setEntry_flagKeyOf, Hk. by rewrite lookup_insert_eq.
Qed.

End FlagLookups.


Section FlagLookupOfFeatures.

Import JsString GlobeView FlagLookup.
Local Open Scope string_scope.
Local Open Scope list_scope.
Local Open Scope nat_scope.

Variable getCountryPalette :
  nat -> ColorUtils.CountryRef -> ColorUtils.Options
  -> Completion ColorUtils.Palette.

(** A record whose code is a string whose upper case the embedding
    represents. *)
Definition plainFlagRecord (entry : FlagRecord) : Prop :=
  forall c, cca3 entry = Some c -> plainCode c = true.

(** X24: the enrichment finds the flag record of a feature whatever the
    letter case of the two codes.  With the map that [loadFlagLookup]
    builds from a response, a feature whose code agrees, up to case,
    with the [cca3] of a record is coloured from the region and the
    flags of that record (of the last one, if several records have the
    code); a feature whose code no record has is left as it is.  The
    code of the feature and the codes of the records that must differ
    from it are strings whose upper case the embedding represents (no
    U+00B5, U+00DF, U+00FF). *)
Theorem feature_finds_its_flag_record (data : list FlagRecord)
    (feature : Feature) (iso : string) (i : nat)
    (Hiso : iso3Of feature = Some iso)
    (Htruthy : truthy iso = true)
    (Hplain : plainCode iso = true) :
  (forall before entry after,
     data = before ++ entry :: after ->
     flagKeyOf entry = Some (toUpperCase iso) ->
     Forall plainFlagRecord after ->
     Forall (fun later => flagKeyOf later <> Some (toUpperCase iso)) after ->
     enrichFeature (buildMap data) getCountryPalette i feature
     = match getCountryPalette i
               {| ColorUtils.region := recordRegion entry;
                  ColorUtils.flag := None; ColorUtils.flagUrl := None;
                  ColorUtils.flags := recordFlags entry |}
               (optionsOf feature) with
       | Return palette =>
           setColor (orElse (Some (ColorUtils.accent palette))
                            (baseColor feature)) feature
       | Throw err => setColor (baseColor feature) feature
       end)
  /\ (Forall plainFlagRecord data ->
      Forall (fun entry => flagKeyOf entry <> Some (toUpperCase iso)) data ->
      enrichFeature (buildMap data) getCountryPalette i feature = feature).
Proof.
  split.
  - intros before entry after -> Hkey _ Hlast. unfold enrichFeature.
    rewrite Hiso. cbn [truthyOpt orDefault]. rewrite Htruthy. cbn [negb].
    by rewrite (buildMap_lookup _ _ _ _ Hkey Hlast).
  - intros _ Hnone. unfold enrichFeature.
    rewrite Hiso. cbn [truthyOpt orDefault]. rewrite Htruthy. cbn [negb].
    unfold buildMap. by rewrite fold_setEntry_other, lookup_empty.
Qed.

End FlagLookupOfFeatures.

Section FlagLookupExample.

Import JsString GlobeView FlagLookup.
Local Open Scope string_scope.
Local Open Scope list_scope.

Lemma feature_finds_its_flag_record_witness :
  color (enrichFeature
           (buildMap [ {| cca3 := Some "PER"; recordRegion := None;
                          recordFlags := None |};
                       {| cca3 := Some "Per";
                          recordRegion := Some "Americas";
                          recordFlags :=
                            Some {| ColorUtils.svg := Some "tricolour.svg";
                                    ColorUtils.png := None |} |};
                       {| cca3 := None; recordRegion := Some "Europe";
                          recordFlags := None |} ])
           somePalettes 0 (initFeature 0 (boundary "per" "Americas")))
  = Some "#D01010".
Proof.
  pose proof (proj1 (feature_finds_its_flag_record somePalettes
    [ {| cca3 := Some "PER"; recordRegion := None; recordFlags := None |};
      {| cca3 := Some "Per"; recordRegion := Some "Americas";
         recordFlags := Some {| ColorUtils.svg := Some "tricolour.svg";
                                ColorUtils.png := None |} |};
      {| cca3 := None; recordRegion := Some "Europe";
         recordFlags := None |} ]
    (initFeature 0 (boundary "per" "Americas")) "per" 0 eq_refl eq_refl
    eq_refl)
    [ {| cca3 := Some "PER"; recordRegion := None; recordFlags := None |} ]
    {| cca3 := Some "Per"; recordRegion := Some "Americas";
       recordFlags := Some {| ColorUtils.svg := Some "tricolour.svg";
                              ColorUtils.png := None |} |}
    [ {| cca3 := None; recordRegion := Some "Europe";
         recordFlags := None |} ]
    eq_refl eq_refl ltac:(repeat constructor; discriminate)
    ltac:(repeat constructor; discriminate)) as H.
  rewrite H. vm_compute. reflexivity.
Defined.

End FlagLookupExample.
